(** * LEX (Lender Eligibility X): the lender resolver, the upload cache and
      the query flow of [app.py], embedded and verified.

    Python [str] values are modelled as lists of characters, one [ascii] per
    code point in the range U+0000..U+00FF; the character classes below are
    those CPython uses on that range ([str.isspace], the [\s] and [\w] classes
    of [re] on [str] patterns, [str.lower]).  Time, modification times and
    timeouts are exact integers (time units). *)

From Stdlib Require Import Ascii String ZArith Lia.
From stdpp Require Import base option list gmap strings sorting.

Notation text := (list ascii).

(** A string literal as a list of characters. *)
Definition str (s : string) : text := list_ascii_of_string s.
Arguments str : simpl never.

(** ** Characters and the string methods the code uses *)
Module Text.

Definition code (c : ascii) : N := N_of_ascii c.

Definition in_range (lo hi : N) (c : ascii) : bool :=
  ((lo <=? code c) && (code c <=? hi))%N.

(** [str.isspace] on one character, also the class [\s] and what
    [str.strip()] removes. *)
Definition is_space (c : ascii) : bool :=
  in_range 9 13 c || in_range 28 32 c
  || bool_decide (code c = 133%N) || bool_decide (code c = 160%N).

(** The class [\w] of a [str] pattern: alphanumeric or underscore. *)
Definition is_word (c : ascii) : bool :=
  in_range 48 57 c || in_range 65 90 c || bool_decide (code c = 95%N)
  || in_range 97 122 c
  || bool_decide (code c = 170%N) || in_range 178 179 c
  || bool_decide (code c = 181%N) || in_range 185 186 c
  || in_range 188 190 c || in_range 192 214 c || in_range 216 246 c
  || in_range 248 255 c.

(** [str.lower] on one character of the range U+0000..U+00FF, where it
    gives one character of the range for each character. *)
Definition lower_char (c : ascii) : ascii :=
  if in_range 65 90 c
     || (in_range 192 222 c && negb (bool_decide (code c = 215%N)))
  then ascii_of_N (code c + 32) else c.

Definition lower (s : text) : text := lower_char <$> s.

Fixpoint lstrip (s : text) : text :=
  match s with
  | c :: r => if is_space c then lstrip r else s
  | [] => []
  end.

Definition rstrip (s : text) : text := reverse (lstrip (reverse s)).

(** [s.strip()] *)
Definition strip (s : text) : text := rstrip (lstrip s).

(** [sep.join(parts)] *)
Fixpoint join (sep : text) (parts : list text) : text :=
  match parts with
  | [] => []
  | [p] => p
  | p :: ps => p ++ sep ++ join sep ps
  end.

(** The characters of [s] before the first [stop]. *)
Fixpoint before_char (stop : ascii) (s : text) : text :=
  match s with
  | c :: r => if bool_decide (c = stop) then [] else c :: before_char stop r
  | [] => []
  end.

(** [needle in hay] *)
Definition contains (needle hay : text) : Prop :=
  ∃ before after, hay = before ++ needle ++ after.

End Text.

(** ** The two regular expressions of the parser *)
Module Regex.
Import Text.

(** [\b] between the character before a position and the one after it. *)
Definition is_word_opt (c : option ascii) : bool :=
  from_option is_word false c.

Definition word_boundary (prev next : option ascii) : bool :=
  xorb (is_word_opt prev) (is_word_opt next).

(** A literal word of the pattern under [re.IGNORECASE]; [w] is given in
    lower case.  Returns the last character read and what follows. *)
Fixpoint literal_nocase (w : text) (last : ascii) (s : text)
  : option (ascii * text) :=
  match w with
  | [] => Some (last, s)
  | a :: w' =>
      match s with
      | c :: r =>
          if bool_decide (lower_char c = a) then literal_nocase w' c r
          else None
      | [] => None
      end
  end.

(** [\bword\b] at a position whose preceding character is [prev]. *)
Definition bounded_word (w : text) (prev : option ascii) (s : text)
  : option (ascii * text) :=
  if word_boundary prev (head s) then
    match s with
    | c :: _ =>
        match literal_nocase w c s with
        | Some (last, r) =>
            if word_boundary (Some last) (head r) then Some (last, r)
            else None
        | None => None
        end
    | [] => None
    end
  else None.

(** The alternation [(?:,|/|&|\band\b|\bor\b|\+)], tried left to right. *)
Definition delimiter (prev : option ascii) (s : text)
  : option (ascii * text) :=
  match s with
  | c :: r =>
      if bool_decide (c = ","%char) then Some (c, r)
      else if bool_decide (c = "/"%char) then Some (c, r)
      else if bool_decide (c = "&"%char) then Some (c, r)
      else match bounded_word (str "and") prev s with
           | Some m => Some m
           | None =>
               match bounded_word (str "or") prev s with
               | Some m => Some m
               | None =>
                   if bool_decide (c = "+"%char) then Some (c, r) else None
               end
           end
  | [] => None
  end.

(** Greedy [\s*]: the last character read (or [prev]) and what follows. *)
Fixpoint spaces (prev : option ascii) (s : text) : option ascii * text :=
  match s with
  | c :: r => if is_space c then spaces (Some c) r else (prev, s)
  | [] => (prev, [])
  end.

(** LENDER_SPLIT_PATTERN anchored at the head of [s].  The leading [\s*]
    takes every whitespace character: giving one back cannot help, since no
    alternative starts with whitespace ([delimiter_not_space] below). *)
Definition split_pattern_at (prev : option ascii) (s : text)
  : option (ascii * text) :=
  let '(prev', s') := spaces prev s in
  match delimiter prev' s' with
  | Some (last, r) =>
      let '(last', r') := spaces (Some last) r in
      Some (from_option id last last', r')
  | None => None
  end.

(** Leftmost match at or after the head of [s]: the text before it, the
    last character of the match and the text after it. *)
Fixpoint split_pattern_search (prev : option ascii) (s : text)
  : option (text * ascii * text) :=
  match split_pattern_at prev s with
  | Some (last, r) => Some ([], last, r)
  | None =>
      match s with
      | c :: s' =>
          match split_pattern_search (Some c) s' with
          | Some (piece, last, r) => Some (c :: piece, last, r)
          | None => None
          end
      | [] => None
      end
  end.

(** [LENDER_SPLIT_PATTERN.split]: every match is at least one character
    long, so [length s] rounds are enough. *)
Fixpoint split_loop (fuel : nat) (prev : option ascii) (s : text)
  : list text :=
  match fuel with
  | O => [s]
  | S fuel' =>
      match split_pattern_search prev s with
      | Some (piece, last, r) => piece :: split_loop fuel' (Some last) r
      | None => [s]
      end
  end.

Definition split_pattern (s : text) : list text :=
  split_loop (length s) None s.

(** [[^)]+] followed by [\)]: the group and what follows the closing
    parenthesis. *)
Fixpoint group_body (s : text) : option (text * text) :=
  match s with
  | c :: r =>
      if bool_decide (c = ")"%char) then None
      else match r with
           | c' :: r' =>
               if bool_decide (c' = ")"%char) then Some ([c], r')
               else match group_body r with
                    | Some (g, post) => Some (c :: g, post)
                    | None => None
                    end
           | [] => None
           end
  | [] => None
  end.

(** [re.search(r"\(([^)]+)\)", s)]: the text before the match, group 1 and
    the text after the match. *)
Fixpoint paren_search (s : text) : option (text * text * text) :=
  match s with
  | c :: r =>
      let next :=
        match paren_search r with
        | Some (pre, g, post) => Some (c :: pre, g, post)
        | None => None
        end in
      if bool_decide (c = "("%char) then
        match group_body r with
        | Some (g, post) => Some ([], g, post)
        | None => next
        end
      else next
  | [] => None
  end.

End Regex.

(** ** Lender resolver *)

(** [normalize_lender_key] *)
Definition normalize_lender_key (value : text) : text :=
  filter (λ c, Text.in_range 97 122 c || Text.in_range 48 57 c) (Text.lower value).

(** [[token.strip() for token in LENDER_SPLIT_PATTERN.split(segment)
    if token.strip()]] *)
Definition tokens (lenders_segment : text) : list text :=
  filter (λ t, t ≠ []) (Text.strip <$> Regex.split_pattern lenders_segment).

(** [parse_lenders_and_question] *)
Definition parse_lenders_and_question (raw_input : text) : list text * text :=
  match Regex.paren_search raw_input with
  | None => ([], Text.strip raw_input)
  | Some (before, lenders_segment, after) =>
      let question := Text.strip (before ++ after) in
      let lenders := tokens lenders_segment in
      (lenders, question)
  end.

(** [format_lenders_for_input] *)
Definition format_lenders_for_input (lender_names : list text) : text :=
  str "(" ++ Text.join (str ", ") lender_names ++ str ")".


(** A path in its string form.  [Path] objects are always truthy. *)
Notation Path := (list ascii) (only parsing).

Module PathOps.

(** [dir / name] *)
Definition joinpath (dir : Path) (name : text) : Path :=
  dir ++ str "/" ++ name.

(** [path.name]: the final component. *)
Definition name (p : Path) : text :=
  reverse (Text.before_char "/" (reverse p)).

(** Index of the last ["."] of [n], counted from the left. *)
Definition rfind_dot (n : text) : option nat :=
  let tail := Text.before_char "." (reverse n) in
  if bool_decide (length tail < length n) then Some (length n - length tail - 1)
  else None.

(** [path.stem]: the name without its suffix; a leading or a trailing
    dot does not start a suffix. *)
Definition stem (p : Path) : text :=
  let n := name p in
  match rfind_dot n with
  | Some i => if bool_decide (0 < i < length n - 1) then take i n else n
  | None => n
  end.

(** The names [glob("*.pdf")] selects (on a file system that tells cases
    apart). *)
Definition is_pdf (n : text) : bool :=
  bool_decide (drop (length n - 4) n = str ".pdf").

(** Paths of one directory compare as their names do, by code point. *)
Definition name_le (a b : text) : Prop :=
  String.le (string_of_list_ascii a) (string_of_list_ascii b).

Global Instance name_le_dec : RelDecision name_le.
Proof. intros a b. unfold name_le. apply _. Defined.

(** [sorted(dir.glob("*.pdf"))] for a directory whose entries are
    [entries], in the order the system lists them. *)
Definition sorted_glob_pdf (dir : Path) (entries : list text) : list Path :=
  joinpath dir <$> merge_sort name_le (filter (λ n, is_pdf n = true) entries).

End PathOps.

(** The exception classes the query handler tells apart. *)
Inductive ExnClass :=
  | TimeoutError | RuntimeError | FileNotFoundError | ValueError
  | AttributeError | OtherError.

(** An exception: its class and [str(exc)]. *)
Record Exn := mkExn { exn_class : ExnClass; exn_msg : text }.

(** What the code reads from the file system. *)
Record FileSystem := {
  (** the entries of a directory; [None] when the path does not exist *)
  fs_listdir : Path → option (list text);
  (** [str(path.resolve())] *)
  fs_resolve : Path → text;
  (** [path.stat().st_mtime], or the [OSError] it raises *)
  fs_mtime : Path → Exn + Z;
}.

(** [index_lender_pdfs] *)
Definition index_lender_pdfs (fs : FileSystem) (pdf_dir : Path)
  : gmap text Path :=
  match fs_listdir fs pdf_dir with
  | None => ∅
  | Some entries =>
      foldl (λ lenders pdf_path,
               <[normalize_lender_key (PathOps.stem pdf_path) := pdf_path]> lenders)
            ∅ (PathOps.sorted_glob_pdf pdf_dir entries)
  end.

(** [find_lender_files] *)
Definition find_lender_files (lenders : list text) (index : gmap text Path)
  : list (text * Path) * list text :=
  foldl (λ '(found, missing) lender,
           let key := normalize_lender_key lender in
           match index !! key with
           | Some path => (found ++ [(lender, path)], missing)
           | None => (found, missing ++ [lender])
           end)
        ([], []) lenders.


(** ** The provider, the session and the clock *)

(** The [state] attribute of a file object: its truth value and its
    [name]. *)
Record FileState := mkState { state_truthy : bool; state_name : text }.

(** A provider file object; an attribute that is missing is [None]. *)
Record FileObj := mkFile {
  file_name : option text;
  file_display_name : option text;
  file_state : option FileState;
}.

Inductive Part := PartFile (f : FileObj) | PartText (t : text).

(** Calls made to the provider over the network. *)
Inductive Call :=
  | CallUpload (path : text)
  | CallGetFile (name : text)
  | CallSend (parts : list Part).

(** What a provider call gives back and how long it took. *)
Record Reply (A : Type) := mkReply { reply : Exn + A; took : N }.
Arguments mkReply {A} _ _.
Arguments reply {A} _.
Arguments took {A} _.

(** The provider: each answer may depend on the calls made before and on
    the time of the call.  [send_message] stands for the call and the read of
    [response.text], [None] being a response without text. *)
Record Provider := {
  upload_file : list Call → Z → text → Reply FileObj;
  get_file : list Call → Z → text → Reply FileObj;
  send_message : list Call → Z → list Part → Reply (option text);
}.

Record CacheEntry := mkEntry { entry_file : FileObj; entry_mtime : Z }.

Record LogEntry := mkLog {
  log_timestamp : Z;
  log_user_email : text;
  log_prompt : text;
  log_response : option text;
  log_error : option text;
}.

Inductive Role := User | Assistant.
Record Message := mkMessage { msg_role : Role; msg_content : text }.

(** What [st.markdown], [st.error] and [st.info] put on the page. *)
Inductive Shown :=
  | ShownMarkdown (t : text) | ShownError (t : text) | ShownInfo (t : text).

(** The part of [st.session_state] the query flow uses; a key that is not
    in the session is [None]. *)
Record Session := mkSession {
  upload_cache : option (gmap text CacheEntry);
  chat_session_key : option text;
  interaction_logs : option (list LogEntry);
  messages : list Message;
  active_api_key : text;
  selected_model : text;
}.

Record World := mkWorld {
  now : Z;
  calls : list Call;
  fs : FileSystem;
  session : Session;
  shown : list Shown;
}.

(** Computations that read and change the world and may raise. *)
Definition M (A : Type) : Type := World → (Exn + A) * World.

Module Monad.

Definition ret {A} (a : A) : M A := λ w, (inr a, w).

Definition bind {A B} (m : M A) (k : A → M B) : M B :=
  λ w, match m w with
       | (inr a, w') => k a w'
       | (inl e, w') => (inl e, w')
       end.

Definition raise {A} (e : Exn) : M A := λ w, (inl e, w).

(** [try: m  except Exception as exc: handler(exc)] *)
Definition catch {A} (m : M A) (handler : Exn → M A) : M A :=
  λ w, match m w with
       | (inr a, w') => (inr a, w')
       | (inl e, w') => handler e w'
       end.

Definition gets {A} (f : World → A) : M A := λ w, (inr (f w), w).

Definition modify (f : World → World) : M unit := λ w, (inr tt, f w).

Definition set_session (f : Session → Session) : M unit :=
  modify (λ w, mkWorld (now w) (calls w) (fs w) (f (session w)) (shown w)).

End Monad.

Notation "'let*' x := m 'in' k" := (Monad.bind m (λ x, k))
  (at level 10, x name, m at level 100, k at level 200, only parsing).
Notation "'run' m 'in' k" := (Monad.bind m (λ _, k))
  (at level 10, m at level 100, k at level 200, only parsing).

Section Flow.

Variable provider : Provider.
(** LEX_SYSTEM_PROMPT *)
Variable LEX_SYSTEM_PROMPT : text.

(** [time.time()] *)
Definition time_time : M Z := Monad.gets now.

(** [time.sleep(d)] *)
Definition time_sleep (d : Z) : M unit :=
  Monad.modify (λ w, mkWorld (now w + d) (calls w) (fs w) (session w) (shown w)).

(** A provider call: it is recorded, takes its time, and returns or
    raises. *)
Definition provider_call {A} (c : Call)
    (answer : list Call → Z → Reply A) : M A :=
  λ w, let r := answer (calls w) (now w) in
       (reply r,
        mkWorld (now w + Z.of_N (took r)) (calls w ++ [c]) (fs w)
                (session w) (shown w)).

Definition genai_upload_file (path : text) : M FileObj :=
  provider_call (CallUpload path) (λ h t, upload_file provider h t path).

Definition genai_get_file (name : text) : M FileObj :=
  provider_call (CallGetFile name) (λ h t, get_file provider h t name).

Definition chat_send_message (parts : list Part) : M (option text) :=
  provider_call (CallSend parts) (λ h t, send_message provider h t parts).

(** [ensure_upload_cache] *)
Definition ensure_upload_cache : M unit :=
  Monad.set_session (λ s,
    match upload_cache s with
    | Some _ => s
    | None => mkSession (Some ∅) (chat_session_key s) (interaction_logs s)
                        (messages s) (active_api_key s) (selected_model s)
    end).

(** [_label] of [wait_for_file_active] *)
Definition label (obj : FileObj) : text :=
  from_option id (from_option id (str "uploaded file") (file_name obj))
              (file_display_name obj).

(** [getattr(obj, "state", None) and obj.state.name == n] *)
Definition state_is (n : text) (obj : FileObj) : bool :=
  match file_state obj with
  | Some st => state_truthy st && bool_decide (state_name st = n)
  | None => false
  end.

(** [getattr(obj, "state", None) and obj.state.name != n] *)
Definition state_is_not (n : text) (obj : FileObj) : bool :=
  match file_state obj with
  | Some st => state_truthy st && bool_decide (state_name st ≠ n)
  | None => false
  end.

(** [current.name] *)
Definition attr_name (obj : FileObj) : M text :=
  match file_name obj with
  | Some n => Monad.ret n
  | None => Monad.raise (mkExn AttributeError (str "object has no attribute 'name'"))
  end.

Definition timed_out_error (current : FileObj) : Exn :=
  mkExn TimeoutError
    (str "Timed out while waiting for " ++ label current ++ str " to process.").

Definition rejected_error (current : FileObj) : Exn :=
  mkExn RuntimeError
    (str "Gemini reported '"
     ++ from_option state_name [] (file_state current)
     ++ str "' for " ++ label current ++ str ".").

(** The [while] loop of [wait_for_file_active].  Every round sleeps two
    time units, so the elapsed time passes [timeout] within [rounds]
    rounds; the last branch is never taken when [rounds] is
    [wait_rounds timeout] or more. *)
Fixpoint wait_loop (rounds : nat) (start timeout : Z) (current : FileObj)
  : M FileObj :=
  if state_is (str "PROCESSING") current then
    let* t := time_time in
    if bool_decide (t - start > timeout)%Z then
      Monad.raise (timed_out_error current)
    else
      match rounds with
      | S rounds' =>
          run time_sleep 2 in
          let* n := attr_name current in
          let* next := genai_get_file n in
          wait_loop rounds' start timeout next
      | O => Monad.raise (timed_out_error current)
      end
  else Monad.ret current.

Definition wait_rounds (timeout : Z) : nat := S (Z.to_nat (timeout / 2)).
Arguments wait_rounds : simpl never.

(** [wait_for_file_active(file_obj, timeout)] *)
Definition wait_for_file_active (file_obj : FileObj) (timeout : Z)
  : M FileObj :=
  let* start := time_time in
  let* current := wait_loop (wait_rounds timeout) start timeout file_obj in
  if state_is_not (str "ACTIVE") current then
    Monad.raise (rejected_error current)
  else Monad.ret current.

(** The default of the [timeout] parameter. *)
Definition default_timeout : Z := 120.

(** [cache[path_key] = {"file": upload, "mtime": mtime}] *)
Definition cache_store (path_key : text) (e : CacheEntry) : M unit :=
  Monad.set_session (λ s,
    mkSession (Some (<[path_key := e]> (default ∅ (upload_cache s))))
              (chat_session_key s) (interaction_logs s) (messages s)
              (active_api_key s) (selected_model s)).

(** [cached and cached.get("mtime") == mtime]: the cached file when the
    entry is still good. *)
Definition cache_hit (cached : option CacheEntry) (mtime : Z)
  : option FileObj :=
  match cached with
  | Some entry =>
      if bool_decide (entry_mtime entry = mtime) then Some (entry_file entry)
      else None
  | None => None
  end.

(** [upload_pdf_with_cache] *)
Definition upload_pdf_with_cache (pdf_path : Path) : M FileObj :=
  run ensure_upload_cache in
  let* cache := Monad.gets (λ w, default ∅ (upload_cache (session w))) in
  let* path_key := Monad.gets (λ w, fs_resolve (fs w) pdf_path) in
  let* stat := Monad.gets (λ w, fs_mtime (fs w) pdf_path) in
  match stat with
  | inl exc => Monad.raise exc
  | inr mtime =>
      match cache_hit (cache !! path_key) mtime with
      | Some file => Monad.ret file
      | None =>
          let* upload := genai_upload_file pdf_path in
          let* upload := wait_for_file_active upload default_timeout in
          run cache_store path_key (mkEntry upload mtime) in
          Monad.ret upload
      end
  end.

(** [[f(x) for x in xs]] for an [f] with effects. *)
Fixpoint for_each {A B} (f : A → M B) (xs : list A) : M (list B) :=
  match xs with
  | [] => Monad.ret []
  | x :: xs' =>
      let* y := f x in
      let* ys := for_each f xs' in
      Monad.ret (y :: ys)
  end.

(** [ensure_chat_session]: the chat session and its key are set
    together, so the session is present exactly when the key is. *)
Definition ensure_chat_session (api_key model_name user_email : text)
  : M unit :=
  let session_key := user_email ++ str ":" ++ api_key ++ str ":" ++ model_name in
  Monad.set_session (λ s,
    if bool_decide (chat_session_key s = Some session_key) then s
    else mkSession (upload_cache s) (Some session_key) (interaction_logs s)
                   (messages s) (active_api_key s) (selected_model s)).

(** [log_interaction] *)
Definition log_interaction (user_email prompt response : text)
    (error : option text) : M unit :=
  let* timestamp := time_time in
  let is_error := bool_decide (error ≠ None ∧ error ≠ Some []) in
  let log_entry :=
    mkLog timestamp user_email prompt
          (if is_error then None else Some response) error in
  Monad.set_session (λ s,
    mkSession (upload_cache s) (chat_session_key s)
              (Some (default [] (interaction_logs s) ++ [log_entry]))
              (messages s) (active_api_key s) (selected_model s)).

Definition fallback_answer : text :=
  str "I apologize, but I couldn't generate a response. Please try rephrasing your question.".

(** [parts] of [answer_with_gemini]: the uploads, then the system prompt
    and the question as one text. *)
Definition message_parts (question : text) (uploads : list FileObj)
  : list Part :=
  let enhanced_question :=
    LEX_SYSTEM_PROMPT ++ ["010"; "010"]%char ++ str "User Question: "
    ++ question in
  (PartFile <$> uploads) ++ [PartText enhanced_question].

(** [answer_with_gemini] *)
Definition answer_with_gemini (question : text) (lender_files : list Path)
    (model_name user_email : text) : M text :=
  run ensure_upload_cache in
  let* uploads := for_each upload_pdf_with_cache lender_files in
  let* api_key := Monad.gets (λ w, active_api_key (session w)) in
  run ensure_chat_session api_key model_name user_email in
  let parts := message_parts question uploads in
  let* response_text := chat_send_message parts in
  let text := Text.strip (default [] response_text) in
  Monad.ret (if bool_decide (text = []) then fallback_answer else text).

(** [messages.append(...)] *)
Definition append_message (m : Message) : M unit :=
  Monad.set_session (λ s,
    mkSession (upload_cache s) (chat_session_key s) (interaction_logs s)
              (messages s ++ [m]) (active_api_key s) (selected_model s)).

(** [st.markdown] and [st.error] *)
Definition st_show (x : Shown) : M unit :=
  Monad.modify (λ w,
    mkWorld (now w) (calls w) (fs w) (session w) (shown w ++ [x])).

Definition no_lenders_error : Exn :=
  mkExn ValueError
    (str "Please select lenders from the dropdown or include lender names in parentheses, e.g. `(mulligan, acme) trucking industry requirements?`").

Definition no_question_error : Exn :=
  mkExn ValueError (str "Please include a question after the lender list.").

Definition missing_files_error (missing : list text) : Exn :=
  mkExn FileNotFoundError
    (str "Missing PDF files for: " ++ Text.join (str ", ") missing
     ++ str ". Check the sidebar list to see available lenders.").

Definition no_model_error : Exn :=
  mkExn ValueError
    (str "Select a Gemini model in the sidebar before submitting.").

(** The lenders and the question of a prompt: those the prompt names, or
    else those selected in the sidebar. *)
Definition query_lenders (prompt : text) (selected_lenders : list text)
  : list text * text :=
  let '(lenders, question) := parse_lenders_and_question prompt in
  if bool_decide (lenders = []) && bool_decide (selected_lenders ≠ [])
  then (selected_lenders, Text.strip prompt)
  else (lenders, question).

(** The body of the [try] in [main_chat_interface]. *)
Definition process_query (user_email prompt : text)
    (selected_lenders : list text) (lender_index : gmap text Path)
  : M unit :=
  let '(lenders, question) := query_lenders prompt selected_lenders in
  if bool_decide (lenders = []) then Monad.raise no_lenders_error
  else if bool_decide (question = []) then Monad.raise no_question_error
  else
    let '(matched, missing) := find_lender_files lenders lender_index in
    if bool_decide (missing ≠ []) then
      Monad.raise (missing_files_error missing)
    else
      let lender_paths := snd <$> matched in
      let* model_name := Monad.gets (λ w, selected_model (session w)) in
      if bool_decide (model_name = []) then Monad.raise no_model_error
      else
        let* answer :=
          answer_with_gemini question lender_paths model_name user_email in
        run st_show (ShownMarkdown answer) in
        run append_message (mkMessage Assistant answer) in
        log_interaction user_email prompt answer None.

(** The [except] clauses of [main_chat_interface], in their order. *)
Definition report_failure (user_email prompt : text) (exc : Exn) : M unit :=
  match exn_class exc with
  | TimeoutError =>
      run st_show (ShownError (str "File processing timed out: " ++ exn_msg exc)) in
      log_interaction user_email prompt [] (Some (exn_msg exc))
  | FileNotFoundError =>
      run st_show (ShownError (exn_msg exc)) in
      log_interaction user_email prompt [] (Some (exn_msg exc))
  | _ =>
      run st_show (ShownError (str "Something went wrong: " ++ exn_msg exc)) in
      log_interaction user_email prompt [] (Some (exn_msg exc))
  end.

(** The text of the hint shown while lenders are selected and no prompt
    was submitted.  In the source the literal starts with one more
    character, U+F8FF, which is outside the range of [text] and is left
    out here. *)
Definition ready_hint (lender_prefix : text) : text :=
  ["252"; "237"; "176"]%char ++ str " **Ready to query:** " ++ lender_prefix
  ++ str " [your question here]".

(** [main_chat_interface] from the read of the chat input to the end of
    the [try] statement: without a prompt, the hint when lenders are
    selected; with a prompt, the user message, then the query under [try].
    The page footer the function writes afterwards is left out. *)
Definition main_chat_interface (user_email prompt : text)
    (selected_lenders : list text) (lender_index : gmap text Path)
  : M unit :=
  if bool_decide (prompt = []) then
    if bool_decide (selected_lenders ≠ []) then
      let lender_prefix := format_lenders_for_input selected_lenders in
      st_show (ShownInfo (ready_hint lender_prefix))
    else Monad.ret tt
  else
    run append_message (mkMessage User prompt) in
    run st_show (ShownMarkdown prompt) in
    Monad.catch
      (process_query user_email prompt selected_lenders lender_index)
      (report_failure user_email prompt).

End Flow.

(** A token resolves when its normalized form is a key of the index. *)
Definition resolves (index : gmap text Path) (lender : text) : Prop :=
  is_Some (index !! normalize_lender_key lender).

(** The entries of the upload cache; a session without the cache has
    none. *)
Definition cache_of (w : World) : gmap text CacheEntry :=
  default ∅ (upload_cache (session w)).

Definition is_upload (c : Call) : bool :=
  match c with CallUpload _ => true | _ => false end.

(** How many upload calls a call history holds. *)
Definition count_uploads (cs : list Call) : nat :=
  length (filter (λ c, is_upload c = true) cs).

(** [w'] is [w] after some time and some status polls: the clock has not
    gone back, only [get_file] calls were made, and the file system, the
    session and the page are the same. *)
Definition polled (w w' : World) : Prop :=
  (now w ≤ now w')%Z
  ∧ (∃ names, calls w' = calls w ++ (CallGetFile <$> names))
  ∧ fs w' = fs w ∧ session w' = session w ∧ shown w' = shown w.

(** ** Lender lists as the prompt convention writes them *)

(** No group of the parser starts in [s]: every opening parenthesis of [s] is
    closed at once. *)
Fixpoint no_group (s : text) : bool :=
  match s with
  | c :: r =>
      if bool_decide (c = "("%char) then
        match r with
        | c' :: _ => bool_decide (c' = ")"%char) && no_group r
        | [] => false
        end
      else no_group r
  | [] => true
  end.

(** A separator as written: whitespace, a delimiter, whitespace. *)
Record Separator := mkSep {
  sep_before : text;
  sep_core : text;
  sep_after : text;
}.

Definition sep_text (s : Separator) : text :=
  sep_before s ++ sep_core s ++ sep_after s.

Definition blank (s : text) : Prop := Forall (λ c, Text.is_space c = true) s.

Definition symbol_core (core : text) : Prop :=
  core = str "," ∨ core = str "/" ∨ core = str "&" ∨ core = str "+".

(** The words [and] and [or], in any mix of cases. *)
Definition word_core (core : text) : Prop :=
  Text.lower core = str "and" ∨ Text.lower core = str "or".

(** A supported delimiter with optional whitespace around it. *)
Definition supported_separator (s : Separator) : Prop :=
  blank (sep_before s) ∧ blank (sep_after s)
  ∧ (symbol_core (sep_core s) ∨ word_core (sep_core s)).

(** The same, with the words set off by whitespace on both sides. *)
Definition spaced_separator (s : Separator) : Prop :=
  supported_separator s
  ∧ (word_core (sep_core s) → sep_before s ≠ [] ∧ sep_after s ≠ []).

(** A name that reads back as itself: it neither starts nor ends with
    whitespace, has no closing parenthesis, and holds no delimiter. *)
Definition clean_name (n : text) : Prop :=
  (∃ c, head n = Some c ∧ Text.is_space c = false)
  ∧ (∃ c, last n = Some c ∧ Text.is_space c = false)
  ∧ (")"%char ∉ n)
  ∧ Regex.split_pattern_search None n = None.

(** The names [first], then those of [rest], each after its separator. *)
Fixpoint join_names (first : text) (rest : list (Separator * text)) : text :=
  match rest with
  | [] => first
  | (s, n) :: rest' => first ++ sep_text s ++ join_names n rest'
  end.

(** A word of lower-case ASCII letters. *)
Definition letters (w : text) : Prop :=
  Forall (λ a, Text.in_range 97 122 a = true) w.

(** What may follow a name: nothing, or a character that is not a word
    character. *)
Definition inert (tail : text) : Prop :=
  match tail with
  | [] => True
  | t :: _ => Text.is_word t = false
  end.

(** The session apart from the upload cache. *)
Definition session_rest (s : Session)
  : option text * option (list LogEntry) * list Message * text * text :=
  (chat_session_key s, interaction_logs s, messages s, active_api_key s,
   selected_model s).

(** [w'] differs from [w] at most in the clock, the calls made and the
    upload cache. *)
Definition framed (w w' : World) : Prop :=
  fs w' = fs w ∧ shown w' = shown w
  ∧ session_rest (session w') = session_rest (session w).

(** The world once the prompt is in the conversation and on the page. *)
Definition after_prompt (prompt : text) (w : World) : World :=
  (Monad.bind (append_message (mkMessage User prompt))
     (λ _, st_show (ShownMarkdown prompt)) w).2.

(** A provider whose every status report asked for up to the time
    [deadline] is a named handle that is still processing. *)
Definition processing_until (provider : Provider) (deadline : Z) : Prop :=
  ∀ history time name,
    (time ≤ deadline)%Z →
    ∃ next, reply (get_file provider history time name) = inr next
            ∧ state_is (str "PROCESSING") next = true
            ∧ is_Some (file_name next).

(** The world after a sleep of two time units and a status poll for
    [name]. *)
Definition after_poll (provider : Provider) (w : World) (name : text)
  : World :=
  mkWorld
    (now w + 2 + Z.of_N (took (get_file provider (calls w) (now w + 2) name)))
    (calls w ++ [CallGetFile name]) (fs w) (session w) (shown w).

(** The wait in the words of its description, for a wait that started at
    the time [start]: a handle whose state is not truthy and named
    PROCESSING ends the wait, at once, as a success unless its state is
    truthy and named anything but ACTIVE, which is a rejection; a handle
    that is processing is timed out when the time elapsed is strictly
    greater than [timeout], and is otherwise polled again after a sleep of
    two time units, the wait going on with the handle the poll returns. *)
Inductive polling (provider : Provider) (start timeout : Z)
  : FileObj → World → Exn + FileObj → World → Prop :=
  | polling_success current w :
      state_is (str "PROCESSING") current = false →
      state_is_not (str "ACTIVE") current = false →
      polling provider start timeout current w (inr current) w
  | polling_rejected current w :
      state_is (str "PROCESSING") current = false →
      state_is_not (str "ACTIVE") current = true →
      polling provider start timeout current w
        (inl (rejected_error current)) w
  | polling_timed_out current w :
      state_is (str "PROCESSING") current = true →
      (now w - start > timeout)%Z →
      polling provider start timeout current w
        (inl (timed_out_error current)) w
  | polling_unnamed current w :
      state_is (str "PROCESSING") current = true →
      (now w - start ≤ timeout)%Z →
      file_name current = None →
      polling provider start timeout current w
        (inl (mkExn AttributeError (str "object has no attribute 'name'")))
        (mkWorld (now w + 2) (calls w) (fs w) (session w) (shown w))
  | polling_poll_raised current w name exc :
      state_is (str "PROCESSING") current = true →
      (now w - start ≤ timeout)%Z →
      file_name current = Some name →
      reply (get_file provider (calls w) (now w + 2) name) = inl exc →
      polling provider start timeout current w (inl exc)
        (after_poll provider w name)
  | polling_again current w name next r w' :
      state_is (str "PROCESSING") current = true →
      (now w - start ≤ timeout)%Z →
      file_name current = Some name →
      reply (get_file provider (calls w) (now w + 2) name) = inr next →
      polling provider start timeout next (after_poll provider w name) r w' →
      polling provider start timeout current w r w'.

(** ** The rest of the code around the resolver and the query flow *)

(** [normalize_model_name] *)
Definition normalize_model_name (value : text) : text :=
  let name := Text.strip value in
  if bool_decide (name = []) then name
  else if bool_decide ("/"%char ∉ name) then str "models/" ++ name
  else name.



(** [s.endswith(suffix)] *)
Definition ends_with (suffix s : text) : bool :=
  bool_decide (length suffix ≤ length s
               ∧ drop (length s - length suffix) s = suffix).

(** The login form of [render_auth_page] once submitted: the identity and
    the admin flag it stores in the session, or [None] when it shows the
    error. *)
Definition submit_login (DEFAULT_PASSWORD ADMIN_EMAIL_DOMAIN : text)
    (email password : text) : option (text * bool) :=
  if bool_decide (password = DEFAULT_PASSWORD) && bool_decide (email ≠ [])
  then Some (Text.lower email,
             ends_with ADMIN_EMAIL_DOMAIN (Text.lower email))
  else None.

(** [log.get("error")] as a truth value. *)
Definition log_has_error (entry : LogEntry) : bool :=
  match log_error entry with
  | Some (_ :: _) => true
  | _ => false
  end.

(** The entries [render_admin_page] lists, in the order it lists them, for
    the two filters chosen. *)
Definition admin_rows (logs : list LogEntry) (filter_user filter_type : text)
  : list LogEntry :=
  let filtered_logs := logs in
  let filtered_logs :=
    if bool_decide (filter_user ≠ str "All")
    then filter (λ log, log_user_email log = filter_user) filtered_logs
    else filtered_logs in
  let filtered_logs :=
    if bool_decide (filter_type = str "Errors")
    then filter (λ log, log_has_error log = true) filtered_logs
    else if bool_decide (filter_type = str "Success")
    then filter (λ log, log_has_error log = false) filtered_logs
    else filtered_logs in
  reverse (drop (length filtered_logs - 50) filtered_logs).

(** A handle that may be handed to the model: it is not processing and
    was not rejected. *)
Definition ready (f : FileObj) : Prop :=
  state_is (str "PROCESSING") f = false
  ∧ state_is_not (str "ACTIVE") f = false.

(** Every handle in the upload cache is ready. *)
Definition cache_ready (w : World) : Prop :=
  ∀ key entry, cache_of w !! key = Some entry → ready (entry_file entry).

Definition is_send (c : Call) : bool :=
  match c with CallSend _ => true | _ => false end.

(** How many model calls a call history holds. *)
Definition count_sends (cs : list Call) : nat :=
  length (filter (λ c, is_send c = true) cs).

(** The four delimiter characters of LENDER_SPLIT_PATTERN. *)
Definition is_symbol (c : ascii) : bool :=
  bool_decide (c = ","%char) || bool_decide (c = "/"%char)
  || bool_decide (c = "&"%char) || bool_decide (c = "+"%char).

(** The ASCII letters and digits, in either case. *)
Definition is_ascii_alnum (c : ascii) : bool :=
  Text.in_range 48 57 c || Text.in_range 65 90 c || Text.in_range 97 122 c.

(** The ASCII characters that are neither letters nor digits: blanks,
    underscores, hyphens and the other marks and controls of U+0000..U+007F. *)
Definition is_ascii_mark (c : ascii) : bool :=
  Text.in_range 0 127 c && negb (is_ascii_alnum c).

(** What the [except] clauses show for an exception. *)
Definition failure_text (exc : Exn) : text :=
  match exn_class exc with
  | TimeoutError => str "File processing timed out: " ++ exn_msg exc
  | FileNotFoundError => exn_msg exc
  | _ => str "Something went wrong: " ++ exn_msg exc
  end.

(** What the two filters of the admin page ask of an entry. *)
Definition admin_filter (filter_user filter_type : text) (log : LogEntry)
  : Prop :=
  (filter_user ≠ str "All" → log_user_email log = filter_user)
  ∧ (filter_type = str "Errors" → log_has_error log = true)
  ∧ (filter_type = str "Success" → log_has_error log = false).

Global Instance admin_filter_dec u t log : Decision (admin_filter u t log).
Proof. unfold admin_filter. apply _. Defined.

(** The exception of a query that fails one of the four checks, which are
    made in this order: lenders, question, files, model. *)
Definition check_failure (index : gmap text Path) (lenders : list text)
    (question : text) : Exn :=
  let missing := filter (λ l, ¬ resolves index l) lenders in
  if bool_decide (lenders = []) then no_lenders_error
  else if bool_decide (question = []) then no_question_error
  else if bool_decide (missing ≠ []) then missing_files_error missing
  else no_model_error.

(** ** Sample inputs *)
Module Sample.

Definition file (state : option FileState) : FileObj :=
  mkFile (Some (str "files/abc")) (Some (str "acme.pdf")) state.

Definition processing : FileObj := file (Some (mkState true (str "PROCESSING"))).
Definition active : FileObj := file (Some (mkState true (str "ACTIVE"))).
Definition failed : FileObj := file (Some (mkState true (str "FAILED"))).
Definition unspecified : FileObj :=
  file (Some (mkState false (str "STATE_UNSPECIFIED"))).
Definition stateless : FileObj := file None.

(** A provider that answers every upload and every poll with [f] and every
    message with [answer]. *)
Definition constant_provider (f : FileObj) (answer : option text) : Provider := {|
  upload_file _ _ _ := mkReply (inr f) 1;
  get_file _ _ _ := mkReply (inr f) 0;
  send_message _ _ _ := mkReply (inr answer) 3;
|}.

(** A directory [pdfs] in which two PDF files share the key [bc]. *)
Definition fs : FileSystem := {|
  fs_listdir p :=
    if bool_decide (p = str "pdfs")
    then Some [str "b_c.pdf"; str "notes.txt"; str "B C.pdf"]
    else None;
  fs_resolve p := str "/srv/" ++ p;
  fs_mtime p := inr 7%Z;
|}.

Definition fresh_session : Session :=
  mkSession None None None [] (str "secret") (str "models/gemini").

Definition world : World := mkWorld 1000 [] fs fresh_session [].

Definition pdf : Path := str "pdfs/b_c.pdf".

(** [world] after a first upload of [pdf] that the provider accepts. *)
Definition uploaded : World :=
  (upload_pdf_with_cache (constant_provider active None) pdf world).2.

(** The same file system after [pdf] was touched. *)
Definition touched_fs : FileSystem := {|
  fs_listdir := fs_listdir fs;
  fs_resolve := fs_resolve fs;
  fs_mtime p := inr 8%Z;
|}.

(** A provider that accepts every file and answers with blanks only. *)
Definition blank_provider : Provider :=
  constant_provider active (Some (str "  ")).

Definition system_prompt : text := str "You are LEX.".

Definition broker : text := str "broker@example.com".

Definition index : gmap text Path := index_lender_pdfs fs (str "pdfs").

Definition touched : World :=
  mkWorld 2000 (calls uploaded) touched_fs (session uploaded) [].

End Sample.

(** ** More sample inputs *)
Module Cases.

(** A wait of three time units for a handle that stays in processing. *)
Definition slow_wait : (Exn + FileObj) * World :=
  wait_for_file_active (Sample.constant_provider Sample.processing None)
    Sample.processing 3 Sample.world.

(** A wait for a handle that is ready at the first poll. *)
Definition quick_wait : (Exn + FileObj) * World :=
  wait_for_file_active (Sample.constant_provider Sample.active None)
    Sample.processing 120 Sample.world.

(** A provider that accepts every file and answers every message with
    [Yes.] between blanks. *)
Definition yes_provider : Provider :=
  Sample.constant_provider Sample.active (Some (str " Yes. ")).

(** A query for the lender [B-C], and its run with [yes_provider]. *)
Definition question : text := str "rates?".

Definition answered : (Exn + text) * World :=
  answer_with_gemini yes_provider Sample.system_prompt question [Sample.pdf]
    (str "models/gemini") Sample.broker Sample.world.

(** A provider whose uploads fail with an exception that has no message. *)
Definition silent_provider : Provider := {|
  upload_file _ _ _ := mkReply (inl (mkExn OtherError [])) 1;
  get_file _ _ _ := mkReply (inr Sample.active) 0;
  send_message _ _ _ := mkReply (inr None) 3;
|}.

Definition prompt : text := str "(B-C) rates?".

End Cases.

(** * Properties *)

(** ** The lender resolver: [find_lender_files] *)
Section Resolve.

Implicit Types (lenders : list text) (index : gmap text Path).

Lemma find_lender_files_acc index lenders found missing :
  foldl (λ '(found, missing) lender,
           let key := normalize_lender_key lender in
           match index !! key with
           | Some path => (found ++ [(lender, path)], missing)
           | None => (found, missing ++ [lender])
           end) (found, missing) lenders
  = (found ++ omap (λ l, pair l <$> index !! normalize_lender_key l) lenders,
     missing ++ filter (λ l, ¬ resolves index l) lenders).
Proof.
  revert found missing.
  induction lenders as [|l lenders IH]; intros found missing; simpl.
  - by rewrite !app_nil_r.
  - unfold resolves at 1.
    destruct (index !! normalize_lender_key l) as [path|] eqn:Hl; simpl.
    + rewrite IH, filter_cons_False, <- app_assoc; [done|].
      intros Hn. apply Hn. unfold resolves. by rewrite Hl.
    + rewrite IH, filter_cons_True, <- app_assoc; [done|].
      unfold resolves. rewrite Hl. by intros [? ?].
Qed.

Lemma find_lender_files_eq index lenders :
  find_lender_files lenders index
  = (omap (λ l, pair l <$> index !! normalize_lender_key l) lenders,
     filter (λ l, ¬ resolves index l) lenders).
Proof. unfold find_lender_files. by rewrite find_lender_files_acc. Qed.

Lemma matched_names index lenders :
  (omap (λ l, pair l <$> index !! normalize_lender_key l) lenders).*1
  = filter (resolves index) lenders.
Proof.
  induction lenders as [|l lenders IH]; [done|]. csimpl.
  destruct (index !! normalize_lender_key l) as [path|] eqn:Hl; csimpl.
  - rewrite filter_cons_True by (unfold resolves; rewrite Hl; eauto).
    by rewrite IH.
  - rewrite filter_cons_False; [done|].
    unfold resolves. rewrite Hl. by intros [? ?].
Qed.

(** C6. [find_lender_files] splits the tokens in two: the tokens whose
    normalized form is a key of the index, each paired with the path the
    index gives it, and the other tokens; both lists keep the order of the
    input, and together they hold every token exactly once. *)
Theorem find_lender_files_partition index lenders :
  ∃ matched missing,
    find_lender_files lenders index = (matched, missing)
    ∧ matched.*1 = filter (resolves index) lenders
    ∧ (∀ lender path, (lender, path) ∈ matched →
         index !! normalize_lender_key lender = Some path)
    ∧ missing = filter (λ l, ¬ resolves index l) lenders
    ∧ sublist matched.*1 lenders ∧ sublist missing lenders
    ∧ matched.*1 ++ missing ≡ₚ lenders
    ∧ length matched + length missing = length lenders.
Proof.
  exists (omap (λ l, pair l <$> index !! normalize_lender_key l) lenders),
         (filter (λ l, ¬ resolves index l) lenders).
  split; [apply find_lender_files_eq|].
  rewrite matched_names.
  split_and!; try done.
  - intros lender path [l [Hin Hl]]%list_elem_of_omap.
    destruct (index !! normalize_lender_key l) eqn:E; by simplify_eq/=.
  - apply sublist_filter.
  - apply sublist_filter.
  - apply filter_app_complement.
  - rewrite <- (length_fmap fst (omap _ lenders)), matched_names.
    by rewrite <- length_app, filter_app_complement.
Qed.

End Resolve.

(** ** The lender index: [index_lender_pdfs] *)
Section Index.

Global Instance name_le_total : Total PathOps.name_le.
Proof. intros a b. unfold PathOps.name_le. apply String.le_total. Qed.

Global Instance name_le_refl : Reflexive PathOps.name_le.
Proof. intros a. by destruct (total PathOps.name_le a a). Qed.

Global Instance name_le_trans : Transitive PathOps.name_le.
Proof. intros a b c. unfold PathOps.name_le. apply transitivity. Qed.

Lemma name_le_antisym a b :
  PathOps.name_le a b → PathOps.name_le b a → a = b.
Proof.
  unfold PathOps.name_le. intros Hab Hba.
  pose proof (anti_symm String.le _ _ Hab Hba) as Heq.
  apply (f_equal list_ascii_of_string) in Heq.
  by rewrite !list_ascii_of_string_of_list_ascii in Heq.
Qed.

(** A dictionary filled in a loop holds, for each key, the value of the
    last item that has this key. *)
Lemma fold_insert_lookup {A} (k : A → text) (v : A → Path)
    (l : list A) (m0 : gmap text Path) key :
  foldl (λ m x, <[k x := v x]> m) m0 l !! key
  = match last (filter (λ x, k x = key) l) with
    | Some x => Some (v x)
    | None => m0 !! key
    end.
Proof.
  induction l as [|x l IH] using rev_ind; [done|].
  rewrite foldl_snoc, filter_app.
  destruct (decide (k x = key)) as [Hk|Hk].
  - rewrite filter_cons_True, filter_nil by done.
    rewrite last_snoc. subst key. apply lookup_insert_eq.
  - rewrite filter_cons_False, filter_nil, app_nil_r by done.
    by rewrite lookup_insert_ne.
Qed.

Lemma last_filter_Some {A} (P : A → Prop) `{!∀ x, Decision (P x)}
    (l : list A) x :
  last (filter P l) = Some x →
  ∃ l1 l2, l = l1 ++ x :: l2 ∧ P x ∧ Forall (λ y, ¬ P y) l2.
Proof.
  induction l as [|y l IH] using rev_ind; [done|].
  rewrite filter_app. destruct (decide (P y)) as [Hy|Hy].
  - rewrite filter_cons_True, filter_nil, last_snoc by done.
    intros [= ->]. exists l, []. by repeat split.
  - rewrite filter_cons_False, filter_nil, app_nil_r by done.
    intros (l1 & l2 & -> & Hx & Hl2)%IH.
    exists l1, (l2 ++ [y]). rewrite <- app_assoc. split; [done|].
    split; [done|]. apply Forall_app. split; [done|]. by constructor.
Qed.

Lemma last_filter_None {A} (P : A → Prop) `{!∀ x, Decision (P x)}
    (l : list A) x :
  last (filter P l) = None → x ∈ l → ¬ P x.
Proof.
  intros Hlast Hin HP.
  assert (x ∈ filter P l) as Hx by (by apply list_elem_of_filter).
  destruct (filter P l) as [|z f] using rev_ind; [by apply elem_of_nil in Hx|].
  by rewrite last_snoc in Hlast.
Qed.

(** C7. [index_lender_pdfs] gives the empty mapping for a directory that
    does not exist.  Otherwise a key maps to a path exactly when the path
    is that of a PDF entry of the directory whose stem normalizes to the
    key and whose name is last, in the sorted order of names, among the PDF
    entries with this key: when several files share a key, the last in
    sorted order wins. *)
Theorem index_lender_pdfs_last_sorted_wins (fs : FileSystem) (pdf_dir : Path) :
  (fs_listdir fs pdf_dir = None → index_lender_pdfs fs pdf_dir = ∅)
  ∧ (∀ entries key path,
       fs_listdir fs pdf_dir = Some entries →
       index_lender_pdfs fs pdf_dir !! key = Some path ↔
       ∃ n, n ∈ entries ∧ PathOps.is_pdf n = true
            ∧ path = PathOps.joinpath pdf_dir n
            ∧ normalize_lender_key (PathOps.stem path) = key
            ∧ ∀ n', n' ∈ entries → PathOps.is_pdf n' = true →
                    normalize_lender_key
                      (PathOps.stem (PathOps.joinpath pdf_dir n')) = key →
                    PathOps.name_le n' n).
Proof.
  unfold index_lender_pdfs. split.
  { by intros ->. }
  intros entries key path ->. unfold PathOps.sorted_glob_pdf.
  rewrite foldl_fmap.
  rewrite (fold_insert_lookup
             (λ n, normalize_lender_key (PathOps.stem (PathOps.joinpath pdf_dir n)))
             (PathOps.joinpath pdf_dir)).
  set (pdfs := filter (λ n, PathOps.is_pdf n = true) entries).
  set (names := merge_sort PathOps.name_le pdfs).
  assert (StronglySorted PathOps.name_le names) as Hsorted
    by (apply StronglySorted_merge_sort; apply _).
  assert (∀ n, n ∈ names ↔ n ∈ entries ∧ PathOps.is_pdf n = true) as Hin.
  { intros n. unfold names. rewrite merge_sort_Permutation.
    unfold pdfs. rewrite list_elem_of_filter. tauto. }
  set (P := λ n, normalize_lender_key
                   (PathOps.stem (PathOps.joinpath pdf_dir n)) = key).
  assert (∀ n, last (filter P names) = Some n →
               n ∈ names ∧ P n ∧ ∀ n', n' ∈ names → P n' → PathOps.name_le n' n)
    as Hlast.
  { intros n (l1 & l2 & Hnames & Hn & Hl2)%last_filter_Some.
    split; [rewrite Hnames; apply elem_of_app; right; by left|].
    split; [done|].
    intros n' Hn' HP'. rewrite Hnames in Hn', Hsorted.
    apply elem_of_app in Hn' as [Hn'|Hn'].
    - eapply StronglySorted_app_1_elem_of; [done..|]. by left.
    - apply elem_of_cons in Hn' as [->|Hn']; [reflexivity|].
      rewrite Forall_forall in Hl2. by destruct (Hl2 n'). }
  split.
  - destruct (last (filter P names)) as [n|] eqn:Hl; [|done].
    intros [= <-]. destruct (Hlast n eq_refl) as (Hn & HPn & Hmax).
    apply Hin in Hn as [??]. exists n. split_and!; try done.
    intros n' ???. apply Hmax; [by apply Hin|done].
  - intros (n & Hn & Hpdf & -> & Hkey & Hmax).
    destruct (last (filter P names)) as [n0|] eqn:Hl.
    + destruct (Hlast n0 eq_refl) as (Hn0 & HPn0 & Hmax0).
      f_equal. f_equal. apply name_le_antisym.
      * apply Hmax; [by apply Hin..|done].
      * apply Hmax0; [by apply Hin|done].
    + exfalso. eapply (last_filter_None P names n); [done| |done].
      by apply Hin.
Qed.

End Index.

Lemma index_lender_pdfs_last_sorted_wins_witness :
  index_lender_pdfs Sample.fs (str "nowhere") = ∅
  ∧ index_lender_pdfs Sample.fs (str "pdfs") !! str "bc"
    = Some (str "pdfs/b_c.pdf").
Proof.
  split.
  - apply (proj1 (index_lender_pdfs_last_sorted_wins Sample.fs (str "nowhere"))).
    reflexivity.
  - apply (proj2 (index_lender_pdfs_last_sorted_wins Sample.fs (str "pdfs"))
             [str "b_c.pdf"; str "notes.txt"; str "B C.pdf"]
             (str "bc") (str "pdfs/b_c.pdf") eq_refl).
    exists (str "b_c.pdf").
    split; [apply list_elem_of_In; simpl; tauto|].
    do 3 (split; [reflexivity|]).
    intros n' Hn' Hpdf _. apply list_elem_of_In in Hn'. simpl in Hn'.
    destruct Hn' as [<-|[<-|[<-|[]]]];
      first [discriminate Hpdf | vm_compute; exact I].
Defined.

(** ** The readiness wait: [wait_for_file_active] *)
Section Wait.

Variable provider : Provider.

Ltac run_monad :=
  unfold Monad.bind, Monad.ret, Monad.raise, Monad.gets, Monad.modify,
    Monad.set_session, time_time, time_sleep, attr_name, genai_get_file,
    genai_upload_file, chat_send_message, provider_call in *;
  simpl in *.

Global Instance polled_refl : Reflexive polled.
Proof.
  intros w. unfold polled. split; [lia|]. split; [|done].
  exists []. by rewrite app_nil_r.
Qed.

Global Instance polled_trans : Transitive polled.
Proof.
  intros w1 w2 w3 (Ht1 & [n1 Hc1] & Hf1 & Hs1 & Hp1)
    (Ht2 & [n2 Hc2] & Hf2 & Hs2 & Hp2).
  unfold polled. split; [lia|]. split; [|by rewrite Hf2, Hs2, Hp2].
  exists (n1 ++ n2). by rewrite Hc2, Hc1, fmap_app, app_assoc.
Qed.

(** A handle that is not processing ends the loop at once. *)
Lemma wait_loop_done rounds start timeout current w :
  state_is (str "PROCESSING") current = false →
  wait_loop provider rounds start timeout current w = (inr current, w).
Proof. intros H. destruct rounds; simpl; by rewrite H. Qed.

(** The loop only polls. *)
Lemma wait_loop_polled rounds start timeout current w r w' :
  wait_loop provider rounds start timeout current w = (r, w') → polled w w'.
Proof.
  revert current w. induction rounds as [|rounds IH]; intros current w; simpl.
  - destruct (state_is _ current); run_monad.
    + case_bool_decide; intros [= <- <-]; reflexivity.
    + intros [= <- <-]; reflexivity.
  - destruct (state_is _ current); run_monad;
      [|intros [= <- <-]; reflexivity].
    case_bool_decide; [intros [= <- <-]; reflexivity|].
    destruct (file_name current) as [n|]; simpl;
      [|intros [= <- <-]; unfold polled; simpl; split; [lia|];
        split; [|done]; exists []; by rewrite app_nil_r].
    destruct (reply (get_file provider (calls w) (now w + 2) n)) as [e|next] eqn:Hr.
    + intros [= <- <-]. unfold polled; simpl. split; [lia|].
      split; [|done]. by exists [n].
    + intros Hw%IH. etrans; [|exact Hw].
      unfold polled; simpl. split; [lia|]. split; [|done]. by exists [n].
Qed.

(** More rounds than needed change nothing: once twice the number of
    rounds left exceeds what is left of the timeout, the loop ends by itself. *)
Lemma wait_loop_rounds n m start timeout current w :
  (timeout < now w - start + 2 * Z.of_nat n)%Z → n ≤ m →
  wait_loop provider m start timeout current w
  = wait_loop provider n start timeout current w.
Proof.
  revert m current w. induction n as [|n IH]; intros m current w Hn Hm.
  - destruct m as [|m]; [done|]. simpl.
    destruct (state_is _ current); [|done]. run_monad.
    rewrite bool_decide_eq_true_2 by lia. done.
  - destruct m as [|m]; [lia|]. simpl.
    destruct (state_is _ current); [|done]. run_monad.
    case_bool_decide; [done|].
    destruct (file_name current) as [nm|]; simpl; [|done].
    destruct (reply (get_file provider (calls w) (now w + 2) nm)); [done|].
    apply IH; simpl; lia.
Qed.

Lemma wait_rounds_enough timeout w :
  (timeout < now w - now w + 2 * Z.of_nat (wait_rounds timeout))%Z.
Proof.
  unfold wait_rounds. destruct (Z.le_gt_cases 0 timeout) as [H|H].
  - rewrite Nat2Z.inj_succ, Z2Nat.id by (by apply Z.div_pos).
    pose proof (Z.mod_pos_bound timeout 2). pose proof (Z.div_mod timeout 2). lia.
  - lia.
Qed.

(** [wait_for_file_active] with any larger number of rounds. *)
Lemma wait_loop_budget m timeout current w :
  wait_rounds timeout ≤ m →
  wait_loop provider m (now w) timeout current w
  = wait_loop provider (wait_rounds timeout) (now w) timeout current w.
Proof. intros. apply wait_loop_rounds; [apply wait_rounds_enough|done]. Qed.

Lemma wait_for_file_active_polled file_obj timeout w r w' :
  wait_for_file_active provider file_obj timeout w = (r, w') → polled w w'.
Proof.
  unfold wait_for_file_active, Monad.bind, time_time, Monad.gets.
  destruct (wait_loop provider _ _ _ _ w) as [[e|c] w1] eqn:Hl.
  - intros [= <- <-]. by eapply wait_loop_polled.
  - destruct (state_is_not _ c); intros [= <- <-]; by eapply wait_loop_polled.
Qed.

(** The end of [wait_for_file_active], after the loop. *)
Lemma wait_for_file_active_eq file_obj timeout w :
  wait_for_file_active provider file_obj timeout w
  = match wait_loop provider (wait_rounds timeout) (now w) timeout file_obj w
    with
    | (inr current, w') =>
        if state_is_not (str "ACTIVE") current
        then (inl (rejected_error current), w') else (inr current, w')
    | (inl exc, w') => (inl exc, w')
    end.
Proof.
  unfold wait_for_file_active, Monad.bind, time_time, Monad.gets.
  destruct (wait_loop provider _ _ _ _ w) as [[e|c] w1]; [done|].
  by destruct (state_is_not _ c).
Qed.

Lemma polling_of_wait_loop rounds start timeout current w :
  (timeout < now w - start + 2 * Z.of_nat rounds)%Z →
  match wait_loop provider rounds start timeout current w with
  | (inr last, w') =>
      if state_is_not (str "ACTIVE") last
      then polling provider start timeout current w
             (inl (rejected_error last)) w'
      else polling provider start timeout current w (inr last) w'
  | (inl exc, w') => polling provider start timeout current w (inl exc) w'
  end.
Proof.
  revert current w.
  induction rounds as [|rounds IH]; intros current w Hrounds; simpl;
    destruct (state_is (str "PROCESSING") current) eqn:Hp; run_monad.
  - rewrite bool_decide_eq_true_2 by lia. apply polling_timed_out; [done|lia].
  - destruct (state_is_not (str "ACTIVE") current) eqn:Ha; by constructor.
  - case_bool_decide as Ht; [by apply polling_timed_out|].
    destruct (file_name current) as [n|] eqn:Hn; simpl.
    2:{ apply polling_unnamed; [done|lia|done]. }
    destruct (reply (get_file provider (calls w) (now w + 2) n))
      as [e|next] eqn:Hr.
    { apply (polling_poll_raised _ _ _ _ _ n); [done|lia|done..]. }
    specialize (IH next (after_poll provider w n)).
    unfold after_poll in IH at 1. simpl in IH.
    specialize (IH ltac:(lia)). fold (after_poll provider w n).
    destruct (wait_loop provider rounds start timeout next
                (after_poll provider w n)) as [[e|last] w'].
    + eapply polling_again; [done|lia|done..].
    + destruct (state_is_not (str "ACTIVE") last);
        (eapply polling_again; [done|lia|done..]).
  - destruct (state_is_not (str "ACTIVE") current) eqn:Ha; by constructor.
Qed.

Lemma wait_loop_of_polling start timeout current w r w' :
  polling provider start timeout current w r w' →
  ∀ rounds,
    (timeout < now w - start + 2 * Z.of_nat rounds)%Z →
    match wait_loop provider rounds start timeout current w with
    | (inr last, w1) =>
        (if state_is_not (str "ACTIVE") last
         then (inl (rejected_error last), w1) else (inr last, w1))
    | (inl exc, w1) => (inl exc, w1)
    end = (r, w').
Proof.
  induction 1 as [current w Hp Ha|current w Hp Ha|current w Hp Ht
                 |current w Hp Ht Hn|current w n e Hp Ht Hn Hr
                 |current w n next r w' Hp Ht Hn Hr Hrest IH];
    intros rounds Hrounds.
  - rewrite wait_loop_done by done. by rewrite Ha.
  - rewrite wait_loop_done by done. by rewrite Ha.
  - destruct rounds; simpl; rewrite Hp; run_monad;
      by rewrite bool_decide_eq_true_2 by lia.
  - destruct rounds as [|rounds]; [lia|]. simpl. rewrite Hp. run_monad.
    rewrite bool_decide_eq_false_2 by lia. by rewrite Hn.
  - destruct rounds as [|rounds]; [lia|]. simpl. rewrite Hp. run_monad.
    rewrite bool_decide_eq_false_2 by lia. rewrite Hn. simpl.
    by rewrite Hr.
  - destruct rounds as [|rounds]; [lia|]. simpl. rewrite Hp. run_monad.
    rewrite bool_decide_eq_false_2 by lia. rewrite Hn. simpl.
    rewrite Hr. apply (IH rounds). unfold after_poll. simpl. lia.
Qed.

(** [wait_for_file_active] is the wait of the description. *)
Lemma wait_for_file_active_polling file_obj timeout w r w' :
  wait_for_file_active provider file_obj timeout w = (r, w')
  ↔ polling provider (now w) timeout file_obj w r w'.
Proof.
  rewrite wait_for_file_active_eq. split.
  - pose proof (polling_of_wait_loop (wait_rounds timeout) (now w) timeout
                  file_obj w (wait_rounds_enough timeout w)) as Hrun.
    destruct (wait_loop provider _ _ _ _ w) as [[e|last] w1].
    + by intros [= <- <-].
    + destruct (state_is_not _ last); by intros [= <- <-].
  - intros Hpoll.
    apply (wait_loop_of_polling _ _ _ _ _ _ Hpoll (wait_rounds timeout)
             (wait_rounds_enough timeout w)).
Qed.

(** A handle that every poll made in time reports as processing is timed
    out, once more than [timeout] has elapsed. *)
Lemma wait_loop_times_out_late rounds start timeout current w :
  processing_until provider (start + timeout + 2) →
  state_is (str "PROCESSING") current = true → is_Some (file_name current) →
  (timeout < now w - start + 2 * Z.of_nat rounds)%Z →
  ∃ last w', wait_loop provider rounds start timeout current w
             = (inl (timed_out_error last), w')
             ∧ state_is (str "PROCESSING") last = true
             ∧ (timeout < now w' - start)%Z.
Proof.
  intros Hall. revert current w.
  induction rounds as [|rounds IH]; intros current w Hp [n Hn] Ht; simpl;
    rewrite Hp; run_monad.
  - rewrite bool_decide_eq_true_2 by lia. exists current, w.
    split; [done|]. split; [done|lia].
  - case_bool_decide.
    { exists current, w. split; [done|]. split; [done|lia]. }
    rewrite Hn. simpl.
    destruct (Hall (calls w) (now w + 2)%Z n) as (next & -> & Hp' & Hn');
      [lia|].
    apply IH; simpl; [done..|lia].
Qed.

End Wait.

(** C9. A file object without a [state] attribute, or with a falsy one, is
    returned at once as a success: no poll is made, no time passes and no
    error is raised. *)
Theorem wait_without_state_returns (provider : Provider)
    (file_obj : FileObj) (timeout : Z) (w : World) :
  (file_state file_obj = None
   ∨ ∃ st, file_state file_obj = Some st ∧ state_truthy st = false) →
  wait_for_file_active provider file_obj timeout w = (inr file_obj, w).
Proof.
  intros Hst.
  assert (∀ n, state_is n file_obj = false ∧ state_is_not n file_obj = false)
    as Hn.
  { intros n. unfold state_is, state_is_not.
    destruct Hst as [->|(st & -> & ->)]; done. }
  unfold wait_for_file_active, Monad.bind, time_time, Monad.gets.
  rewrite wait_loop_done by apply Hn.
  by rewrite (proj2 (Hn _)).
Qed.

Lemma wait_without_state_returns_witness :
  wait_for_file_active (Sample.constant_provider Sample.processing None)
    Sample.stateless 120 Sample.world = (inr Sample.stateless, Sample.world)
  ∧ wait_for_file_active (Sample.constant_provider Sample.processing None)
      Sample.unspecified 120 Sample.world
    = (inr Sample.unspecified, Sample.world).
Proof.
  split.
  - apply wait_without_state_returns. left. reflexivity.
  - apply wait_without_state_returns. right.
    exists (mkState false (str "STATE_UNSPECIFIED")). split; reflexivity.
Defined.

(** C2, as the code has it.  The wait is the polling described by
    [polling]: while the state of the handle is truthy and named PROCESSING
    it sleeps two time units and asks the provider for the handle again,
    and
    (1) it fails with a [TimeoutError] when the handle is still processing
        once the elapsed time is strictly greater than [timeout] (120 by
        default), as happens, after more than [timeout], when every status
        report asked for within [timeout + 2] time units of the start says
        processing; a handle that is processing when exactly [timeout] has
        elapsed is polled again, and with a negative [timeout] a processing
        handle is timed out at once;
    (2) it fails with a [RuntimeError] when the state that ends the polling,
        whether that of the handle given or that of a handle a poll
        returned, is truthy and named anything but ACTIVE, while a state
        that is missing or falsy is a success;
    (3) it returns a handle that is already ACTIVE at once, with no poll. *)
Theorem wait_for_file_active_outcomes (provider : Provider)
    (file_obj : FileObj) (timeout : Z) (w : World) :
  default_timeout = 120%Z
  ∧ (∀ r w',
       wait_for_file_active provider file_obj timeout w = (r, w')
       ↔ polling provider (now w) timeout file_obj w r w')
  ∧ (processing_until provider (now w + timeout + 2) →
     state_is (str "PROCESSING") file_obj = true →
     is_Some (file_name file_obj) →
     ∃ last w', wait_for_file_active provider file_obj timeout w
                = (inl (timed_out_error last), w')
                ∧ exn_class (timed_out_error last) = TimeoutError
                ∧ state_is (str "PROCESSING") last = true
                ∧ (timeout < now w' - now w)%Z)
  ∧ (∀ name next,
       state_is (str "PROCESSING") file_obj = true →
       file_name file_obj = Some name →
       (0 ≤ timeout)%Z →
       reply (get_file provider (calls w) (now w + 2) name) = inr next →
       state_is (str "PROCESSING") next = false →
       wait_for_file_active provider file_obj timeout w
       = (if state_is_not (str "ACTIVE") next
          then inl (rejected_error next) else inr next,
          after_poll provider w name)
       ∧ exn_class (rejected_error next) = RuntimeError)
  ∧ (state_is (str "PROCESSING") file_obj = true → (timeout < 0)%Z →
     wait_for_file_active provider file_obj timeout w
     = (inl (timed_out_error file_obj), w))
  ∧ (∀ st, file_state file_obj = Some st → state_truthy st = true →
       state_name st ≠ str "PROCESSING" → state_name st ≠ str "ACTIVE" →
       wait_for_file_active provider file_obj timeout w
       = (inl (rejected_error file_obj), w))
  ∧ (file_state file_obj = None
     ∨ (∃ st, file_state file_obj = Some st ∧ state_truthy st = false) →
     wait_for_file_active provider file_obj timeout w = (inr file_obj, w))
  ∧ (state_is (str "ACTIVE") file_obj = true →
     wait_for_file_active provider file_obj timeout w = (inr file_obj, w)).
Proof.
  split; [done|]. split_and!.
  - intros r w'. apply wait_for_file_active_polling.
  - intros Hall Hp Hn.
    destruct (wait_loop_times_out_late provider (wait_rounds timeout) (now w)
                timeout file_obj w Hall Hp Hn (wait_rounds_enough timeout w))
      as (last & w' & Hl & Hlast & Hlate).
    exists last, w'. rewrite wait_for_file_active_eq, Hl. by split_and!.
  - intros name next Hp Hn Ht Hr Hnext. split; [|done].
    apply wait_for_file_active_polling.
    eapply polling_again; [done|lia|done..|].
    destruct (state_is_not (str "ACTIVE") next) eqn:Ha; by constructor.
  - intros Hp Ht. apply wait_for_file_active_polling.
    apply polling_timed_out; [done|lia].
  - intros st Hst Ht Hp Ha. apply wait_for_file_active_polling.
    apply polling_rejected.
    + unfold state_is. rewrite Hst, Ht. by rewrite bool_decide_eq_false_2.
    + unfold state_is_not. rewrite Hst, Ht. by rewrite bool_decide_eq_true_2.
  - intros Hst. apply wait_for_file_active_polling.
    apply polling_success; unfold state_is, state_is_not;
      by destruct Hst as [->|(st & -> & ->)].
  - intros Ha.
    unfold state_is in Ha.
    destruct (file_state file_obj) as [st|] eqn:Hst; [|done].
    apply andb_prop in Ha as [Ht Hname]. apply bool_decide_eq_true in Hname.
    apply wait_for_file_active_polling. apply polling_success.
    + unfold state_is. rewrite Hst, Ht, Hname. by apply bool_decide_eq_false_2.
    + unfold state_is_not. rewrite Hst, Ht, Hname.
      by rewrite bool_decide_eq_false_2 by (by intros []).
Qed.

Lemma wait_for_file_active_outcomes_witness :
  (∃ last w',
     wait_for_file_active (Sample.constant_provider Sample.processing None)
       Sample.processing 120 Sample.world = (inl (timed_out_error last), w')
     ∧ exn_class (timed_out_error last) = TimeoutError
     ∧ state_is (str "PROCESSING") last = true
     ∧ (120 < now w' - now Sample.world)%Z)
  ∧ wait_for_file_active (Sample.constant_provider Sample.active None)
      Sample.processing 0 Sample.world
    = (inr Sample.active,
       after_poll (Sample.constant_provider Sample.active None) Sample.world
         (str "files/abc"))
  ∧ wait_for_file_active (Sample.constant_provider Sample.failed None)
      Sample.processing 0 Sample.world
    = (inl (rejected_error Sample.failed),
       after_poll (Sample.constant_provider Sample.failed None) Sample.world
         (str "files/abc"))
  ∧ wait_for_file_active (Sample.constant_provider Sample.processing None)
      Sample.processing (-1) Sample.world
    = (inl (timed_out_error Sample.processing), Sample.world)
  ∧ wait_for_file_active (Sample.constant_provider Sample.processing None)
      Sample.failed 120 Sample.world
    = (inl (rejected_error Sample.failed), Sample.world)
  ∧ wait_for_file_active (Sample.constant_provider Sample.processing None)
      Sample.unspecified 120 Sample.world
    = (inr Sample.unspecified, Sample.world)
  ∧ wait_for_file_active (Sample.constant_provider Sample.processing None)
      Sample.active 120 Sample.world = (inr Sample.active, Sample.world).
Proof.
  split_and!.
  - destruct (wait_for_file_active_outcomes
                (Sample.constant_provider Sample.processing None)
                Sample.processing 120 Sample.world)
      as (_ & _ & Htimeout & _).
    apply Htimeout.
    + intros history time name _. exists Sample.processing.
      split; [reflexivity|]. split; [reflexivity|]. by eexists.
    + reflexivity.
    + by eexists.
  - destruct (wait_for_file_active_outcomes
                (Sample.constant_provider Sample.active None)
                Sample.processing 0 Sample.world)
      as (_ & _ & _ & Hpoll & _).
    apply (Hpoll (str "files/abc") Sample.active); [reflexivity..|lia| |];
      reflexivity.
  - destruct (wait_for_file_active_outcomes
                (Sample.constant_provider Sample.failed None)
                Sample.processing 0 Sample.world)
      as (_ & _ & _ & Hpoll & _).
    apply (Hpoll (str "files/abc") Sample.failed); [reflexivity..|lia| |];
      reflexivity.
  - destruct (wait_for_file_active_outcomes
                (Sample.constant_provider Sample.processing None)
                Sample.processing (-1) Sample.world)
      as (_ & _ & _ & _ & Hnegative & _).
    apply Hnegative; [reflexivity|lia].
  - destruct (wait_for_file_active_outcomes
                (Sample.constant_provider Sample.processing None)
                Sample.failed 120 Sample.world)
      as (_ & _ & _ & _ & _ & Hrejected & _).
    apply (Hrejected (mkState true (str "FAILED")));
      [reflexivity|reflexivity|discriminate|discriminate].
  - destruct (wait_for_file_active_outcomes
                (Sample.constant_provider Sample.processing None)
                Sample.unspecified 120 Sample.world)
      as (_ & _ & _ & _ & _ & _ & Hfalsy & _).
    apply Hfalsy. right.
    exists (mkState false (str "STATE_UNSPECIFIED")). split; reflexivity.
  - destruct (wait_for_file_active_outcomes
                (Sample.constant_provider Sample.processing None)
                Sample.active 120 Sample.world)
      as (_ & _ & _ & _ & _ & _ & _ & Hactive).
    apply Hactive. reflexivity.
Defined.

(** C2 as stated does not hold for every state other than ACTIVE: a handle
    whose state is the falsy STATE_UNSPECIFIED is in a state that is neither
    PROCESSING nor ACTIVE, and it is returned as a success. *)
Lemma wait_for_file_active_outcomes_counterexample :
  ∃ st, file_state Sample.unspecified = Some st
        ∧ state_name st ≠ str "PROCESSING" ∧ state_name st ≠ str "ACTIVE"
        ∧ wait_for_file_active (Sample.constant_provider Sample.processing None)
            Sample.unspecified default_timeout Sample.world
          = (inr Sample.unspecified, Sample.world).
Proof.
  exists (mkState false (str "STATE_UNSPECIFIED")).
  split; [reflexivity|]. split; [discriminate|]. split; [discriminate|].
  vm_compute. reflexivity.
Qed.

(** ** The upload cache: [upload_pdf_with_cache] *)
Section Upload.

Variable provider : Provider.

Lemma count_uploads_polls cs names :
  count_uploads (cs ++ (CallGetFile <$> names)) = count_uploads cs.
Proof.
  unfold count_uploads. rewrite filter_app, length_app.
  assert (filter (λ c, is_upload c = true) (CallGetFile <$> names) = []) as ->;
    [|simpl; lia].
  induction names as [|n names IH]; [done|]. csimpl.
  by rewrite filter_cons_False.
Qed.

Lemma count_uploads_upload cs path :
  count_uploads (cs ++ [CallUpload path]) = S (count_uploads cs).
Proof.
  unfold count_uploads. rewrite filter_app, length_app.
  rewrite filter_cons_True by done. simpl. lia.
Qed.

(** The world in which the cache exists. *)
Lemma ensure_upload_cache_spec w :
  ∃ w0, ensure_upload_cache w = (inr tt, w0)
        ∧ now w0 = now w ∧ calls w0 = calls w ∧ fs w0 = fs w
        ∧ shown w0 = shown w ∧ cache_of w0 = cache_of w
        ∧ (is_Some (upload_cache (session w)) → w0 = w).
Proof.
  unfold ensure_upload_cache, Monad.set_session, Monad.modify, cache_of.
  eexists. split; [done|]. simpl.
  destruct w as [t cs f [c k l m a sm] sh]; simpl.
  destruct c; simpl; split_and!; try done; by intros [? ?].
Qed.

(** A call that finds a good entry returns its file and does nothing
    else. *)
Lemma upload_hit pdf_path w mtime file :
  fs_mtime (fs w) pdf_path = inr mtime →
  cache_hit (cache_of w !! fs_resolve (fs w) pdf_path) mtime = Some file →
  upload_pdf_with_cache provider pdf_path w = (inr file, w).
Proof.
  intros Hm Hhit.
  destruct (ensure_upload_cache_spec w) as (w0 & He & _ & _ & Hfs & _ & Hc & Hsame).
  assert (w0 = w) as ->.
  { apply Hsame. unfold cache_of in Hhit.
    destruct (upload_cache (session w)); [done|]. simpl in Hhit.
    by rewrite lookup_empty in Hhit. }
  unfold upload_pdf_with_cache, Monad.bind, Monad.gets, Monad.ret.
  rewrite He, Hm. fold (cache_of w). by rewrite Hhit.
Qed.

Lemma genai_upload_file_spec path w r w1 :
  genai_upload_file provider path w = (r, w1) →
  (now w ≤ now w1)%Z ∧ calls w1 = calls w ++ [CallUpload path]
  ∧ fs w1 = fs w ∧ session w1 = session w ∧ shown w1 = shown w.
Proof.
  unfold genai_upload_file, provider_call. intros [= <- <-]. simpl.
  split_and!; try done. lia.
Qed.

(** [cache[path_key] = entry] on a world. *)
Lemma cache_store_spec path_key entry w :
  ∃ w', cache_store path_key entry w = (inr tt, w')
        ∧ now w' = now w ∧ calls w' = calls w ∧ fs w' = fs w
        ∧ shown w' = shown w
        ∧ cache_of w' = <[path_key := entry]> (cache_of w).
Proof.
  unfold cache_store, Monad.set_session, Monad.modify, cache_of.
  eexists. split; [done|]. by simpl.
Qed.

(** A call that finds no good entry uploads, waits, and stores the file
    only once the wait has succeeded. *)
Lemma upload_miss pdf_path w mtime :
  fs_mtime (fs w) pdf_path = inr mtime →
  cache_hit (cache_of w !! fs_resolve (fs w) pdf_path) mtime = None →
  ∃ w0,
    ensure_upload_cache w = (inr tt, w0)
    ∧ upload_pdf_with_cache provider pdf_path w
      = match genai_upload_file provider pdf_path w0 with
        | (inl e, w1) => (inl e, w1)
        | (inr upload, w1) =>
            match wait_for_file_active provider upload default_timeout w1 with
            | (inl e, w2) => (inl e, w2)
            | (inr upload', w2) =>
                (inr upload',
                 (cache_store (fs_resolve (fs w) pdf_path)
                    (mkEntry upload' mtime) w2).2)
            end
        end.
Proof.
  intros Hm Hmiss.
  destruct (ensure_upload_cache_spec w)
    as (w0 & He & Hnow & Hcalls & Hfs & Hshown & Hc & Hsame).
  exists w0. split; [done|].
  unfold upload_pdf_with_cache, Monad.bind, Monad.gets, Monad.ret.
  rewrite He, Hfs, Hm. fold (cache_of w0). rewrite Hc, Hmiss.
  destruct (genai_upload_file provider pdf_path w0) as [[e|upload] w1]; [done|].
  destruct (wait_for_file_active provider upload default_timeout w1)
    as [[e|upload'] w2]; [done|].
  by destruct (cache_store_spec (fs_resolve (fs w) pdf_path)
                 (mkEntry upload' mtime) w2) as (w3 & -> & _).
Qed.

(** What a call that returns leaves behind. *)
Lemma upload_returns pdf_path w file w1 :
  upload_pdf_with_cache provider pdf_path w = (inr file, w1) →
  ∃ mtime,
    fs_mtime (fs w) pdf_path = inr mtime ∧ fs w1 = fs w
    ∧ cache_of w1 !! fs_resolve (fs w) pdf_path = Some (mkEntry file mtime)
    ∧ (cache_hit (cache_of w !! fs_resolve (fs w) pdf_path) mtime = None →
       count_uploads (calls w1) = S (count_uploads (calls w)))
    ∧ (is_Some (cache_hit (cache_of w !! fs_resolve (fs w) pdf_path) mtime) →
       w1 = w).
Proof.
  intros Hup.
  destruct (fs_mtime (fs w) pdf_path) as [exc|mtime] eqn:Hm.
  { destruct (ensure_upload_cache_spec w) as (w0 & He & _ & _ & Hfs & _).
    unfold upload_pdf_with_cache, Monad.bind, Monad.gets, Monad.raise in Hup.
    by rewrite He, Hfs, Hm in Hup. }
  exists mtime. split; [done|].
  destruct (cache_hit (cache_of w !! fs_resolve (fs w) pdf_path) mtime)
    as [hit|] eqn:Hhit.
  - rewrite (upload_hit _ _ _ _ Hm Hhit) in Hup. injection Hup as <- <-.
    split; [done|]. split; [|done].
    unfold cache_hit in Hhit.
    destruct (cache_of w !! fs_resolve (fs w) pdf_path) as [[f m]|]; [|done].
    simpl in Hhit. case_bool_decide; by simplify_eq.
  - destruct (upload_miss _ _ _ Hm Hhit) as (w0 & He & Heq).
    rewrite Heq in Hup. clear Heq.
    destruct (ensure_upload_cache_spec w)
      as (w0' & He' & Hnow & Hcalls & Hfs & Hshown & Hc & Hsame).
    rewrite He in He'. injection He' as <-.
    destruct (genai_upload_file provider pdf_path w0)
      as [[e|upload] wu] eqn:Hu; [done|].
    apply genai_upload_file_spec in Hu as (_ & Hcu & Hfu & _).
    destruct (wait_for_file_active provider upload default_timeout wu)
      as [[e|upload'] ww] eqn:Hw; [done|].
    apply wait_for_file_active_polled in Hw as (_ & [names Hcw] & Hfw & _).
    destruct (cache_store_spec (fs_resolve (fs w) pdf_path)
                (mkEntry upload' mtime) ww)
      as (w3 & Hst & _ & Hc3 & Hf3 & _ & Hcache).
    rewrite Hst in Hup. simpl in Hup. injection Hup as <- <-.
    split; [congruence|]. split; [by rewrite Hcache, lookup_insert_eq|].
    split; [|by intros [? ?]]. intros _.
    by rewrite Hc3, Hcw, Hcu, Hcalls, count_uploads_polls, count_uploads_upload.
Qed.

Lemma upload_miss_calls pdf_path w mtime r w1 :
  fs_mtime (fs w) pdf_path = inr mtime →
  cache_hit (cache_of w !! fs_resolve (fs w) pdf_path) mtime = None →
  upload_pdf_with_cache provider pdf_path w = (r, w1) →
  count_uploads (calls w1) = S (count_uploads (calls w)).
Proof.
  intros Hm Hhit Hup.
  destruct (upload_miss _ _ _ Hm Hhit) as (w0 & He & Heq).
  rewrite Heq in Hup. clear Heq.
  destruct (ensure_upload_cache_spec w) as (w0' & He' & _ & Hcalls & _).
  rewrite He in He'. injection He' as <-.
  destruct (genai_upload_file provider pdf_path w0)
    as [[e|upload] wu] eqn:Hu;
    apply genai_upload_file_spec in Hu as (_ & Hcu & _).
  { injection Hup as <- <-. by rewrite Hcu, Hcalls, count_uploads_upload. }
  destruct (wait_for_file_active provider upload default_timeout wu)
    as [[e|upload'] ww] eqn:Hw;
    apply wait_for_file_active_polled in Hw as (_ & [names Hcw] & _).
  { injection Hup as <- <-.
    by rewrite Hcw, Hcu, Hcalls, count_uploads_polls, count_uploads_upload. }
  destruct (cache_store_spec (fs_resolve (fs w) pdf_path)
              (mkEntry upload' mtime) ww) as (w3 & Hst & _ & Hc3 & _).
  rewrite Hst in Hup. injection Hup as <- <-.
  by rewrite Hc3, Hcw, Hcu, Hcalls, count_uploads_polls, count_uploads_upload.
Qed.

End Upload.

(** C3. After a call of [upload_pdf_with_cache] that returned a handle, a
    second call for the same path, with the modification time unchanged,
    returns the same handle and calls the provider not at all, so that the
    two calls make one upload call when the first one found no good entry;
    with the modification time changed, the second call uploads afresh and,
    when it returns, has put its handle and the new time in the place of the
    entry. *)
Theorem upload_cache_reuse (provider : Provider) (pdf_path : Path)
    (w : World) (file : FileObj) (w1 : World) :
  upload_pdf_with_cache provider pdf_path w = (inr file, w1) →
  ∃ mtime,
    fs_mtime (fs w) pdf_path = inr mtime
    ∧ (cache_hit (cache_of w !! fs_resolve (fs w) pdf_path) mtime = None →
       count_uploads (calls w1) = S (count_uploads (calls w)))
    ∧ Monad.bind (upload_pdf_with_cache provider pdf_path)
        (λ _, upload_pdf_with_cache provider pdf_path) w = (inr file, w1)
    ∧ (∀ w2, session w2 = session w1 →
         fs_resolve (fs w2) pdf_path = fs_resolve (fs w) pdf_path →
         fs_mtime (fs w2) pdf_path = inr mtime →
         upload_pdf_with_cache provider pdf_path w2 = (inr file, w2))
    ∧ (∀ w2 mtime', session w2 = session w1 →
         fs_resolve (fs w2) pdf_path = fs_resolve (fs w) pdf_path →
         fs_mtime (fs w2) pdf_path = inr mtime' → mtime' ≠ mtime →
         ∃ r w3,
           upload_pdf_with_cache provider pdf_path w2 = (r, w3)
           ∧ count_uploads (calls w3) = S (count_uploads (calls w2))
           ∧ ∀ file', r = inr file' →
               cache_of w3 !! fs_resolve (fs w) pdf_path
               = Some (mkEntry file' mtime')).
Proof.
  intros Hup.
  destruct (upload_returns provider _ _ _ _ Hup)
    as (mtime & Hm & Hfs & Hentry & Hcount & _).
  exists mtime. split; [done|]. split; [done|].
  assert (∀ w2, session w2 = session w1 →
                fs_resolve (fs w2) pdf_path = fs_resolve (fs w) pdf_path →
                fs_mtime (fs w2) pdf_path = inr mtime →
                upload_pdf_with_cache provider pdf_path w2 = (inr file, w2))
    as Hsecond.
  { intros w2 Hs Hr Hm2. apply (upload_hit provider _ _ mtime); [done|].
    unfold cache_of. rewrite Hs, Hr. fold (cache_of w1). rewrite Hentry.
    simpl. by rewrite bool_decide_eq_true_2. }
  split; [|split; [done|]].
  - unfold Monad.bind. rewrite Hup. apply Hsecond; by rewrite ?Hfs.
  - intros w2 mtime' Hs Hr Hm2 Hne.
    destruct (upload_pdf_with_cache provider pdf_path w2) as [r w3] eqn:Hup2.
    exists r, w3. split; [done|].
    assert (cache_hit (cache_of w2 !! fs_resolve (fs w2) pdf_path) mtime' = None)
      as Hmiss.
    { unfold cache_of. rewrite Hs, Hr. fold (cache_of w1). rewrite Hentry.
      simpl. by rewrite bool_decide_eq_false_2. }
    split; [by eapply upload_miss_calls|].
    intros file' ->.
    destruct (upload_returns provider _ _ _ _ Hup2)
      as (m & Hm' & _ & Hentry' & _).
    rewrite Hm2 in Hm'. injection Hm' as <-. by rewrite <- Hr.
Qed.

Lemma upload_cache_reuse_witness :
  upload_pdf_with_cache (Sample.constant_provider Sample.active None)
    Sample.pdf Sample.world = (inr Sample.active, Sample.uploaded)
  ∧ count_uploads (calls Sample.uploaded) = 1
  ∧ upload_pdf_with_cache (Sample.constant_provider Sample.active None)
      Sample.pdf Sample.uploaded = (inr Sample.active, Sample.uploaded).
Proof.
  assert (upload_pdf_with_cache (Sample.constant_provider Sample.active None)
            Sample.pdf Sample.world = (inr Sample.active, Sample.uploaded))
    as Hfirst by (vm_compute; reflexivity).
  destruct (upload_cache_reuse _ _ _ _ _ Hfirst)
    as (mtime & Hm & Hcount & _ & Hsecond & _).
  injection Hm as <-.
  split; [exact Hfirst|]. split.
  - apply Hcount. reflexivity.
  - apply Hsecond; reflexivity.
Defined.

(** C10. When [upload_pdf_with_cache] raises, whether at the stat, at the
    upload or at the readiness wait, the entries of the upload cache are
    those it started with: nothing was stored, replaced or removed. *)
Theorem upload_failure_keeps_cache (provider : Provider) (pdf_path : Path)
    (w : World) (e : Exn) (w1 : World) :
  upload_pdf_with_cache provider pdf_path w = (inl e, w1) →
  cache_of w1 = cache_of w
  ∧ (is_Some (upload_cache (session w)) → session w1 = session w).
Proof.
  intros Hup.
  destruct (ensure_upload_cache_spec w)
    as (w0 & He & Hnow & Hcalls & Hfs & Hshown & Hc & Hsame).
  destruct (fs_mtime (fs w) pdf_path) as [exc|mtime] eqn:Hm.
  { unfold upload_pdf_with_cache, Monad.bind, Monad.gets, Monad.raise in Hup.
    rewrite He, Hfs, Hm in Hup. injection Hup as <- <-.
    split; [done|]. by intros ->%Hsame. }
  destruct (cache_hit (cache_of w !! fs_resolve (fs w) pdf_path) mtime)
    as [hit|] eqn:Hhit.
  { by rewrite (upload_hit provider _ _ _ _ Hm Hhit) in Hup. }
  destruct (upload_miss provider _ _ _ Hm Hhit) as (w0' & He' & Heq).
  rewrite Heq in Hup. clear Heq. rewrite He in He'. injection He' as <-.
  assert (cache_of w0 = cache_of w
          ∧ (is_Some (upload_cache (session w)) → session w0 = session w))
    as Hw0 by (split; [done|by intros ->%Hsame]).
  destruct (genai_upload_file provider pdf_path w0)
    as [[e'|upload] wu] eqn:Hu.
  - injection Hup as <- <-.
    apply genai_upload_file_spec in Hu as (_ & _ & _ & Hsu & _).
    unfold cache_of in *. by rewrite Hsu.
  - apply genai_upload_file_spec in Hu as (_ & _ & _ & Hsu & _).
    destruct (wait_for_file_active provider upload default_timeout wu)
      as [[e'|upload'] ww] eqn:Hw; [|done].
    injection Hup as <- <-.
    apply wait_for_file_active_polled in Hw as (_ & _ & _ & Hsw & _).
    unfold cache_of in *. by rewrite Hsw, Hsu.
Qed.

Lemma upload_failure_keeps_cache_witness :
  (∃ e w1,
     upload_pdf_with_cache (Sample.constant_provider Sample.failed None)
       Sample.pdf Sample.touched = (inl e, w1)
     ∧ exn_class e = RuntimeError ∧ cache_of w1 = cache_of Sample.touched)
  ∧ cache_of Sample.touched !! fs_resolve Sample.fs Sample.pdf
    = Some (mkEntry Sample.active 7).
Proof.
  split; [|vm_compute; reflexivity].
  destruct (upload_pdf_with_cache (Sample.constant_provider Sample.failed None)
              Sample.pdf Sample.touched) as [[e|f] w1] eqn:Hup;
    [|vm_compute in Hup; discriminate Hup].
  exists e, w1. split; [reflexivity|]. split.
  - vm_compute in Hup. injection Hup as <- _. reflexivity.
  - exact (proj1 (upload_failure_keeps_cache _ _ _ _ _ Hup)).
Defined.

(** ** The query flow: [answer_with_gemini] and [main_chat_interface] *)
Section Query.

Arguments message_parts : simpl never.

Variable provider : Provider.
Variable LEX_SYSTEM_PROMPT : text.

Global Instance framed_refl : Reflexive framed.
Proof. by intros w. Qed.

Global Instance framed_trans : Transitive framed.
Proof.
  intros w1 w2 w3 (Hf1 & Hp1 & Hs1) (Hf2 & Hp2 & Hs2).
  unfold framed. by rewrite Hf2, Hp2, Hs2.
Qed.

Lemma polled_framed w w' : polled w w' → framed w w'.
Proof. intros (_ & _ & Hf & Hs & Hp). unfold framed. by rewrite Hf, Hs, Hp. Qed.

Lemma ensure_upload_cache_framed w :
  framed w (ensure_upload_cache w).2.
Proof.
  unfold ensure_upload_cache, Monad.set_session, Monad.modify, framed. simpl.
  by destruct (upload_cache (session w)).
Qed.

Lemma upload_framed pdf_path w r w' :
  upload_pdf_with_cache provider pdf_path w = (r, w') → framed w w'.
Proof.
  unfold upload_pdf_with_cache, Monad.bind, Monad.gets, Monad.ret, Monad.raise.
  pose proof (ensure_upload_cache_framed w) as H0.
  destruct (ensure_upload_cache w) as [[e|[]] w0] eqn:He; simpl in H0;
    [by intros [= <- <-]|].
  destruct (fs_mtime (fs w0) pdf_path) as [exc|mtime]; [by intros [= <- <-]|].
  destruct (cache_hit _ mtime) as [hit|]; [by intros [= <- <-]|].
  destruct (genai_upload_file provider pdf_path w0) as [[e|upload] wu] eqn:Hu;
    apply genai_upload_file_spec in Hu as (_ & _ & Hfu & Hsu & Hpu).
  { intros [= <- <-]. etrans; [exact H0|]. unfold framed. by rewrite Hfu, Hsu, Hpu. }
  destruct (wait_for_file_active provider upload default_timeout wu)
    as [[e|upload'] ww] eqn:Hw;
    apply wait_for_file_active_polled, polled_framed in Hw.
  { intros [= <- <-]. etrans; [exact H0|]. etrans; [|exact Hw].
    unfold framed. by rewrite Hfu, Hsu, Hpu. }
  unfold cache_store, Monad.set_session, Monad.modify. simpl.
  intros [= <- <-]. etrans; [exact H0|].
  etrans; [|etrans; [exact Hw|]]; unfold framed; simpl; [|done].
  by rewrite Hfu, Hsu, Hpu.
Qed.

Lemma for_each_upload_framed files w r w' :
  for_each (upload_pdf_with_cache provider) files w = (r, w') → framed w w'.
Proof.
  revert w r w'. induction files as [|f files IH]; intros w r w'; simpl.
  - by intros [= <- <-].
  - unfold Monad.bind, Monad.ret.
    destruct (upload_pdf_with_cache provider f w) as [[e|y] w1] eqn:Hu;
      apply upload_framed in Hu; [by intros [= <- <-]|].
    destruct (for_each _ files w1) as [[e|ys] w2] eqn:Hf; apply IH in Hf;
      intros [= <- <-]; by etrans.
Qed.

Lemma framed_logs w w' :
  framed w w' →
  shown w' = shown w
  ∧ interaction_logs (session w') = interaction_logs (session w)
  ∧ messages (session w') = messages (session w)
  ∧ selected_model (session w') = selected_model (session w)
  ∧ active_api_key (session w') = active_api_key (session w).
Proof.
  intros (_ & Hp & Hs). unfold session_rest in Hs. by simplify_eq.
Qed.

(** [answer_with_gemini] once the uploads are done and the model has
    answered. *)
Lemma answer_with_gemini_returns question files model_name user_email w
    uploads w1 response time :
  for_each (upload_pdf_with_cache provider) files (ensure_upload_cache w).2
  = (inr uploads, w1) →
  send_message provider (calls w1) (now w1)
    (message_parts LEX_SYSTEM_PROMPT question uploads)
  = mkReply (inr response) time →
  ∃ w2,
    answer_with_gemini provider LEX_SYSTEM_PROMPT question files model_name
      user_email w
    = (inr (if bool_decide (Text.strip (default [] response) = [])
            then fallback_answer else Text.strip (default [] response)), w2)
    ∧ shown w2 = shown w
    ∧ interaction_logs (session w2) = interaction_logs (session w)
    ∧ messages (session w2) = messages (session w).
Proof.
  intros Hup Hsend.
  pose proof (ensure_upload_cache_framed w) as H0.
  apply for_each_upload_framed in Hup as H1.
  destruct (framed_logs _ _ (transitivity H0 H1)) as (Hp & Hl & Hm & _).
  unfold answer_with_gemini, Monad.bind, Monad.gets, Monad.ret.
  assert (ensure_upload_cache w = (inr tt, (ensure_upload_cache w).2)) as ->
    by done.
  rewrite Hup.
  unfold ensure_chat_session, Monad.set_session, Monad.modify.
  unfold chat_send_message, provider_call. simpl.
  rewrite Hsend. simpl.
  eexists. split; [done|]. simpl.
  by case_bool_decide.
Qed.

Lemma main_chat_interface_unfold user_email prompt selected index w :
  prompt ≠ [] →
  main_chat_interface provider LEX_SYSTEM_PROMPT user_email prompt selected
    index w
  = Monad.catch
      (process_query provider LEX_SYSTEM_PROMPT user_email prompt selected index)
      (report_failure user_email prompt) (after_prompt prompt w).
Proof.
  intros Hprompt. unfold main_chat_interface.
  by rewrite bool_decide_eq_false_2 by done.
Qed.

(** The run of a query that reaches the model and gets an answer. *)
Lemma main_chat_interface_answered user_email prompt selected index w
    lenders question matched answer w2 :
  prompt ≠ [] →
  query_lenders prompt selected = (lenders, question) →
  lenders ≠ [] → question ≠ [] →
  find_lender_files lenders index = (matched, []) →
  selected_model (session w) ≠ [] →
  answer_with_gemini provider LEX_SYSTEM_PROMPT question matched.*2
    (selected_model (session w)) user_email (after_prompt prompt w)
  = (inr answer, w2) →
  shown w2 = shown (after_prompt prompt w) →
  interaction_logs (session w2) = interaction_logs (session w) →
  messages (session w2) = messages (session (after_prompt prompt w)) →
  ∃ w',
    main_chat_interface provider LEX_SYSTEM_PROMPT user_email prompt selected
      index w = (inr tt, w')
    ∧ interaction_logs (session w')
      = Some (default [] (interaction_logs (session w))
              ++ [mkLog (now w') user_email prompt (Some answer) None])
    ∧ messages (session w')
      = messages (session w)
        ++ [mkMessage User prompt; mkMessage Assistant answer]
    ∧ shown w' = shown w ++ [ShownMarkdown prompt; ShownMarkdown answer].
Proof.
  intros Hprompt Hq Hl Hqn Hfind Hmodel Hanswer Hshown Hlogs Hmsgs.
  rewrite main_chat_interface_unfold by done.
  unfold Monad.catch, process_query.
  rewrite Hq, !bool_decide_eq_false_2, Hfind by done.
  rewrite bool_decide_eq_false_2 by (by intros []).
  unfold Monad.bind, Monad.gets.
  assert (selected_model (session (after_prompt prompt w))
          = selected_model (session w)) as -> by done.
  rewrite bool_decide_eq_false_2 by done.
  rewrite Hanswer.
  unfold st_show, append_message, Monad.set_session, Monad.modify. simpl.
  eexists. split; [done|]. simpl.
  rewrite Hlogs, Hmsgs, Hshown. unfold after_prompt. simpl.
  by rewrite <- !app_assoc.
Qed.

Lemma join_contains sep parts t :
  t ∈ parts → Text.contains t (Text.join sep parts).
Proof.
  induction parts as [|p parts IH]; [by intros ?%elem_of_nil|].
  intros [->|Hin]%elem_of_cons.
  - destruct parts as [|q parts]; simpl.
    + exists [], []. by rewrite app_nil_r.
    + by exists [], (sep ++ Text.join sep (q :: parts)).
  - destruct (IH Hin) as (before & after & Heq).
    destruct parts as [|q parts]; [by apply elem_of_nil in Hin|].
    exists (p ++ sep ++ before), after.
    change (Text.join sep (p :: q :: parts))
      with (p ++ sep ++ Text.join sep (q :: parts)).
    rewrite Heq. by rewrite <- !app_assoc.
Qed.

Lemma contains_app_r prefix suffix t hay :
  Text.contains t hay → Text.contains t (prefix ++ hay ++ suffix).
Proof.
  intros (before & after & ->). exists (prefix ++ before), (after ++ suffix).
  by rewrite <- !app_assoc.
Qed.

(** The run of a query with a question and a token the index does not
    have. *)
Lemma main_chat_interface_missing user_email prompt selected index w
    lenders question :
  prompt ≠ [] →
  query_lenders prompt selected = (lenders, question) →
  question ≠ [] →
  (∃ t, t ∈ lenders ∧ ¬ resolves index t) →
  let missing := filter (λ l, ¬ resolves index l) lenders in
  let msg := exn_msg (missing_files_error missing) in
  process_query provider LEX_SYSTEM_PROMPT user_email prompt selected index
    (after_prompt prompt w)
  = (inl (missing_files_error missing), after_prompt prompt w)
  ∧ ∃ w',
      main_chat_interface provider LEX_SYSTEM_PROMPT user_email prompt
        selected index w = (inr tt, w')
      ∧ calls w' = calls w ∧ now w' = now w
      ∧ upload_cache (session w') = upload_cache (session w)
      ∧ interaction_logs (session w')
        = Some (default [] (interaction_logs (session w))
                ++ [mkLog (now w) user_email prompt None (Some msg)])
      ∧ shown w' = shown w ++ [ShownMarkdown prompt; ShownError msg].
Proof.
  intros Hprompt Hq Hqn (t & Hin & Hno) missing msg.
  assert (process_query provider LEX_SYSTEM_PROMPT user_email prompt selected
            index (after_prompt prompt w)
          = (inl (missing_files_error missing), after_prompt prompt w)) as Hpq.
  { unfold process_query. rewrite Hq.
    rewrite bool_decide_eq_false_2 by (intros ->; by apply elem_of_nil in Hin).
    rewrite bool_decide_eq_false_2 by done.
    rewrite find_lender_files_eq. fold missing.
    rewrite bool_decide_eq_true_2; [done|].
    intros Hnil. assert (t ∈ missing) as Ht by (by apply list_elem_of_filter).
    rewrite Hnil in Ht. by apply elem_of_nil in Ht. }
  split; [done|].
  rewrite main_chat_interface_unfold by done.
  unfold Monad.catch. rewrite Hpq.
  unfold report_failure. simpl. fold msg.
  unfold Monad.bind, st_show, Monad.modify, log_interaction, time_time,
    Monad.gets, Monad.set_session. simpl.
  eexists. split; [done|]. simpl.
  split_and!; try done. by rewrite <- app_assoc.
Qed.

End Query.

(** C5. When the model answers with no text, or with whitespace only,
    [answer_with_gemini] returns the fallback sentence; the query then ends
    as a success: the sentence is shown and added to the conversation as the
    assistant's answer, and the log entry that is appended carries it as the
    response, with no error. *)
Theorem blank_response_falls_back (provider : Provider)
    (LEX_SYSTEM_PROMPT user_email prompt : text) (selected : list text)
    (index : gmap text Path) (w : World) (lenders : list text)
    (question : text) (matched : list (text * Path))
    (uploads : list FileObj) (w1 : World) (response : option text) (time : N) :
  prompt ≠ [] →
  query_lenders prompt selected = (lenders, question) →
  lenders ≠ [] → question ≠ [] →
  find_lender_files lenders index = (matched, []) →
  selected_model (session w) ≠ [] →
  for_each (upload_pdf_with_cache provider) matched.*2
    (ensure_upload_cache (after_prompt prompt w)).2 = (inr uploads, w1) →
  send_message provider (calls w1) (now w1)
    (message_parts LEX_SYSTEM_PROMPT question uploads)
  = mkReply (inr response) time →
  Text.strip (default [] response) = [] →
  (∃ w2, answer_with_gemini provider LEX_SYSTEM_PROMPT question matched.*2
           (selected_model (session w)) user_email (after_prompt prompt w)
         = (inr fallback_answer, w2))
  ∧ ∃ w',
      main_chat_interface provider LEX_SYSTEM_PROMPT user_email prompt
        selected index w = (inr tt, w')
      ∧ interaction_logs (session w')
        = Some (default [] (interaction_logs (session w))
                ++ [mkLog (now w') user_email prompt (Some fallback_answer) None])
      ∧ messages (session w')
        = messages (session w)
          ++ [mkMessage User prompt; mkMessage Assistant fallback_answer]
      ∧ shown w'
        = shown w ++ [ShownMarkdown prompt; ShownMarkdown fallback_answer].
Proof.
  intros Hprompt Hq Hl Hqn Hfind Hmodel Hup Hsend Hblank.
  destruct (answer_with_gemini_returns provider LEX_SYSTEM_PROMPT question
              matched.*2 (selected_model (session w)) user_email
              (after_prompt prompt w) uploads w1 response time Hup Hsend)
    as (w2 & Hanswer & Hshown & Hlogs & Hmsgs).
  rewrite Hblank, bool_decide_eq_true_2 in Hanswer by done.
  split; [by exists w2|].
  by eapply main_chat_interface_answered.
Qed.

Lemma blank_response_falls_back_witness :
  ∃ w',
    main_chat_interface Sample.blank_provider Sample.system_prompt
      Sample.broker (str "(b c) minimum FICO?") [] Sample.index
      Sample.world = (inr tt, w')
    ∧ interaction_logs (session w')
      = Some [mkLog (now w') Sample.broker
                (str "(b c) minimum FICO?") (Some fallback_answer) None].
Proof.
  destruct (blank_response_falls_back Sample.blank_provider
              Sample.system_prompt Sample.broker
              (str "(b c) minimum FICO?") [] Sample.index Sample.world
              [str "b c"] (str "minimum FICO?")
              [(str "b c", str "pdfs/b_c.pdf")] [Sample.active]
              (for_each (upload_pdf_with_cache Sample.blank_provider)
                 [str "pdfs/b_c.pdf"]
                 (ensure_upload_cache
                    (after_prompt (str "(b c) minimum FICO?") Sample.world)).2).2
              (Some (str "  ")) 3)
    as (_ & w' & Hmain & Hlogs & _).
  - discriminate.
  - vm_compute. reflexivity.
  - discriminate.
  - discriminate.
  - vm_compute. reflexivity.
  - discriminate.
  - vm_compute. reflexivity.
  - reflexivity.
  - vm_compute. reflexivity.
  - exists w'. split; [exact Hmain|exact Hlogs].
Defined.

(** C4, as the code has it.  A submitted query that has a question and in
    which at least one lender token is not in the index fails with the
    [FileNotFoundError] whose message names every missing token; the query
    makes no provider call, so neither an upload nor a model call, and leaves
    the upload cache as it was; the failure is shown and logged.  (A query
    without a question fails earlier, for that reason.) *)
Theorem missing_lenders_stop_the_query (provider : Provider)
    (LEX_SYSTEM_PROMPT user_email prompt : text) (selected : list text)
    (index : gmap text Path) (w : World) (lenders : list text)
    (question : text) :
  prompt ≠ [] →
  query_lenders prompt selected = (lenders, question) →
  question ≠ [] →
  (∃ t, t ∈ lenders ∧ ¬ resolves index t) →
  let missing := filter (λ l, ¬ resolves index l) lenders in
  let error := missing_files_error missing in
  exn_class error = FileNotFoundError
  ∧ (∀ t, t ∈ lenders → ¬ resolves index t →
       Text.contains t (exn_msg error))
  ∧ process_query provider LEX_SYSTEM_PROMPT user_email prompt selected index
      (after_prompt prompt w) = (inl error, after_prompt prompt w)
  ∧ ∃ w',
      main_chat_interface provider LEX_SYSTEM_PROMPT user_email prompt
        selected index w = (inr tt, w')
      ∧ calls w' = calls w
      ∧ upload_cache (session w') = upload_cache (session w)
      ∧ interaction_logs (session w')
        = Some (default [] (interaction_logs (session w))
                ++ [mkLog (now w) user_email prompt None (Some (exn_msg error))])
      ∧ shown w'
        = shown w ++ [ShownMarkdown prompt; ShownError (exn_msg error)].
Proof.
  intros Hprompt Hq Hqn Hmiss missing error.
  destruct (main_chat_interface_missing provider LEX_SYSTEM_PROMPT user_email
              prompt selected index w lenders question Hprompt Hq Hqn Hmiss)
    as (Hpq & w' & Hmain & Hcalls & _ & Hcache & Hlogs & Hshown).
  split; [done|]. split.
  - intros t Hin Hno. unfold error, missing_files_error. simpl.
    apply (contains_app_r (str "Missing PDF files for: ")).
    apply join_contains. by apply list_elem_of_filter.
  - split; [done|]. by exists w'.
Qed.

Lemma missing_lenders_stop_the_query_witness :
  ∃ w',
    main_chat_interface Sample.blank_provider Sample.system_prompt
      Sample.broker (str "(b c, ghostlender) minimum FICO?") [] Sample.index
      Sample.world = (inr tt, w')
    ∧ calls w' = []
    ∧ interaction_logs (session w')
      = Some [mkLog 1000 Sample.broker
                (str "(b c, ghostlender) minimum FICO?") None
                (Some (str "Missing PDF files for: ghostlender. Check the sidebar list to see available lenders."))].
Proof.
  destruct (missing_lenders_stop_the_query Sample.blank_provider
              Sample.system_prompt Sample.broker
              (str "(b c, ghostlender) minimum FICO?") [] Sample.index
              Sample.world [str "b c"; str "ghostlender"]
              (str "minimum FICO?"))
    as (_ & _ & _ & w' & Hmain & Hcalls & _ & Hlogs & _).
  - discriminate.
  - vm_compute. reflexivity.
  - discriminate.
  - exists (str "ghostlender"). split.
    + apply list_elem_of_In. simpl. tauto.
    + unfold resolves. vm_compute. intros [x Hx]. discriminate Hx.
  - exists w'. split; [exact Hmain|]. split; [exact Hcalls|exact Hlogs].
Defined.

(** C4 as stated does not hold for a query without a question: the token
    [ghostlender] is not in the index, yet the query fails with the
    [ValueError] that asks for a question, not with the error that names the
    missing lenders. *)
Lemma missing_lenders_stop_the_query_counterexample :
  query_lenders (str "(ghostlender)") [] = ([str "ghostlender"], [])
  ∧ ¬ resolves Sample.index (str "ghostlender")
  ∧ process_query Sample.blank_provider Sample.system_prompt Sample.broker
      (str "(ghostlender)") [] Sample.index
      (after_prompt (str "(ghostlender)") Sample.world)
    = (inl no_question_error, after_prompt (str "(ghostlender)") Sample.world)
  ∧ exn_class no_question_error = ValueError
  ∧ interaction_logs
      (session
         (main_chat_interface Sample.blank_provider Sample.system_prompt
            Sample.broker (str "(ghostlender)") [] Sample.index
            Sample.world).2)
    = Some [mkLog 1000 Sample.broker (str "(ghostlender)") None
              (Some (str "Please include a question after the lender list."))].
Proof.
  split; [vm_compute; reflexivity|]. split.
  { unfold resolves. vm_compute. intros [x Hx]. discriminate Hx. }
  split; [vm_compute; reflexivity|]. split; [reflexivity|].
  vm_compute. reflexivity.
Qed.

(** ** The parser: [parse_lenders_and_question] *)
Section Parse.

Import Text Regex.

Lemma group_body_cons c r :
  c ≠ ")"%char →
  group_body (c :: r)
  = match r with
    | c' :: r' =>
        if bool_decide (c' = ")"%char) then Some ([c], r')
        else match group_body r with
             | Some (g, post) => Some (c :: g, post)
             | None => None
             end
    | [] => None
    end.
Proof. intros Hc. simpl. by rewrite bool_decide_eq_false_2. Qed.

Lemma group_body_closed g post :
  g ≠ [] → ")"%char ∉ g → group_body (g ++ ")"%char :: post) = Some (g, post).
Proof.
  induction g as [|c g IH]; [done|]. intros _ Hno.
  apply not_elem_of_cons in Hno as [Hc Hg].
  rewrite <- app_comm_cons, group_body_cons by done.
  destruct g as [|c' g].
  - done.
  - rewrite IH by done. rewrite <- app_comm_cons.
    apply not_elem_of_cons in Hg as [Hc' _].
    by rewrite bool_decide_eq_false_2.
Qed.

(** The search stops at the first parenthesis that opens a group. *)
Lemma paren_search_first pre g post :
  no_group pre = true → g ≠ [] → ")"%char ∉ g →
  paren_search (pre ++ "("%char :: g ++ ")"%char :: post) = Some (pre, g, post).
Proof.
  intros Hpre Hg Hno. induction pre as [|c pre IH]; simpl.
  - by rewrite group_body_closed.
  - simpl in Hpre. case_bool_decide as Hc.
    + destruct pre as [|c' pre]; [done|].
      apply andb_prop in Hpre as [Hc' Hpre]. apply bool_decide_eq_true in Hc'.
      subst c'. rewrite IH by done. simpl. done.
    + by rewrite IH.
Qed.

Lemma lstrip_keeps before c rest :
  is_space c = false →
  ∃ before', lstrip (before ++ c :: rest) = before' ++ c :: rest.
Proof.
  intros Hc. induction before as [|b before IH]; simpl.
  - exists []. by rewrite Hc.
  - destruct (is_space b); [done|]. by exists (b :: before).
Qed.

(** Stripping leaves alone a stretch that starts and ends with characters
    that are not whitespace. *)
Lemma strip_keeps before c middle c' after :
  is_space c = false → is_space c' = false →
  ∃ before' after',
    strip (before ++ c :: middle ++ c' :: after)
    = before' ++ c :: middle ++ c' :: after'.
Proof.
  intros Hc Hc'. unfold strip, rstrip.
  destruct (lstrip_keeps before c (middle ++ c' :: after) Hc) as [before' ->].
  replace (reverse (before' ++ c :: middle ++ c' :: after))
    with (reverse after ++ c' :: reverse (before' ++ c :: middle)).
  2:{ rewrite !reverse_app, !reverse_cons, !reverse_app, !reverse_cons.
      by rewrite <- !app_assoc. }
  destruct (lstrip_keeps (reverse after) c' (reverse (before' ++ c :: middle)) Hc')
    as [after' ->].
  exists before', (reverse after').
  rewrite reverse_app, reverse_cons, reverse_involutive.
  by rewrite <- !app_assoc.
Qed.

(** C8. In an input with more than one parenthesized group, the lenders are
    the tokens of the first group alone, and the question is the text before
    that group joined to the text after it, trimmed: every later group is
    still in it, parentheses included. *)
Theorem later_groups_stay_in_question (pre g1 mid g2 post : text) :
  no_group pre = true → g1 ≠ [] → ")"%char ∉ g1 →
  let raw :=
    pre ++ "("%char :: g1 ++ ")"%char :: mid
    ++ "("%char :: g2 ++ ")"%char :: post in
  parse_lenders_and_question raw
  = (tokens g1,
     strip (pre ++ mid ++ "("%char :: g2 ++ ")"%char :: post))
  ∧ (parse_lenders_and_question raw).1
    = (parse_lenders_and_question ("("%char :: g1 ++ [")"%char])).1
  ∧ contains ("("%char :: g2 ++ [")"%char]) (parse_lenders_and_question raw).2.
Proof.
  intros Hpre Hg Hno raw.
  assert (parse_lenders_and_question raw
          = (tokens g1, strip (pre ++ mid ++ "("%char :: g2 ++ ")"%char :: post)))
    as Hparse.
  { unfold parse_lenders_and_question, raw.
    by rewrite paren_search_first. }
  split; [done|]. rewrite Hparse. simpl. split.
  - unfold parse_lenders_and_question.
    pose proof (paren_search_first [] g1 [] eq_refl Hg Hno) as H.
    rewrite app_nil_l in H. by rewrite H.
  - destruct (strip_keeps (pre ++ mid) "(" g2 ")" post) as (b & a & Hs);
      [done..|].
    rewrite <- app_assoc in Hs. rewrite Hs.
    exists b, a. simpl. by rewrite <- app_assoc.
Qed.


(** *** Characters *)

Lemma space_not_word c : is_space c = true → is_word c = false.
Proof. destruct c as [[] [] [] [] [] [] [] []]; by vm_compute. Qed.

(** Only a letter reads as a lower-case letter under [re.IGNORECASE]. *)
Lemma lower_letter_word c :
  in_range 97 122 (lower_char c) = true → is_word c = true.
Proof. destruct c as [[] [] [] [] [] [] [] []]; by vm_compute. Qed.

Lemma letters_and : letters (str "and").
Proof. repeat constructor. Qed.

Lemma letters_or : letters (str "or").
Proof. repeat constructor. Qed.

(** *** The pattern inside a longer text *)

Lemma literal_nocase_app w last s tail l r :
  literal_nocase w last s = Some (l, r) →
  literal_nocase w last (s ++ tail) = Some (l, r ++ tail).
Proof.
  revert last s. induction w as [|a w IH]; intros last s; simpl.
  - by intros [= -> ->].
  - destruct s as [|c s]; [done|]. simpl.
    case_bool_decide; [|done]. apply IH.
Qed.

Lemma literal_nocase_none w last s tail :
  letters w → inert tail →
  literal_nocase w last s = None →
  literal_nocase w last (s ++ tail) = None.
Proof.
  intros Hw Htail. revert last s.
  induction Hw as [|a w Ha Hw IH]; intros last s; simpl; [done|].
  destruct s as [|c s]; simpl.
  - intros _. destruct tail as [|t tail]; [done|]. simpl in Htail.
    case_bool_decide as Ht; [|done]. subst a.
    apply lower_letter_word in Ha. congruence.
  - case_bool_decide; [|done]. apply IH.
Qed.

Lemma literal_nocase_last w last s l r :
  letters w → w ≠ [] → literal_nocase w last s = Some (l, r) →
  is_word l = true.
Proof.
  intros Hw. revert last s.
  induction Hw as [|a w Ha Hw IH]; intros last s Hne; [done|]. simpl.
  destruct s as [|c s]; [done|]. case_bool_decide as Hc; [|done].
  destruct w as [|a' w].
  - simpl. intros [= <- <-]. subst a. by apply lower_letter_word.
  - by apply IH.
Qed.

Lemma bounded_word_none w prev s tail :
  letters w → w ≠ [] → inert tail → s ≠ [] →
  bounded_word w prev s = None →
  bounded_word w prev (s ++ tail) = None.
Proof.
  intros Hw Hne Htail Hs. unfold bounded_word.
  destruct s as [|c s]; [done|]. simpl.
  destruct (word_boundary prev (Some c)); [|done].
  destruct (literal_nocase w c (c :: s)) as [[l r]|] eqn:Hlit.
  - change (c :: s ++ tail) with ((c :: s) ++ tail).
    rewrite (literal_nocase_app _ _ _ tail _ _ Hlit).
    destruct r as [|c' r]; simpl.
    + apply literal_nocase_last in Hlit; [|done..].
      unfold word_boundary. simpl. rewrite Hlit. simpl. done.
    + by destruct (word_boundary (Some l) (Some c')).
  - intros _.
    change (c :: s ++ tail) with ((c :: s) ++ tail).
    by rewrite literal_nocase_none.
Qed.

Lemma delimiter_none prev s tail :
  inert tail → s ≠ [] →
  delimiter prev s = None → delimiter prev (s ++ tail) = None.
Proof.
  intros Htail Hs. unfold delimiter.
  destruct s as [|c s]; [done|]. rewrite <- app_comm_cons.
  repeat (case_bool_decide; [done|]).
  change (c :: s ++ tail) with ((c :: s) ++ tail).
  destruct (bounded_word (str "and") prev (c :: s)) eqn:Hand; [done|].
  rewrite (bounded_word_none _ _ _ tail letters_and) by done.
  destruct (bounded_word (str "or") prev (c :: s)) eqn:Hor; [done|].
  rewrite (bounded_word_none _ _ _ tail letters_or) by done.
  by case_bool_decide.
Qed.


Lemma spaces_word p q s :
  is_word_opt p = is_word_opt q →
  ∃ p' q', spaces p s = (p', (spaces p s).2) ∧ spaces q s = (q', (spaces p s).2)
           ∧ is_word_opt p' = is_word_opt q'.
Proof.
  revert p q. induction s as [|c s IH]; intros p q Hpq; simpl.
  - by exists p, q.
  - destruct (is_space c).
    + destruct (IH (Some c) (Some c) eq_refl) as (p' & q' & H1 & H2 & H3).
      exists p', p'. rewrite H1. simpl. done.
    + by exists p, q.
Qed.

Lemma bounded_word_prev w p q s :
  is_word_opt p = is_word_opt q → bounded_word w p s = bounded_word w q s.
Proof. intros Hpq. unfold bounded_word, word_boundary. by rewrite Hpq. Qed.

Lemma delimiter_prev p q s :
  is_word_opt p = is_word_opt q → delimiter p s = delimiter q s.
Proof.
  intros Hpq. unfold delimiter. destruct s as [|c s]; [done|].
  by rewrite !(bounded_word_prev _ p q).
Qed.

(** Only the kind of the preceding character matters to the pattern. *)
Lemma split_pattern_at_prev p q s :
  is_word_opt p = is_word_opt q → split_pattern_at p s = split_pattern_at q s.
Proof.
  intros Hpq. unfold split_pattern_at.
  destruct (spaces_word p q s Hpq) as (p' & q' & -> & -> & Hpq').
  by rewrite (delimiter_prev p' q').
Qed.

Lemma split_pattern_search_unfold prev s :
  split_pattern_search prev s
  = match split_pattern_at prev s with
    | Some (last, r) => Some ([], last, r)
    | None =>
        match s with
        | c :: s' =>
            match split_pattern_search (Some c) s' with
            | Some (piece, last, r) => Some (c :: piece, last, r)
            | None => None
            end
        | [] => None
        end
    end.
Proof. by destruct s. Qed.

Lemma split_pattern_search_prev p q s :
  is_word_opt p = is_word_opt q →
  split_pattern_search p s = split_pattern_search q s.
Proof.
  intros Hpq. rewrite (split_pattern_search_unfold p), (split_pattern_search_unfold q).
  by rewrite (split_pattern_at_prev p q).
Qed.

(** No alternative of the pattern starts with whitespace, so the leading
    [\s*] gains nothing by stopping early. *)
Lemma delimiter_not_space p c r :
  is_space c = true → delimiter p (c :: r) = None.
Proof.
  intros Hc. unfold delimiter, bounded_word, str.
  destruct c as [[] [] [] [] [] [] [] []]; try discriminate Hc; simpl;
    by destruct (word_boundary p _).
Qed.

(** *** Every match takes at least one character *)

Lemma spaces_length p s : length (spaces p s).2 ≤ length s.
Proof.
  revert p. induction s as [|c s IH]; intros p; simpl; [done|].
  destruct (is_space c); simpl; [|done]. specialize (IH (Some c)). lia.
Qed.

Lemma literal_nocase_length w last s l r :
  literal_nocase w last s = Some (l, r) → length r + length w = length s.
Proof.
  revert last s. induction w as [|a w IH]; intros last s; simpl.
  - intros [= _ ->]. lia.
  - destruct s as [|c s]; [done|]. case_bool_decide; [|done].
    intros ?%IH. simpl. lia.
Qed.

Lemma bounded_word_length w p s l r :
  w ≠ [] → bounded_word w p s = Some (l, r) → length r < length s.
Proof.
  intros Hw. unfold bounded_word.
  destruct (word_boundary p (head s)); [|done].
  destruct s as [|c s]; [done|].
  destruct (literal_nocase w c (c :: s)) as [[l' r']|] eqn:Hlit; [|done].
  destruct (word_boundary (Some l') (head r')); [|done].
  intros [= _ <-]. apply literal_nocase_length in Hlit.
  destruct w; [done|]. simpl in *. lia.
Qed.

Lemma delimiter_length p s l r :
  delimiter p s = Some (l, r) → length r < length s.
Proof.
  unfold delimiter. destruct s as [|c s]; [done|].
  repeat (case_bool_decide; [intros [= _ <-]; simpl; lia|]).
  destruct (bounded_word (str "and") p (c :: s)) as [[l' r']|] eqn:Hand.
  { intros [= _ <-]. by apply (bounded_word_length (str "and") p _ l'). }
  destruct (bounded_word (str "or") p (c :: s)) as [[l' r']|] eqn:Hor.
  { intros [= _ <-]. by apply (bounded_word_length (str "or") p _ l'). }
  case_bool_decide; [|done]. intros [= _ <-]. simpl. lia.
Qed.

Lemma split_pattern_at_length p s l r :
  split_pattern_at p s = Some (l, r) → length r < length s.
Proof.
  unfold split_pattern_at. pose proof (spaces_length p s) as H1.
  destruct (spaces p s) as [p' s']. simpl in H1.
  destruct (delimiter p' s') as [[l' r']|] eqn:Hd; [|done].
  apply delimiter_length in Hd. pose proof (spaces_length (Some l') r') as H2.
  destruct (spaces (Some l') r') as [l'' r'']. simpl in H2.
  intros [= _ <-]. lia.
Qed.

Lemma split_pattern_search_length p s piece l r :
  split_pattern_search p s = Some (piece, l, r) → length r < length s.
Proof.
  revert p piece l r. induction s as [|c s IH]; intros p piece l r;
    rewrite split_pattern_search_unfold.
  - destruct (split_pattern_at p []) as [[l' r']|] eqn:Hat; [|done].
    apply split_pattern_at_length in Hat. simpl in Hat. lia.
  - destruct (split_pattern_at p (c :: s)) as [[l' r']|] eqn:Hat.
    + intros [= _ _ <-]. by eapply split_pattern_at_length.
    + destruct (split_pattern_search (Some c) s) as [[[piece' l'] r']|] eqn:Hs;
        [|done].
      intros [= _ _ <-]. apply IH in Hs. simpl. lia.
Qed.

(** The rounds [split_pattern] allows are never used up: any larger number
    gives the same pieces. *)
Lemma split_loop_rounds fuel fuel' p s :
  length s ≤ fuel → length s ≤ fuel' →
  split_loop fuel p s = split_loop fuel' p s.
Proof.
  revert fuel' p s. induction fuel as [|fuel IH]; intros fuel' p s H1 H2.
  - destruct s; [|simpl in H1; lia]. by destruct fuel'.
  - destruct fuel' as [|fuel'].
    + by destruct s; [|simpl in H2; lia].
    + simpl.
      destruct (split_pattern_search p s) as [[[piece l] r]|] eqn:Hs; [|done].
      apply split_pattern_search_length in Hs. f_equal. apply IH; lia.
Qed.
(** Skipping whitespace in front of a text that holds something else. *)
Lemma spaces_app p s tail c :
  last s = Some c → is_space c = false →
  ∃ p' s', s' ≠ [] ∧ spaces p s = (p', s') ∧ spaces p (s ++ tail) = (p', s' ++ tail).
Proof.
  intros Hlast Hc. revert p. induction s as [|x s IH]; intros p; [done|].
  simpl. destruct (is_space x) eqn:Hx.
  - destruct s as [|y s]; [simpl in Hlast; congruence|].
    apply IH. by rewrite last_cons_cons in Hlast.
  - by exists p, (x :: s).
Qed.

(** A position inside a name at which the pattern does not match does not
    match either when the name is followed by more text. *)
Lemma split_pattern_at_none p s tail c :
  last s = Some c → is_space c = false → inert tail →
  split_pattern_at p s = None → split_pattern_at p (s ++ tail) = None.
Proof.
  intros Hlast Hc Htail. unfold split_pattern_at.
  destruct (spaces_app p s tail c Hlast Hc) as (p' & s' & Hs' & -> & ->).
  destruct (delimiter p' s') as [[l r]|] eqn:Hd.
  - by destruct (spaces (Some l) r).
  - intros _. by rewrite delimiter_none.
Qed.

Lemma split_pattern_search_none p s tail c :
  last s = Some c → is_space c = false → inert tail →
  split_pattern_search p s = None →
  split_pattern_search p (s ++ tail)
  = match split_pattern_search (Some c) tail with
    | Some (piece, l, r) => Some (s ++ piece, l, r)
    | None => None
    end.
Proof.
  intros Hlast Hc Htail. revert p.
  induction s as [|x s IH]; intros p; [done|].
  rewrite (split_pattern_search_unfold p (x :: s)).
  destruct (split_pattern_at p (x :: s)) as [[l r]|] eqn:Hat; [done|].
  destruct (split_pattern_search (Some x) s) as [[[piece l] r]|] eqn:Hs; [done|].
  intros _.
  rewrite (split_pattern_search_unfold p ((x :: s) ++ tail)).
  rewrite (split_pattern_at_none _ _ _ c) by done.
  rewrite <- app_comm_cons.
  destruct s as [|y s].
  - simpl in Hlast. injection Hlast as ->. simpl.
    by destruct (split_pattern_search (Some c) tail) as [[[piece l] r]|].
  - rewrite last_cons_cons in Hlast. rewrite (IH Hlast _ Hs).
    by destruct (split_pattern_search (Some c) tail) as [[[piece l] r]|].
Qed.


(** *** Separators *)

Lemma lower_char_inv c a :
  a ∈ str "andor" → lower_char c = a →
  c = a ∨ c = ascii_of_N (code a - 32).
Proof.
  intros Ha Hc. subst a.
  destruct c as [[] [] [] [] [] [] [] []];
    first [ by left | by right
          | exfalso; apply list_elem_of_In in Ha; vm_compute in Ha;
            intuition discriminate ].
Qed.

Lemma spaces_blank p b c r :
  blank b → is_space c = false →
  spaces p (b ++ c :: r) = (from_option Some p (last b), c :: r).
Proof.
  intros Hb Hc. revert p. induction Hb as [|x b Hx Hb IH]; intros p; simpl.
  - by rewrite Hc.
  - rewrite Hx, IH. destruct b as [|y b]; [done|]. rewrite last_cons_cons.
    destruct (last (y :: b)) eqn:E; [done|]. by apply last_None in E.
Qed.

Lemma blank_last b l : blank b → last b = Some l → is_word l = false.
Proof.
  intros Hb Hl. apply space_not_word. unfold blank in Hb.
  rewrite Forall_forall in Hb. apply Hb. by eapply last_Some_elem_of.
Qed.

Lemma delimiter_symbol p core tail :
  symbol_core core →
  ∃ l, core = [l] ∧ delimiter p (core ++ tail) = Some (l, tail)
       ∧ is_word l = false ∧ is_space l = false.
Proof.
  intros [-> | [-> | [-> | ->]]]; eexists; (split; [reflexivity|]);
    (split; [|by vm_compute]); try reflexivity.
  unfold delimiter, bounded_word, str. simpl.
  by destruct (word_boundary p (Some "+"%char)).
Qed.

Lemma delimiter_word p core t tail :
  word_core core → is_word_opt p = false → is_word t = false →
  ∃ x l, head core = Some x ∧ is_space x = false
         ∧ delimiter p (core ++ t :: tail) = Some (l, t :: tail)
         ∧ is_word l = true.
Proof.
  intros Hcore Hp Ht. unfold word_core, lower, str in Hcore. simpl in Hcore.
  destruct Hcore as [Hcore|Hcore].
  - destruct core as [|x [|y [|z [|? ?]]]]; try done.
    injection Hcore as Hx Hy Hz.
    apply lower_char_inv in Hx as [->| ->]; [| |apply list_elem_of_In; simpl; tauto].
    all: apply lower_char_inv in Hy as [->| ->]; [| |apply list_elem_of_In; simpl; tauto].
    all: apply lower_char_inv in Hz as [->| ->]; [| |apply list_elem_of_In; simpl; tauto].
    all: eexists _, _; split; [reflexivity|]; split; [by vm_compute|].
    all: unfold delimiter, bounded_word, word_boundary, str; simpl.
    all: rewrite Hp, Ht; simpl; by split.
  - destruct core as [|x [|y [|? ?]]]; try done.
    injection Hcore as Hx Hy.
    apply lower_char_inv in Hx as [->| ->]; [| |apply list_elem_of_In; simpl; tauto].
    all: apply lower_char_inv in Hy as [->| ->]; [| |apply list_elem_of_In; simpl; tauto].
    all: eexists _, _; split; [reflexivity|]; split; [by vm_compute|].
    all: unfold delimiter, bounded_word, word_boundary, str; simpl.
    all: rewrite Hp, Ht; simpl; by split.
Qed.


(** A separator between two names is one match of the pattern, up to the
    first character of the next name; it starts and ends with a character
    that is not a word character. *)
Lemma separator_matches p sep c rest :
  spaced_separator sep → is_space c = false →
  inert (sep_text sep ++ c :: rest)
  ∧ ∃ l, split_pattern_at p (sep_text sep ++ c :: rest) = Some (l, c :: rest)
         ∧ is_word l = false.
Proof.
  destruct sep as [b core a]. unfold spaced_separator, supported_separator, sep_text.
  simpl. intros [(Hb & Ha & Hcore) Hspaced] Hc.
  rewrite <- !app_assoc.
  assert (∀ l0, is_word (from_option id l0
                           (from_option Some (Some l0) (last a))) = false
                ∨ a = []) as Hlast.
  { intros l0. destruct (last a) as [la|] eqn:Hla.
    - left. simpl. by eapply blank_last.
    - right. by apply last_None. }
  destruct Hcore as [Hsym|Hword].
  - destruct (delimiter_symbol (from_option Some p (last b)) core
                (a ++ c :: rest) Hsym) as (l0 & -> & Hd & Hw0 & Hs0).
    split.
    + destruct b as [|x b]; simpl; [done|].
      apply space_not_word. by inversion Hb.
    + unfold split_pattern_at. cbn [app] in *.
      rewrite spaces_blank, Hd, spaces_blank by done.
      eexists. split; [done|].
      destruct (Hlast l0) as [?| ->]; done.
  - destruct (Hspaced Hword) as [Hbne Hane].
    destruct b as [|x b]; [done|]. destruct a as [|t a]; [done|].
    assert (is_word t = false) as Ht
      by (apply space_not_word; by inversion Ha).
    destruct (last (x :: b)) as [lb|] eqn:Hlb; [|by apply last_None in Hlb].
    destruct (delimiter_word (Some lb) core t (a ++ c :: rest) Hword)
      as (y & l & Hy & Hsy & Hd & Hl);
      [by apply (blank_last (x :: b))|done|].
    destruct core as [|y' core]; [done|]. injection Hy as ->.
    split; [simpl; apply space_not_word; by inversion Hb|].
    unfold split_pattern_at. cbn [app] in *.
    rewrite (app_comm_cons b _ x), (spaces_blank p (x :: b) y) by done.
    rewrite Hlb. simpl from_option. rewrite Hd.
    rewrite (app_comm_cons a _ t), spaces_blank by done.
    eexists. split; [done|].
    destruct (Hlast l) as [?|?]; done.
Qed.

(** *** Splitting a list of names *)

Lemma clean_name_strip n :
  clean_name n → n ≠ [] ∧ strip n = n.
Proof.
  intros ((c & Hhead & Hc) & (c' & Hlast & Hc') & _).
  split; [by destruct n|].
  assert (∀ s x, head s = Some x → is_space x = false → lstrip s = s) as Hl.
  { intros [|y s] x; [done|]. simpl. by intros [= ->] ->. }
  unfold strip, rstrip. rewrite (Hl n c) by done.
  rewrite (Hl (reverse n) c'), reverse_involutive; [done| |done].
  by rewrite head_reverse.
Qed.

Lemma split_loop_names fuel p first rest :
  length rest ≤ fuel → is_word_opt p = false →
  clean_name first →
  Forall (λ sn, spaced_separator sn.1 ∧ clean_name sn.2) rest →
  split_loop fuel p (join_names first rest) = first :: rest.*2.
Proof.
  intros Hfuel Hp Hfirst Hrest. revert fuel p first Hfuel Hp Hfirst.
  induction Hrest as [|[sep n] rest [Hsep Hn] Hrest IH];
    intros fuel p first Hfuel Hp Hfirst.
  - simpl. destruct fuel as [|fuel]; [done|]. simpl.
    destruct Hfirst as (_ & _ & _ & Hnone).
    by rewrite (split_pattern_search_prev p None), Hnone.
  - destruct fuel as [|fuel]; [simpl in Hfuel; lia|].
    simpl in *.
    destruct Hfirst as (_ & (c & Hlast & Hc) & _ & Hnone).
    assert (∃ x r, join_names n rest = x :: r ∧ is_space x = false)
      as (x & r & Hjoin & Hx).
    { destruct Hn as ((x & Hhead & Hx) & _).
      destruct n as [|x' n]; [done|]. injection Hhead as ->.
      destruct rest as [|[s' n'] rest]; simpl; eauto. }
    rewrite Hjoin.
    destruct (separator_matches (Some c) sep x r Hsep Hx)
      as (Htail & l & Hat & Hl).
    rewrite (split_pattern_search_none p first _ c Hlast Hc Htail)
      by (by rewrite (split_pattern_search_prev p None)).
    rewrite (split_pattern_search_unfold (Some c)), Hat.
    rewrite app_nil_r, <- Hjoin. f_equal.
    apply IH; [lia|done..].
Qed.


Lemma sep_text_shape sep :
  supported_separator sep → sep_text sep ≠ [] ∧ ")"%char ∉ sep_text sep.
Proof.
  destruct sep as [b core a]. unfold supported_separator, sep_text. simpl.
  intros (Hb & Ha & Hcore).
  assert (∀ s, blank s → ")"%char ∉ s) as Hblank.
  { intros s Hs Hin. unfold blank in Hs. rewrite Forall_forall in Hs.
    by apply Hs in Hin. }
  assert (core ≠ [] ∧ ")"%char ∉ core) as [Hne Hno].
  { destruct Hcore as [[-> | [-> | [-> | ->]]]|Hword].
    1-4: split; [done|]; intros Hin; apply list_elem_of_In in Hin;
         vm_compute in Hin; intuition discriminate.
    split.
    - intros ->. by destruct Hword.
    - intros Hin.
      assert (lower_char ")"%char ∈ lower core) as Hl
        by (by apply list_elem_of_fmap_2).
      destruct Hword as [Hw|Hw]; rewrite Hw in Hl;
        apply list_elem_of_In in Hl; vm_compute in Hl; intuition discriminate. }
  split.
  - intros [_ [? _]%app_eq_nil]%app_eq_nil. done.
  - rewrite !elem_of_app.
    intros [?|[?|?]]; [by apply (Hblank b)|done|by apply (Hblank a)].
Qed.

Lemma join_names_shape first rest :
  clean_name first →
  Forall (λ sn, spaced_separator sn.1 ∧ clean_name sn.2) rest →
  join_names first rest ≠ [] ∧ (")"%char ∉ join_names first rest)
  ∧ length rest ≤ length (join_names first rest).
Proof.
  intros Hfirst Hrest. revert first Hfirst.
  induction Hrest as [|[sep n] rest [[Hsep _] Hn] Hrest IH]; intros first Hfirst.
  - simpl. destruct Hfirst as ((c & Hc & _) & _ & Hno & _).
    split; [by destruct first|]. split; [done|lia].
  - simpl in *. destruct (IH n Hn) as (Hne & Hno & Hlen).
    destruct (sep_text_shape sep Hsep) as [Hsne Hsno].
    destruct Hfirst as (_ & _ & Hfno & _).
    split; [|split].
    + intros [_ [? _]%app_eq_nil]%app_eq_nil. done.
    + rewrite !elem_of_app. by intros [?|[?|?]].
    + rewrite !length_app. destruct (sep_text sep); [done|]. simpl. lia.
Qed.

Lemma tokens_join_names first rest :
  clean_name first →
  Forall (λ sn, spaced_separator sn.1 ∧ clean_name sn.2) rest →
  tokens (join_names first rest) = first :: rest.*2.
Proof.
  intros Hfirst Hrest. unfold tokens, split_pattern.
  destruct (join_names_shape first rest Hfirst Hrest) as (_ & _ & Hlen).
  rewrite split_loop_names by done.
  assert (Forall clean_name (first :: rest.*2)) as Hall.
  { constructor; [done|]. apply Forall_fmap.
    eapply Forall_impl; [exact Hrest|]. by intros ? [_ ?]. }
  clear Hfirst Hrest Hlen.
  induction Hall as [|n names Hn Hall IH]; [done|].
  destruct (clean_name_strip n Hn) as [Hne Hstrip].
  rewrite fmap_cons, Hstrip, filter_cons_True by done. by rewrite IH.
Qed.


(** C1, as the code has it.  Names that read back as themselves (no
    whitespace at either end, no closing parenthesis, no delimiter inside),
    joined with any mix of the supported delimiters in which the words [and]
    and [or] are set off by whitespace on both sides, are recovered exactly
    and in order from the parenthesized list. *)
Theorem parse_recovers_clean_names (first : text)
    (rest : list (Separator * text)) (question : text) :
  clean_name first →
  Forall (λ sn, spaced_separator sn.1 ∧ clean_name sn.2) rest →
  parse_lenders_and_question
    ("("%char :: join_names first rest ++ ")"%char :: question)
  = (first :: rest.*2, strip question)
  ∧ length (parse_lenders_and_question
              ("("%char :: join_names first rest ++ ")"%char :: question)).1
    = S (length rest).
Proof.
  intros Hfirst Hrest.
  destruct (join_names_shape first rest Hfirst Hrest) as (Hne & Hno & _).
  assert (parse_lenders_and_question
            ("("%char :: join_names first rest ++ ")"%char :: question)
          = (first :: rest.*2, strip question)) as Hparse.
  { unfold parse_lenders_and_question.
    pose proof (paren_search_first [] (join_names first rest) question
                  eq_refl Hne Hno) as Hsearch.
    rewrite app_nil_l in Hsearch. rewrite Hsearch.
    by rewrite tokens_join_names. }
  split; [done|]. rewrite Hparse. simpl. by rewrite length_fmap.
Qed.

End Parse.

Lemma parse_recovers_clean_names_witness :
  parse_lenders_and_question
    (str "(Acme Capital AND Sandor Funding/ Oregon LLC+x) minimum FICO?")
  = ([str "Acme Capital"; str "Sandor Funding"; str "Oregon LLC"; str "x"],
     str "minimum FICO?").
Proof.
  assert (∀ n c c', head n = Some c → last n = Some c' →
            Text.is_space c = false → Text.is_space c' = false →
            bool_decide (")"%char ∈ n) = false →
            Regex.split_pattern_search None n = None → clean_name n) as Hclean.
  { intros n c c' ? ? ? ? Hno ?. split; [by exists c|]. split; [by exists c'|].
    split; [|done]. by apply bool_decide_eq_false in Hno. }
  assert (∀ b core a, bool_decide (Forall (λ c, Text.is_space c = true) b) = true →
            bool_decide (Forall (λ c, Text.is_space c = true) a) = true →
            (symbol_core core ∨ (word_core core ∧ b ≠ [] ∧ a ≠ [])) →
            spaced_separator (mkSep b core a)) as Hsep.
  { intros b core a Hb%bool_decide_eq_true Ha%bool_decide_eq_true Hcore.
    split; [split; [done|split; [done|]]|]; simpl.
    - destruct Hcore as [?|[? _]]; tauto.
    - intros Hw. destruct Hcore as [Hs|[_ ?]]; [|done].
      exfalso. destruct Hw as [Hw|Hw], Hs as [-> | [-> | [-> | ->]]];
        discriminate Hw. }
  destruct (parse_recovers_clean_names (str "Acme Capital")
              [(mkSep (str " ") (str "AND") (str " "), str "Sandor Funding");
               (mkSep [] (str "/") (str " "), str "Oregon LLC");
               (mkSep [] (str "+") [], str "x")]
              (str " minimum FICO?")) as [Hparse _]; [| |exact Hparse].
  - eapply Hclean; reflexivity.
  - constructor; [split; simpl|constructor; [split; simpl|constructor;
      [split; simpl|constructor]]].
    + apply Hsep; [reflexivity..|]. right. split; [by left|done].
    + eapply Hclean; reflexivity.
    + apply Hsep; [reflexivity..|]. left. unfold symbol_core. tauto.
    + eapply Hclean; reflexivity.
    + apply Hsep; [reflexivity..|]. left. unfold symbol_core. tauto.
    + eapply Hclean; reflexivity.
Defined.

(** C1 as stated does not hold for every mix of the delimiters with
    optional whitespace: the names [a] and [b] joined by the word [and]
    with no whitespace give [aandb], which is read back as one name. *)
Lemma parse_recovers_clean_names_counterexample :
  supported_separator (mkSep [] (str "and") [])
  ∧ join_names (str "a") [(mkSep [] (str "and") [], str "b")] = str "aandb"
  ∧ (parse_lenders_and_question (str "(aandb)")).1 = [str "aandb"]
  ∧ [str "aandb"] ≠ [str "a"; str "b"].
Proof.
  split.
  { split; [constructor|]. split; [constructor|]. right. by left. }
  split; [reflexivity|]. split; [vm_compute; reflexivity|discriminate].
Qed.

Lemma later_groups_stay_in_question_witness :
  parse_lenders_and_question
    (str "() for (acme & beta) the rates (SBA loans) please")
  = ([str "acme"; str "beta"], str "() for  the rates (SBA loans) please")
  ∧ Text.contains (str "(SBA loans)")
      (parse_lenders_and_question
         (str "() for (acme & beta) the rates (SBA loans) please")).2.
Proof.
  destruct (later_groups_stay_in_question (str "() for ") (str "acme & beta")
              (str " the rates ") (str "SBA loans") (str " please"))
    as (Hparse & _ & Hgroup).
  - reflexivity.
  - discriminate.
  - intros Hin. apply list_elem_of_In in Hin. vm_compute in Hin.
    intuition discriminate.
  - split; [|exact Hgroup]. etrans; [exact Hparse|]. vm_compute. reflexivity.
Defined.

(** ** Text and keys *)
(** ** Stripping and lower-casing *)
Section TextFacts.

Import Text.

Lemma lstrip_head s c : head (lstrip s) = Some c → is_space c = false.
Proof.
  induction s as [|x s IH]; [done|]. simpl.
  destruct (is_space x) eqn:Hx; [done|]. simpl. by intros [= <-].
Qed.

Lemma lstrip_fixed s c : head s = Some c → is_space c = false → lstrip s = s.
Proof. destruct s as [|x s]; [done|]. simpl. by intros [= ->] ->. Qed.

(** [lstrip] only removes whitespace from the front. *)
Lemma lstrip_split s : ∃ b, blank b ∧ s = b ++ lstrip s.
Proof.
  induction s as [|x s (b & Hb & Hs)]; [exists []; by split; [constructor|]|].
  simpl. destruct (is_space x) eqn:Hx.
  - exists (x :: b). split; [by constructor|]. simpl. by rewrite <- Hs.
  - exists []. by split; [constructor|].
Qed.

Lemma lstrip_last s c : last (lstrip s) = Some c → last s = Some c.
Proof.
  destruct (lstrip_split s) as (b & _ & Hs). intros Hl.
  rewrite Hs, last_app, Hl. done.
Qed.

Lemma blank_reverse b : blank b → blank (reverse b).
Proof. unfold blank. by rewrite Forall_reverse. Qed.

(** [strip] removes whitespace from both ends and nothing else. *)
Lemma strip_split s : ∃ b a, blank b ∧ blank a ∧ s = b ++ strip s ++ a.
Proof.
  destruct (lstrip_split s) as (b & Hb & Hs).
  destruct (lstrip_split (reverse (lstrip s))) as (a & Ha & Hr).
  exists b, (reverse a). split; [done|]. split; [by apply blank_reverse|].
  unfold strip, rstrip. rewrite <- reverse_app, <- Hr, reverse_involutive.
  done.
Qed.

(** What [strip] returns neither starts nor ends with whitespace. *)
Lemma strip_ends s :
  (∀ c, head (strip s) = Some c → is_space c = false)
  ∧ (∀ c, last (strip s) = Some c → is_space c = false).
Proof.
  unfold strip, rstrip. split; intros c.
  - rewrite head_reverse. intros Hl%lstrip_last.
    rewrite last_reverse in Hl. by apply lstrip_head in Hl.
  - rewrite last_reverse. apply lstrip_head.
Qed.

Lemma strip_fixed s c c' :
  head s = Some c → is_space c = false →
  last s = Some c' → is_space c' = false → strip s = s.
Proof.
  intros Hh Hc Hl Hc'. unfold strip, rstrip.
  rewrite (lstrip_fixed s c) by done.
  rewrite (lstrip_fixed (reverse s) c'), reverse_involutive; [done| |done].
  by rewrite head_reverse.
Qed.

Lemma strip_idemp s : strip (strip s) = strip s.
Proof.
  destruct (strip_ends s) as [Hh Hl].
  destruct (strip s) as [|x t] eqn:Hs; [done|].
  destruct (last (x :: t)) as [y|] eqn:Hy; [|by apply last_None in Hy].
  apply (strip_fixed _ x y); auto.
Qed.

Lemma lower_char_idemp c : lower_char (lower_char c) = lower_char c.
Proof. destruct c as [[] [] [] [] [] [] [] []]; by vm_compute. Qed.

Lemma lower_idemp s : lower (lower s) = lower s.
Proof.
  unfold lower. rewrite <- list_fmap_compose.
  apply list_fmap_ext. intros _ c _. apply lower_char_idemp.
Qed.

End TextFacts.

(** ** Keys and model names *)
Section Normalize.

Import Text.

Lemma kept_lower c :
  in_range 97 122 c || in_range 48 57 c = true → lower_char c = c.
Proof. destruct c as [[] [] [] [] [] [] [] []]; by vm_compute. Qed.

Lemma mark_dropped c :
  is_ascii_mark c = true →
  in_range 97 122 (lower_char c) || in_range 48 57 (lower_char c) = false.
Proof. destruct c as [[] [] [] [] [] [] [] []]; by vm_compute. Qed.

(** X1. Normalizing a key again changes nothing. *)
Theorem normalize_lender_key_idemp (value : text) :
  normalize_lender_key (normalize_lender_key value)
  = normalize_lender_key value.
Proof.
  unfold normalize_lender_key.
  induction (lower value) as [|c s IH]; [done|].
  destruct (in_range 97 122 c || in_range 48 57 c) eqn:Hc.
  - rewrite filter_cons_True by (by apply Is_true_true). unfold lower in *.
    rewrite fmap_cons, kept_lower by done.
    rewrite filter_cons_True by (by apply Is_true_true). by rewrite IH.
  - rewrite filter_cons_False; [done|]. intros H%Is_true_true. congruence.
Qed.

(** X2. The key of a name does not depend on the case of its letters,
    nor on its ASCII characters other than letters and digits (blanks,
    underscores, hyphens, dots and the like): lower-casing the name, or
    dropping those characters from it, gives the same key; and the key of
    two texts put together is their keys put together. *)
Theorem normalize_lender_key_spelling (value other : text) :
  normalize_lender_key (lower value) = normalize_lender_key value
  ∧ normalize_lender_key (filter (λ c, is_ascii_mark c = false) value)
    = normalize_lender_key value
  ∧ normalize_lender_key (value ++ other)
    = normalize_lender_key value ++ normalize_lender_key other.
Proof.
  unfold normalize_lender_key. split; [by rewrite lower_idemp|]. split.
  - induction value as [|c s IH]; [done|]. unfold lower in *.
    rewrite fmap_cons.
    destruct (is_ascii_mark c) eqn:Hc.
    + rewrite (filter_cons_False (λ c, is_ascii_mark c = false))
        by (by rewrite Hc).
      rewrite IH, (filter_cons_False _ (lower_char c)); [done|].
      intros H%Is_true_true. by rewrite mark_dropped in H.
    + rewrite (filter_cons_True (λ c, is_ascii_mark c = false)) by done.
      rewrite fmap_cons.
      destruct (in_range 97 122 (lower_char c)
                || in_range 48 57 (lower_char c)) eqn:Hk.
      * rewrite !(filter_cons_True _ (lower_char c)), IH; [done|..];
          by apply Is_true_true.
      * rewrite !(filter_cons_False _ (lower_char c)), IH; [done|..];
          intros H%Is_true_true; congruence.
  - unfold lower. by rewrite fmap_app, filter_app.
Qed.

(** X3. [normalize_model_name] gives the empty name for a blank input;
    otherwise it trims the input and returns it as it is when it has a
    slash, and with [models/] before it when it has none, so that the result
    has a slash.  A name it has produced is left as it is. *)
Theorem normalize_model_name_idemp (value : text) :
  normalize_model_name (normalize_model_name value)
  = normalize_model_name value
  ∧ (strip value = [] → normalize_model_name value = [])
  ∧ (strip value ≠ [] → "/"%char ∈ normalize_model_name value)
  ∧ ("/"%char ∈ strip value → normalize_model_name value = strip value)
  ∧ (strip value ≠ [] → "/"%char ∉ strip value →
     normalize_model_name value = str "models/" ++ strip value).
Proof.
  unfold normalize_model_name.
  destruct (strip_ends value) as [Hh Hl].
  pose proof (strip_idemp value) as Hid.
  destruct (strip value) as [|x n] eqn:Hs; [done|].
  cbv zeta. rewrite (bool_decide_eq_false_2 (x :: n = [])) by done.
  cbv iota. destruct (decide ("/"%char ∈ x :: n)) as [Hslash|Hslash].
  - rewrite (bool_decide_eq_false_2 ("/"%char ∉ x :: n)) by (by intros H).
    cbv iota. rewrite Hid, (bool_decide_eq_false_2 (x :: n = [])) by done.
    cbv iota. by rewrite (bool_decide_eq_false_2 ("/"%char ∉ x :: n))
      by (by intros H).
  - rewrite (bool_decide_eq_true_2 ("/"%char ∉ x :: n)) by done. cbv iota.
    assert (strip (str "models/" ++ x :: n) = str "models/" ++ x :: n) as Hfix.
    { destruct (last (x :: n)) as [y|] eqn:Hy; [|by apply last_None in Hy].
      apply (strip_fixed _ "m" y); [done|done| |by apply Hl].
      by rewrite last_app, Hy. }
    assert ("/"%char ∈ str "models/" ++ x :: n) as Hin.
    { apply elem_of_app. left. apply list_elem_of_In. vm_compute. tauto. }
    rewrite Hfix, (bool_decide_eq_false_2 (_ = [])) by done. cbv iota.
    by rewrite (bool_decide_eq_false_2 ("/"%char ∉ _)) by (by intros H).
Qed.

End Normalize.

Lemma normalize_model_name_idemp_witness :
  "/"%char ∈ normalize_model_name (str " gemini-1.5-flash ")
  ∧ normalize_model_name (str "tunedModels/lex ") = str "tunedModels/lex"
  ∧ normalize_model_name (str "   ") = []
  ∧ normalize_model_name (str " gemini-1.5-flash ")
    = str "models/gemini-1.5-flash".
Proof.
  split; [|split; [|split]].
  - apply (proj1 (proj2 (proj2
             (normalize_model_name_idemp (str " gemini-1.5-flash "))))).
    discriminate.
  - apply (proj1 (proj2 (proj2 (proj2
             (normalize_model_name_idemp (str "tunedModels/lex ")))))).
    apply list_elem_of_In. vm_compute. tauto.
  - apply (proj1 (proj2 (normalize_model_name_idemp (str "   ")))).
    reflexivity.
  - apply (proj2 (proj2 (proj2 (proj2
             (normalize_model_name_idemp (str " gemini-1.5-flash ")))))).
    + discriminate.
    + intros Hin. apply list_elem_of_In in Hin. vm_compute in Hin.
      intuition discriminate.
Defined.

(** ** More on the parser *)
Section ParseMore.

Import Text Regex.

Lemma group_body_Some s g post :
  group_body s = Some (g, post) →
  s = g ++ ")"%char :: post ∧ g ≠ [] ∧ ")"%char ∉ g.
Proof.
  revert g post. induction s as [|c s IH]; intros g post; [done|].
  destruct (decide (c = ")"%char)) as [->|Hc]; [done|].
  rewrite group_body_cons by done.
  destruct s as [|c' s]; [done|]. case_bool_decide as Hc'.
  - intros [= <- <-]. subst c'. split; [done|]. split; [done|].
    by intros [?|?%elem_of_nil]%elem_of_cons.
  - destruct (group_body (c' :: s)) as [[g' post']|]; [|done].
    intros [= <- <-]. destruct (IH g' post' eq_refl) as (-> & Hne & Hno).
    split; [done|]. split; [done|]. by intros [?|?]%elem_of_cons.
Qed.

Lemma group_body_None s :
  group_body s = None →
  s = [] ∨ head s = Some ")"%char ∨ ")"%char ∉ s.
Proof.
  induction s as [|c s IH]; [by left|]. intros Hg. right.
  destruct (decide (c = ")"%char)) as [->|Hc]; [by left|].
  rewrite group_body_cons in Hg by done. right.
  destruct s as [|c' s].
  - by intros [?|?%elem_of_nil]%elem_of_cons.
  - case_bool_decide as Hc'; [done|].
    destruct (group_body (c' :: s)) as [[g' post']|]; [done|].
    destruct (IH eq_refl) as [?|[[= ?]|Hno]]; [done..|].
    by intros [?|?]%elem_of_cons.
Qed.

Lemma paren_search_unfold c r :
  paren_search (c :: r)
  = if bool_decide (c = "("%char) then
      match group_body r with
      | Some (g, post) => Some ([], g, post)
      | None =>
          match paren_search r with
          | Some (pre, g, post) => Some (c :: pre, g, post)
          | None => None
          end
      end
    else match paren_search r with
         | Some (pre, g, post) => Some (c :: pre, g, post)
         | None => None
         end.
Proof. done. Qed.

(** What the search returns is the first group of the input. *)
Lemma paren_search_Some s pre g post :
  paren_search s = Some (pre, g, post) →
  s = pre ++ "("%char :: g ++ ")"%char :: post
  ∧ g ≠ [] ∧ (")"%char ∉ g) ∧ no_group pre = true.
Proof.
  revert pre. induction s as [|c s IH]; intros pre; [done|].
  rewrite paren_search_unfold.
  assert (∀ pre',
            paren_search s = Some (pre', g, post) → c ≠ "("%char →
            c :: s = (c :: pre') ++ "("%char :: g ++ ")"%char :: post
            ∧ g ≠ [] ∧ (")"%char ∉ g) ∧ no_group (c :: pre') = true) as Hnext.
  { intros pre' (-> & Hne & Hno & Hpre)%IH Hc. split; [done|].
    split; [done|]. split; [done|]. simpl.
    by rewrite bool_decide_eq_false_2. }
  case_bool_decide as Hc.
  - subst c. destruct (group_body s) as [[g' post']|] eqn:Hg.
    + intros [= <- <- <-]. by apply group_body_Some in Hg as (-> & ? & ?).
    + destruct (paren_search s) as [[[pre' g'] post']|] eqn:Hs; [|done].
      intros [= <- <- <-].
      destruct (IH pre' eq_refl) as (-> & Hne & Hno & Hpre).
      split; [done|]. split; [done|]. split; [done|].
      apply group_body_None in Hg as [Hg|[Hg|Hg]].
      * by destruct pre'.
      * destruct pre' as [|x pre']; [done|]. injection Hg as ->.
        simpl. simpl in Hpre. by rewrite Hpre.
      * exfalso. apply Hg. rewrite elem_of_app. right.
        rewrite elem_of_cons, elem_of_app. right. right. by left.
  - destruct (paren_search s) as [[[pre' g'] post']|] eqn:Hs; [|done].
    intros [= <- <- <-]. by apply Hnext.
Qed.

Lemma group_body_unclosed s : ")"%char ∉ s → group_body s = None.
Proof.
  induction s as [|c s IH]; [done|].
  intros [Hc Hs]%not_elem_of_cons. rewrite group_body_cons by done.
  destruct s as [|c' s]; [done|].
  apply not_elem_of_cons in Hs as Hs'. destruct Hs' as [Hc' _].
  rewrite bool_decide_eq_false_2 by done. by rewrite IH.
Qed.

Lemma paren_search_None s :
  "("%char ∉ s ∨ ")"%char ∉ s → paren_search s = None.
Proof.
  induction s as [|c s IH]; [done|]. intros H.
  rewrite paren_search_unfold.
  assert (paren_search s = None) as ->.
  { apply IH. destruct H as [H|H]; apply not_elem_of_cons in H; tauto. }
  case_bool_decide as Hc; [|done]. subst c.
  destruct H as [H|H]; [by apply not_elem_of_cons in H as [? _]|].
  apply not_elem_of_cons in H as [_ H]. by rewrite group_body_unclosed.
Qed.

(** X4. An input without an opening parenthesis, or without a closing
    one, has no lenders, and its question is the whole input, trimmed. *)
Theorem parse_without_group (raw_input : text) :
  "("%char ∉ raw_input ∨ ")"%char ∉ raw_input →
  parse_lenders_and_question raw_input = ([], strip raw_input).
Proof.
  intros H. unfold parse_lenders_and_question.
  by rewrite paren_search_None.
Qed.

(** X5. The parser either finds no group, and then returns no lenders and
    the trimmed input, or it cuts the input around its first group: the
    input is the text before, the group in parentheses and the text after;
    the inside of the group is not empty and has no closing parenthesis; no
    group starts earlier; the lenders are the tokens of the inside and the
    question is the text before and after, joined and trimmed. *)
Theorem parse_cuts_first_group (raw_input : text) :
  (paren_search raw_input = None
   ∧ parse_lenders_and_question raw_input = ([], strip raw_input))
  ∨ ∃ before segment after,
      raw_input = before ++ "("%char :: segment ++ ")"%char :: after
      ∧ segment ≠ [] ∧ (")"%char ∉ segment) ∧ no_group before = true
      ∧ parse_lenders_and_question raw_input
        = (tokens segment, strip (before ++ after)).
Proof.
  unfold parse_lenders_and_question.
  destruct (paren_search raw_input) as [[[before segment] after]|] eqn:Hs.
  - right. exists before, segment, after.
    by apply paren_search_Some in Hs as (? & ? & ? & ?).
  - by left.
Qed.

(** *** What a token can hold *)

Lemma symbol_matches p c r :
  is_symbol c = true → is_Some (split_pattern_at p (c :: r)).
Proof.
  intros Hc.
  assert (symbol_core [c]) as Hcore.
  { unfold is_symbol in Hc. unfold symbol_core.
    repeat (apply orb_prop in Hc as [Hc|Hc]);
      apply bool_decide_eq_true in Hc; subst c; tauto. }
  destruct (delimiter_symbol p [c] r Hcore) as (l & [= <-] & Hd & _ & Hs).
  unfold split_pattern_at. simpl spaces. rewrite Hs. cbn [app] in Hd.
  rewrite Hd. destruct (spaces (Some c) r). by eexists.
Qed.

Lemma spaces_suffix p s : (spaces p s).2 `suffix_of` s.
Proof.
  revert p. induction s as [|c s IH]; intros p; simpl; [done|].
  destruct (is_space c); [|done]. by apply suffix_cons_r.
Qed.

Lemma literal_nocase_suffix w last s l r :
  literal_nocase w last s = Some (l, r) → r `suffix_of` s.
Proof.
  revert last s. induction w as [|a w IH]; intros last s; simpl.
  - by intros [= _ ->].
  - destruct s as [|c s]; [done|]. case_bool_decide; [|done].
    intros ?%IH. by apply suffix_cons_r.
Qed.

Lemma bounded_word_suffix w p s l r :
  bounded_word w p s = Some (l, r) → r `suffix_of` s.
Proof.
  unfold bounded_word. destruct (word_boundary p (head s)); [|done].
  destruct s as [|c s]; [done|].
  destruct (literal_nocase w c (c :: s)) as [[l' r']|] eqn:Hlit; [|done].
  destruct (word_boundary (Some l') (head r')); [|done].
  intros [= _ <-]. by eapply literal_nocase_suffix.
Qed.

Lemma delimiter_suffix p s l r :
  delimiter p s = Some (l, r) → r `suffix_of` s.
Proof.
  unfold delimiter. destruct s as [|c s]; [done|].
  repeat (case_bool_decide; [intros [= _ <-]; by apply suffix_cons_r|]).
  destruct (bounded_word (str "and") p (c :: s)) as [[l' r']|] eqn:Hand.
  { intros [= _ <-]. by eapply bounded_word_suffix. }
  destruct (bounded_word (str "or") p (c :: s)) as [[l' r']|] eqn:Hor.
  { intros [= _ <-]. by eapply bounded_word_suffix. }
  case_bool_decide; [|done]. intros [= _ <-]. by apply suffix_cons_r.
Qed.

Lemma split_pattern_at_suffix p s l r :
  split_pattern_at p s = Some (l, r) → r `suffix_of` s.
Proof.
  unfold split_pattern_at. pose proof (spaces_suffix p s) as H1.
  destruct (spaces p s) as [p' s']. simpl in H1.
  destruct (delimiter p' s') as [[l' r']|] eqn:Hd; [|done].
  apply delimiter_suffix in Hd. pose proof (spaces_suffix (Some l') r') as H2.
  destruct (spaces (Some l') r') as [l'' r'']. simpl in H2.
  intros [= _ <-]. by repeat (etrans; [eassumption|]).
Qed.

(** The text before a match, and a text without a match, have none of the
    four delimiter characters; the text before and the text after a match
    are parts of the text searched. *)
Lemma split_pattern_search_parts p s :
  match split_pattern_search p s with
  | Some (piece, _, r) =>
      Forall (λ c, is_symbol c = false) piece
      ∧ piece `prefix_of` s ∧ r `suffix_of` s
  | None => Forall (λ c, is_symbol c = false) s
  end.
Proof.
  revert p. induction s as [|c s IH]; intros p;
    rewrite split_pattern_search_unfold.
  - destruct (split_pattern_at p []) as [[l r]|] eqn:Hat; [|done].
    apply split_pattern_at_length in Hat. simpl in Hat. lia.
  - destruct (split_pattern_at p (c :: s)) as [[l r]|] eqn:Hat.
    + split; [done|]. split; [apply prefix_nil|].
      by eapply split_pattern_at_suffix.
    + assert (is_symbol c = false) as Hc.
      { destruct (is_symbol c) eqn:Hc; [|done].
        destruct (symbol_matches p c s Hc) as [? Hm]. congruence. }
      specialize (IH (Some c)).
      destruct (split_pattern_search (Some c) s) as [[[piece l] r]|].
      * destruct IH as (Hp & Hpre & Hsuf). split; [by constructor|].
        split; [by apply prefix_cons|by apply suffix_cons_r].
      * by constructor.
Qed.

Lemma split_loop_pieces fuel p s piece :
  length s ≤ fuel → piece ∈ split_loop fuel p s →
  Forall (λ c, is_symbol c = false) piece ∧ piece ⊆ s.
Proof.
  revert p s. induction fuel as [|fuel IH]; intros p s Hfuel; simpl.
  - destruct s; [|simpl in Hfuel; lia].
    intros ->%list_elem_of_singleton. by split.
  - pose proof (split_pattern_search_parts p s) as Hparts.
    destruct (split_pattern_search p s) as [[[piece' l] r]|] eqn:Hs.
    + destruct Hparts as (Hsym & [k1 Hpre] & [k2 Hsuf]).
      apply split_pattern_search_length in Hs.
      intros [->|Hin]%elem_of_cons.
      * split; [done|]. intros x Hx. rewrite Hpre, elem_of_app. by left.
      * destruct (IH (Some l) r ltac:(lia) Hin) as [? Hsub].
        split; [done|]. intros x Hx. rewrite Hsuf, elem_of_app. right.
        by apply Hsub.
    + intros ->%list_elem_of_singleton. by split.
Qed.

(** X6. Every lender the parser returns is a non-empty text without
    whitespace at either end, and holds none of the characters comma, slash,
    ampersand, plus and closing parenthesis; the question it returns is
    trimmed. *)
Theorem parsed_lenders_are_tokens (raw_input : text) :
  Forall (λ lender,
            lender ≠ [] ∧ strip lender = lender
            ∧ Forall (λ c, is_symbol c = false ∧ c ≠ ")"%char) lender)
         (parse_lenders_and_question raw_input).1
  ∧ strip (parse_lenders_and_question raw_input).2
    = (parse_lenders_and_question raw_input).2.
Proof.
  unfold parse_lenders_and_question.
  destruct (paren_search raw_input) as [[[before segment] after]|] eqn:Hs;
    simpl; [|split; [done|apply strip_idemp]].
  split; [|apply strip_idemp].
  apply paren_search_Some in Hs as (_ & _ & Hno & _).
  unfold tokens, split_pattern. apply Forall_forall.
  intros lender [Hne [piece [-> Hin]]%list_elem_of_fmap]%list_elem_of_filter.
  split; [done|]. split; [apply strip_idemp|].
  apply split_loop_pieces in Hin as [Hsym Hsub]; [|done].
  destruct (strip_split piece) as (b & a & _ & _ & Hpiece).
  apply Forall_forall. intros c Hc.
  assert (c ∈ piece) as Hc' by (rewrite Hpiece; set_solver).
  split; [by rewrite Forall_forall in Hsym; apply Hsym|].
  intros ->. by apply Hno, Hsub.
Qed.

(** *** Lenders put in the prompt by the sidebar *)

Lemma join_comma_names first others :
  join (str ", ") (first :: others)
  = join_names first ((λ n, (mkSep [] (str ",") (str " "), n)) <$> others).
Proof.
  revert first. induction others as [|n others IH]; intros first; [done|].
  change (join (str ", ") (first :: n :: others))
    with (first ++ str ", " ++ join (str ", ") (n :: others)).
  by rewrite IH.
Qed.

Lemma comma_separator : spaced_separator (mkSep [] (str ",") (str " ")).
Proof.
  split; [split; [constructor|split; [by repeat constructor|]]|]; simpl.
  - left. by left.
  - intros [H|H]; discriminate H.
Qed.

(** X7. The text [format_lenders_for_input] makes of one or more names
    that read back as themselves, followed by any text, parses back to these
    names, in their order, and to that text, trimmed. *)
Theorem format_then_parse (first : text) (others : list text)
    (question : text) :
  Forall clean_name (first :: others) →
  parse_lenders_and_question
    (format_lenders_for_input (first :: others) ++ question)
  = (first :: others, strip question).
Proof.
  intros [Hfirst Hothers]%Forall_cons.
  set (rest := (λ n, (mkSep [] (str ",") (str " "), n)) <$> others).
  assert (Forall (λ sn, spaced_separator sn.1 ∧ clean_name sn.2) rest)
    as Hrest.
  { unfold rest. apply Forall_fmap. eapply Forall_impl; [exact Hothers|].
    intros n Hn. split; [apply comma_separator|done]. }
  destruct (join_names_shape first rest Hfirst Hrest) as (Hne & Hno & _).
  unfold format_lenders_for_input. rewrite join_comma_names. fold rest.
  unfold parse_lenders_and_question.
  pose proof (paren_search_first [] (join_names first rest) question
                eq_refl Hne Hno) as Hsearch.
  rewrite app_nil_l in Hsearch.
  change (str "(" ++ join_names first rest ++ str ")")
    with ("("%char :: join_names first rest ++ [")"%char]).
  rewrite <- app_comm_cons, <- app_assoc. simpl app at 2.
  rewrite Hsearch, tokens_join_names by done.
  f_equal. f_equal. unfold rest. rewrite <- list_fmap_compose.
  by rewrite list_fmap_id.
Qed.

End ParseMore.

Lemma parse_without_group_witness :
  parse_lenders_and_question (str " trucking (rates? ")
  = ([], str "trucking (rates?").
Proof.
  apply (parse_without_group (str " trucking (rates? ")).
  right. intros Hin. apply list_elem_of_In in Hin. vm_compute in Hin.
  intuition discriminate.
Defined.

Lemma format_then_parse_witness :
  parse_lenders_and_question (str "(Acme Capital, b c) minimum FICO?")
  = ([str "Acme Capital"; str "b c"], str "minimum FICO?").
Proof.
  assert (∀ n c c', head n = Some c → last n = Some c' →
            Text.is_space c = false → Text.is_space c' = false →
            bool_decide (")"%char ∈ n) = false →
            Regex.split_pattern_search None n = None → clean_name n) as Hclean.
  { intros n c c' ? ? ? ? Hno ?. split; [by exists c|]. split; [by exists c'|].
    split; [|done]. by apply bool_decide_eq_false in Hno. }
  apply (format_then_parse (str "Acme Capital") [str "b c"]
           (str " minimum FICO?")).
  constructor; [|constructor; [|constructor]]; eapply Hclean; reflexivity.
Defined.

(** ** Files and the lenders that find them *)
Section IndexMore.

Import Text PathOps.

Lemma before_char_app stop a b :
  stop ∉ a → before_char stop (a ++ stop :: b) = a.
Proof.
  induction a as [|c a IH]; simpl.
  - by rewrite bool_decide_eq_true_2.
  - intros [Hc Ha]%not_elem_of_cons.
    rewrite bool_decide_eq_false_2 by done. by rewrite IH.
Qed.

Lemma name_joinpath dir n : "/"%char ∉ n → name (joinpath dir n) = n.
Proof.
  intros Hn. unfold name, joinpath.
  change (dir ++ str "/" ++ n) with (dir ++ "/"%char :: n).
  rewrite reverse_app, reverse_cons, <- app_assoc. simpl.
  rewrite before_char_app, reverse_involutive; [done|].
  by rewrite elem_of_reverse.
Qed.

(** The stem of a PDF file is its name without the extension. *)
Lemma stem_pdf dir base :
  base ≠ [] → "/"%char ∉ base →
  stem (joinpath dir (base ++ str ".pdf")) = base.
Proof.
  intros Hne Hno. unfold stem.
  rewrite name_joinpath.
  2:{ rewrite elem_of_app. intros [?|Hin]; [done|].
      apply list_elem_of_In in Hin. simpl in Hin.
      repeat destruct Hin as [Hin|Hin]; try discriminate Hin. done. }
  unfold rfind_dot.
  replace (reverse (base ++ str ".pdf"))
    with (str "fdp" ++ "."%char :: reverse base)
    by (by rewrite reverse_app).
  rewrite before_char_app.
  2:{ intros Hin. apply list_elem_of_In in Hin. simpl in Hin.
      repeat destruct Hin as [Hin|Hin]; try discriminate Hin. done. }
  rewrite length_app. change (length (str "fdp")) with 3.
  change (length (str ".pdf")) with 4.
  assert (0 < length base) by (destruct base; [done|simpl; lia]).
  rewrite bool_decide_eq_true_2 by lia.
  replace (length base + 4 - 3 - 1) with (length base + 0) by lia.
  rewrite bool_decide_eq_true_2 by lia.
  by rewrite take_app_add, app_nil_r.
Qed.

Lemma is_pdf_ext base : is_pdf (base ++ str ".pdf") = true.
Proof.
  unfold is_pdf. apply bool_decide_eq_true.
  rewrite length_app. change (length (str ".pdf")) with 4.
  replace (length base + 4 - 4) with (length base + 0) by lia.
  by rewrite drop_app_add.
Qed.

Lemma find_nothing_in_empty lenders :
  find_lender_files lenders ∅ = ([], lenders).
Proof.
  rewrite find_lender_files_eq. f_equal.
  - induction lenders as [|l lenders IH]; [done|]. csimpl.
    by rewrite lookup_empty.
  - induction lenders as [|l lenders IH]; [done|].
    rewrite filter_cons_True, IH; [done|].
    unfold resolves. rewrite lookup_empty. by intros [? ?].
Qed.

(** X8. A PDF file of the directory is found by its stem, however the
    stem is spelled in the query: a token that normalizes as the stem of the
    file [base.pdf] does is matched, with a PDF file of the directory whose
    stem normalizes the same way.  In a directory that does not exist, and
    in one without a PDF file of that key, the token is missing. *)
Theorem indexed_file_is_found (fs : FileSystem) (pdf_dir : Path)
    (lender : text) :
  (∀ entries base,
     fs_listdir fs pdf_dir = Some entries →
     base ++ str ".pdf" ∈ entries → base ≠ [] → "/"%char ∉ base →
     normalize_lender_key lender = normalize_lender_key base →
     ∃ n, n ∈ entries ∧ is_pdf n = true
          ∧ normalize_lender_key (stem (joinpath pdf_dir n))
            = normalize_lender_key lender
          ∧ find_lender_files [lender] (index_lender_pdfs fs pdf_dir)
            = ([(lender, joinpath pdf_dir n)], []))
  ∧ (fs_listdir fs pdf_dir = None →
     ∀ lenders,
       find_lender_files lenders (index_lender_pdfs fs pdf_dir)
       = ([], lenders))
  ∧ (∀ entries,
       fs_listdir fs pdf_dir = Some entries →
       (∀ n, n ∈ entries → is_pdf n = true →
             normalize_lender_key (stem (joinpath pdf_dir n))
             ≠ normalize_lender_key lender) →
       find_lender_files [lender] (index_lender_pdfs fs pdf_dir)
       = ([], [lender])).
Proof.
  set (key := λ n, normalize_lender_key (stem (joinpath pdf_dir n))).
  assert (∀ entries,
            fs_listdir fs pdf_dir = Some entries →
            index_lender_pdfs fs pdf_dir !! normalize_lender_key lender
            = joinpath pdf_dir <$>
                last (filter (λ n, key n = normalize_lender_key lender)
                        (merge_sort name_le
                           (filter (λ n, is_pdf n = true) entries))))
    as Hlookup.
  { intros entries Hdir. unfold index_lender_pdfs, sorted_glob_pdf.
    rewrite Hdir, foldl_fmap.
    rewrite (fold_insert_lookup key (joinpath pdf_dir)).
    by destruct (last _). }
  assert (∀ entries n,
            n ∈ merge_sort name_le (filter (λ n, is_pdf n = true) entries)
            ↔ n ∈ entries ∧ is_pdf n = true) as Hin.
  { intros entries n. rewrite merge_sort_Permutation.
    rewrite list_elem_of_filter. tauto. }
  split; [|split].
  - intros entries base Hdir Hbase Hne Hno Hkey.
    specialize (Hlookup entries Hdir).
    destruct (last _) as [n|] eqn:Hlast.
    + apply last_filter_Some in Hlast as (l1 & l2 & Hnames & Hn & _).
      assert (n ∈ entries ∧ is_pdf n = true) as [? ?].
      { apply Hin. rewrite Hnames, elem_of_app. right. by left. }
      exists n. split; [done|]. split; [done|]. split; [done|].
      unfold find_lender_files. simpl. by rewrite Hlookup.
    + exfalso.
      eapply (last_filter_None _ _ (base ++ str ".pdf") Hlast).
      * apply Hin. split; [done|apply is_pdf_ext].
      * unfold key. by rewrite stem_pdf.
  - intros Hdir lenders. unfold index_lender_pdfs. rewrite Hdir.
    apply find_nothing_in_empty.
  - intros entries Hdir Hnone. specialize (Hlookup entries Hdir).
    destruct (last _) as [n|] eqn:Hlast.
    + apply last_filter_Some in Hlast as (l1 & l2 & Hnames & Hn & _).
      assert (n ∈ entries ∧ is_pdf n = true) as [? ?].
      { apply Hin. rewrite Hnames, elem_of_app. right. by left. }
      by destruct (Hnone n).
    + unfold find_lender_files. simpl. by rewrite Hlookup.
Qed.

End IndexMore.

(** ** The models offered in the sidebar *)
Section Models.

Import PathOps.


End Models.

(** ** The login form *)
Section Login.

Import Text.

Variable DEFAULT_PASSWORD ADMIN_EMAIL_DOMAIN : text.

Lemma ends_with_lower suffix s :
  ends_with suffix (lower s) = true → lower suffix = suffix.
Proof.
  unfold ends_with. intros [_ <-]%bool_decide_eq_true.
  unfold lower. rewrite <- fmap_drop. apply lower_idemp.
Qed.

Lemma ends_with_nil s : ends_with [] s = true.
Proof.
  unfold ends_with. apply bool_decide_eq_true. simpl. split; [lia|].
  rewrite Nat.sub_0_r. apply drop_all.
Qed.

Lemma ends_with_app a b : ends_with b (a ++ b) = true.
Proof.
  unfold ends_with. apply bool_decide_eq_true. rewrite length_app.
  split; [lia|].
  replace (length a + length b - length b) with (length a + 0) by lia.
  by rewrite drop_app_add.
Qed.

Lemma ends_with_split suffix s :
  ends_with suffix s = true → ∃ front, s = front ++ suffix.
Proof.
  unfold ends_with. intros [_ Hd]%bool_decide_eq_true.
  exists (take (length s - length suffix) s).
  transitivity (take (length s - length suffix) s
                ++ drop (length s - length suffix) s);
    [by rewrite take_drop|by rewrite Hd].
Qed.

(** X10. The login is granted exactly when the password is the
    configured one and the email is not empty.  The identity it stores is
    the email in lower case, which lower-casing leaves as it is, and the
    admin flag is computed from that lower-case form; so the login does not
    tell apart two emails that are the same in lower case: both are
    granted or both refused, with the same identity and the same flag. *)
Theorem login_ignores_case (email password : text) :
  (is_Some (submit_login DEFAULT_PASSWORD ADMIN_EMAIL_DOMAIN email password)
   ↔ password = DEFAULT_PASSWORD ∧ email ≠ [])
  ∧ (∀ user_email is_admin,
       submit_login DEFAULT_PASSWORD ADMIN_EMAIL_DOMAIN email password
       = Some (user_email, is_admin) →
       user_email = lower email
       ∧ lower user_email = user_email
       ∧ is_admin = ends_with ADMIN_EMAIL_DOMAIN (lower email))
  ∧ (∀ other,
       lower other = lower email →
       submit_login DEFAULT_PASSWORD ADMIN_EMAIL_DOMAIN other password
       = submit_login DEFAULT_PASSWORD ADMIN_EMAIL_DOMAIN email password).
Proof.
  unfold submit_login. split; [|split].
  - destruct (decide (password = DEFAULT_PASSWORD)) as [Hp|Hp];
      destruct (decide (email = [])) as [He|He].
    + rewrite bool_decide_eq_true_2 by done.
      rewrite bool_decide_eq_false_2 by (intros H; by apply H).
      simpl. split; [by intros [? ?]|tauto].
    + rewrite !bool_decide_eq_true_2 by done. simpl. split; [done|eauto].
    + rewrite bool_decide_eq_false_2 by done. simpl.
      split; [by intros [? ?]|tauto].
    + rewrite bool_decide_eq_false_2 by done. simpl.
      split; [by intros [? ?]|tauto].
  - intros user_email is_admin.
    destruct (_ && _); [|done]. intros [= <- <-].
    split; [done|]. split; [apply lower_idemp|done].
  - intros other Hsame. rewrite Hsame.
    assert (bool_decide (other ≠ []) = bool_decide (email ≠ [])) as ->;
      [|done].
    destruct other, email; done.
Qed.

(** X11. The admin flag of a granted login is set exactly when the email
    in lower case ends with the configured domain.  So a configured domain
    with a letter that lower case changes makes nobody an admin, and an
    empty one makes everybody an admin. *)
Theorem admin_flag_compares_lower_case (email password user_email : text)
    (is_admin : bool) :
  submit_login DEFAULT_PASSWORD ADMIN_EMAIL_DOMAIN email password
  = Some (user_email, is_admin) →
  (is_admin = true ↔ ∃ front, lower email = front ++ ADMIN_EMAIL_DOMAIN)
  ∧ (lower ADMIN_EMAIL_DOMAIN ≠ ADMIN_EMAIL_DOMAIN → is_admin = false)
  ∧ (ADMIN_EMAIL_DOMAIN = [] → is_admin = true).
Proof.
  unfold submit_login. destruct (_ && _); [|done]. intros [= _ <-].
  split; [|split].
  - split; [apply ends_with_split|]. intros [front ->]. apply ends_with_app.
  - intros Hdom.
    destruct (ends_with _ _) eqn:He; [|done].
    by apply ends_with_lower in He.
  - intros ->. apply ends_with_nil.
Qed.

End Login.

(** ** The admin page *)
Section Admin.


Lemma filter_all {A} (P : A → Prop) `{!∀ x, Decision (P x)} (l : list A) :
  (∀ x, P x) → filter P l = l.
Proof.
  intros HP. induction l as [|x l IH]; [done|].
  by rewrite filter_cons_True, IH.
Qed.

Lemma admin_rows_eq logs u t :
  admin_rows logs u t
  = let kept := filter (admin_filter u t) logs in
    reverse (drop (length kept - 50) kept).
Proof.
  assert (filter (admin_filter u t) logs
          = (if bool_decide (t = str "Errors")
             then filter (λ log, log_has_error log = true)
             else if bool_decide (t = str "Success")
             then filter (λ log, log_has_error log = false)
             else id)
              ((if bool_decide (u ≠ str "All")
                then filter (λ log, log_user_email log = u) else id) logs))
    as Heq.
  { unfold admin_filter.
    destruct (decide (u ≠ str "All")) as [Hu|Hu];
      destruct (decide (t = str "Errors")) as [Ht|Ht];
      try destruct (decide (t = str "Success")) as [Ht'|Ht'];
      repeat first [rewrite bool_decide_eq_true_2 by done
                   |rewrite bool_decide_eq_false_2 by done];
      try (subst t; rewrite bool_decide_eq_false_2 by done);
      unfold id; rewrite ?list_filter_filter;
      first [apply list_filter_iff|apply filter_all];
      intros log; try subst t; intuition (try done; try congruence). }
  unfold admin_rows. cbv zeta. rewrite Heq.
  by repeat case_bool_decide.
Qed.

(** X12. The admin page lists at most fifty entries, the newest first:
    the log entries that pass both filters are, in the order of the log,
    some older entries that are not listed and then the listed ones in
    reverse; an entry that passes is left out only when fifty are listed. *)
Theorem admin_rows_newest_first (logs : list LogEntry)
    (filter_user filter_type : text) :
  let rows := admin_rows logs filter_user filter_type in
  length rows ≤ 50
  ∧ ∃ older,
      filter (admin_filter filter_user filter_type) logs
      = older ++ reverse rows
      ∧ (older ≠ [] → length rows = 50).
Proof.
  intros rows. unfold rows. rewrite admin_rows_eq. cbv zeta.
  set (kept := filter _ logs).
  rewrite length_reverse, length_drop. split; [lia|].
  exists (take (length kept - 50) kept).
  rewrite reverse_involutive, take_drop. split; [done|].
  intros Hne. destruct (decide (length kept ≤ 50)) as [Hle|Hgt]; [|lia].
  exfalso. apply Hne. replace (length kept - 50) with 0 by lia. done.
Qed.

End Admin.

Lemma indexed_file_is_found_witness :
  (∃ n, n ∈ [str "b_c.pdf"; str "notes.txt"; str "B C.pdf"]
        ∧ PathOps.is_pdf n = true
        ∧ normalize_lender_key (PathOps.stem (PathOps.joinpath (str "pdfs") n))
          = normalize_lender_key (str "B-C")
        ∧ find_lender_files [str "B-C"] Sample.index
          = ([(str "B-C", PathOps.joinpath (str "pdfs") n)], []))
  ∧ find_lender_files [str "B-C"] (index_lender_pdfs Sample.fs (str "nowhere"))
    = ([], [str "B-C"]).
Proof.
  split.
  - apply (proj1 (indexed_file_is_found Sample.fs (str "pdfs") (str "B-C"))
             [str "b_c.pdf"; str "notes.txt"; str "B C.pdf"] (str "b_c")).
    + reflexivity.
    + apply list_elem_of_In. simpl. tauto.
    + discriminate.
    + intros Hin. apply list_elem_of_In in Hin. vm_compute in Hin.
      intuition discriminate.
    + reflexivity.
  - apply (proj1 (proj2 (indexed_file_is_found Sample.fs (str "nowhere")
                           (str "B-C")))).
    reflexivity.
Defined.

Lemma login_ignores_case_witness :
  (str "boss@admin.lex" = Text.lower (str "Boss@Admin.LEX")
   ∧ Text.lower (str "boss@admin.lex") = str "boss@admin.lex"
   ∧ true = ends_with (str "@admin.lex") (Text.lower (str "Boss@Admin.LEX")))
  ∧ submit_login (str "lex") (str "@admin.lex") (str "BOSS@admin.lex")
      (str "lex")
    = submit_login (str "lex") (str "@admin.lex") (str "Boss@Admin.LEX")
        (str "lex").
Proof.
  split.
  - apply (proj1 (proj2 (login_ignores_case (str "lex") (str "@admin.lex")
                           (str "Boss@Admin.LEX") (str "lex")))
             (str "boss@admin.lex") true).
    reflexivity.
  - apply (proj2 (proj2 (login_ignores_case (str "lex") (str "@admin.lex")
                           (str "Boss@Admin.LEX") (str "lex")))
             (str "BOSS@admin.lex")).
    reflexivity.
Defined.

Lemma admin_flag_compares_lower_case_witness :
  (false = true ↔ ∃ front, Text.lower (str "boss@admin.lex")
                           = front ++ str "@Admin.lex")
  ∧ (Text.lower (str "@Admin.lex") ≠ str "@Admin.lex" → false = false)
  ∧ (str "@Admin.lex" = [] → false = true).
Proof.
  apply (admin_flag_compares_lower_case (str "lex") (str "@Admin.lex")
           (str "boss@admin.lex") (str "lex") (str "boss@admin.lex") false).
  reflexivity.
Defined.

(** ** What the wait returns, and when *)
Section WaitMore.

Variable provider : Provider.

Ltac step :=
  unfold Monad.bind, Monad.ret, Monad.raise, Monad.gets, Monad.modify,
    Monad.set_session, time_time, time_sleep, attr_name, genai_get_file,
    genai_upload_file, chat_send_message, provider_call in *;
  simpl in *.

(** One run of the loop: the polls it makes, the time they take, and how
    it ends. *)
Lemma wait_loop_outcome rounds start timeout current w r w' :
  (timeout < now w - start + 2 * Z.of_nat rounds)%Z →
  wait_loop provider rounds start timeout current w = (r, w') →
  ∃ names,
    calls w' = calls w ++ (CallGetFile <$> names)
    ∧ (now w + 2 * Z.of_nat (length names) ≤ now w')%Z
    ∧ (names ≠ [] →
       (now w - start + 2 * Z.of_nat (length names) ≤ timeout + 2)%Z)
    ∧ match r with
      | inr file =>
          state_is (str "PROCESSING") file = false
          ∧ (names = [] → file = current)
      | inl e =>
          (∃ last, e = timed_out_error last
                   ∧ state_is (str "PROCESSING") last = true
                   ∧ (timeout < now w' - start)%Z)
          ∨ (∃ history time name,
               reply (get_file provider history time name) = inl e)
          ∨ exn_class e = AttributeError
      end.
Proof.
  revert current w.
  induction rounds as [|rounds IH]; intros current w Hrounds; simpl;
    destruct (state_is (str "PROCESSING") current) eqn:Hp; step.
  - rewrite bool_decide_eq_true_2 by lia. intros [= <- <-].
    exists []. simpl. rewrite app_nil_r. split_and!; try done; [lia|].
    left. exists current. split_and!; try done. lia.
  - intros [= <- <-]. exists []. simpl. rewrite app_nil_r.
    split_and!; try done. lia.
  - case_bool_decide as Ht.
    { intros [= <- <-]. exists []. simpl. rewrite app_nil_r.
      split_and!; try done; [lia|]. left. exists current.
      split_and!; try done. lia. }
    destruct (file_name current) as [n|]; simpl.
    2:{ intros [= <- <-]. exists []. simpl. rewrite app_nil_r.
        split_and!; try done; [lia|]. by right; right. }
    destruct (reply (get_file provider (calls w) (now w + 2) n))
      as [e|next] eqn:Hr.
    { intros [= <- <-]. exists [n]. simpl. split_and!; try done; [lia..|].
      right; left. eauto. }
    intros Hloop. apply IH in Hloop as (names & Hc & Hn & Hb & Hr');
      [|simpl; lia].
    simpl in Hc, Hn, Hb. exists (n :: names). simpl.
    split_and!.
    + by rewrite Hc, <- app_assoc.
    + lia.
    + intros _. destruct names as [|n' names]; [simpl; lia|].
      specialize (Hb ltac:(done)). simpl in Hb. simpl. lia.
    + destruct r as [e|file]; [done|]. split; [apply Hr'|done].
  - intros [= <- <-]. exists []. simpl. rewrite app_nil_r.
    split_and!; try done. lia.
Qed.

Lemma wait_outcome file_obj timeout w r w' :
  wait_for_file_active provider file_obj timeout w = (r, w') →
  ∃ names,
    calls w' = calls w ++ (CallGetFile <$> names)
    ∧ (now w + 2 * Z.of_nat (length names) ≤ now w')%Z
    ∧ (names ≠ [] → (2 * Z.of_nat (length names) ≤ timeout + 2)%Z)
    ∧ match r with
      | inr file => ready file ∧ (names = [] → file = file_obj)
      | inl e =>
          (∃ last, e = timed_out_error last
                   ∧ state_is (str "PROCESSING") last = true
                   ∧ (timeout < now w' - now w)%Z)
          ∨ (∃ last, e = rejected_error last
                     ∧ state_is (str "PROCESSING") last = false
                     ∧ state_is_not (str "ACTIVE") last = true)
          ∨ (∃ history time name,
               reply (get_file provider history time name) = inl e)
          ∨ exn_class e = AttributeError
      end.
Proof.
  unfold wait_for_file_active, Monad.bind, time_time, Monad.gets.
  destruct (wait_loop provider _ _ _ _ w) as [[e|c] w1] eqn:Hl;
    apply wait_loop_outcome in Hl as (names & Hc & Hn & Hb & Hr);
    try apply wait_rounds_enough.
  - intros [= <- <-]. exists names. split_and!; try done.
    + intros Hne. specialize (Hb Hne). lia.
    + destruct Hr as [?|[?|?]]; eauto.
  - destruct Hr as [Hp Hsame].
    destruct (state_is_not (str "ACTIVE") c) eqn:Ha; intros [= <- <-];
      exists names; split_and!; try done;
      try (intros Hne; specialize (Hb Hne); lia).
    right; left. eauto.
Qed.

(** X13. However the wait ends, it has only polled: every call it made
    is a status poll, each poll came after a sleep of two time units, and a
    poll is made only while the elapsed time is within the timeout.  So a
    wait with a negative timeout polls not at all, and a wait with timeout
    [t] polls at most [t / 2 + 1] times. *)
Theorem wait_polls_within_timeout (file_obj : FileObj) (timeout : Z)
    (w : World) (r : Exn + FileObj) (w' : World) :
  wait_for_file_active provider file_obj timeout w = (r, w') →
  ∃ names,
    calls w' = calls w ++ (CallGetFile <$> names)
    ∧ (now w + 2 * Z.of_nat (length names) ≤ now w')%Z
    ∧ (names ≠ [] → (2 * Z.of_nat (length names) ≤ timeout + 2)%Z)
    ∧ (timeout < 0 → names = [])%Z
    ∧ fs w' = fs w ∧ session w' = session w ∧ shown w' = shown w.
Proof.
  intros Hwait.
  apply wait_for_file_active_polled in Hwait as Hpolled.
  destruct Hpolled as (_ & _ & Hfs & Hs & Hshown).
  apply wait_outcome in Hwait as (names & Hc & Hn & Hb & _).
  exists names. split_and!; try done.
  intros Hneg. destruct names as [|n names]; [done|].
  specialize (Hb ltac:(done)). simpl in Hb. lia.
Qed.

(** X14. A handle the wait returns is neither processing nor rejected.
    When the wait raises, the exception is its own timeout error, raised for
    a handle still processing once more than [timeout] has elapsed; or its
    own rejection, raised for a handle whose state is truthy and named
    neither PROCESSING nor ACTIVE; or an exception the status poll raised;
    or the [AttributeError] of a handle without a name. *)
Theorem wait_returns_ready_handles (file_obj : FileObj) (timeout : Z)
    (w : World) (r : Exn + FileObj) (w' : World) :
  wait_for_file_active provider file_obj timeout w = (r, w') →
  match r with
  | inr file => ready file
  | inl e =>
      (∃ last, e = timed_out_error last
               ∧ state_is (str "PROCESSING") last = true
               ∧ (timeout < now w' - now w)%Z)
      ∨ (∃ last, e = rejected_error last
                 ∧ state_is (str "PROCESSING") last = false
                 ∧ state_is_not (str "ACTIVE") last = true)
      ∨ (∃ history time name,
           reply (get_file provider history time name) = inl e)
      ∨ exn_class e = AttributeError
  end.
Proof.
  intros (names & _ & _ & _ & Hr)%wait_outcome.
  destruct r as [e|file]; [done|]. apply Hr.
Qed.

End WaitMore.

Lemma wait_polls_within_timeout_witness :
  ∃ names,
    calls Cases.slow_wait.2 = calls Sample.world ++ (CallGetFile <$> names)
    ∧ (now Sample.world + 2 * Z.of_nat (length names)
       ≤ now Cases.slow_wait.2)%Z
    ∧ (names ≠ [] → (2 * Z.of_nat (length names) ≤ 3 + 2)%Z)
    ∧ (3 < 0 → names = [])%Z
    ∧ fs Cases.slow_wait.2 = fs Sample.world
    ∧ session Cases.slow_wait.2 = session Sample.world
    ∧ shown Cases.slow_wait.2 = shown Sample.world.
Proof.
  apply (wait_polls_within_timeout
           (Sample.constant_provider Sample.processing None)
           Sample.processing 3 Sample.world Cases.slow_wait.1).
  reflexivity.
Defined.

Lemma wait_returns_ready_handles_witness : ready Sample.active.
Proof.
  apply (wait_returns_ready_handles
           (Sample.constant_provider Sample.active None)
           Sample.processing 120 Sample.world (inr Sample.active)
           Cases.quick_wait.2).
  reflexivity.
Defined.

(** ** The cache and the calls of a query *)
Section QueryMore.

Arguments message_parts : simpl never.

Variable provider : Provider.
Variable LEX_SYSTEM_PROMPT : text.

Ltac no_calls :=
  exists []; rewrite app_nil_r;
  split_and!; [done|constructor|unfold count_uploads; simpl; lia].

Lemma count_uploads_app cs cs' :
  count_uploads (cs ++ cs') = count_uploads cs + count_uploads cs'.
Proof. unfold count_uploads. by rewrite filter_app, length_app. Qed.

Lemma count_sends_app cs cs' :
  count_sends (cs ++ cs') = count_sends cs + count_sends cs'.
Proof. unfold count_sends. by rewrite filter_app, length_app. Qed.

Lemma count_sends_none cs :
  Forall (λ c, is_send c = false) cs → count_sends cs = 0.
Proof.
  unfold count_sends. induction 1 as [|c cs Hc _ IH]; [done|].
  by rewrite filter_cons_False by congruence.
Qed.

Lemma polls_no_send names :
  Forall (λ c, is_send c = false) (CallGetFile <$> names).
Proof. apply Forall_fmap. by apply Forall_true. Qed.

(** What one call of [upload_pdf_with_cache] does to the cache and which
    calls it makes: nothing, or one upload and some polls; the cache is the
    same, or has the new handle, which is ready, at the key of the path. *)
Lemma upload_outcome pdf_path w r w' :
  upload_pdf_with_cache provider pdf_path w = (r, w') →
  (∃ news, calls w' = calls w ++ news
           ∧ Forall (λ c, is_send c = false) news
           ∧ count_uploads news ≤ 1)
  ∧ ((cache_of w' = cache_of w
      ∧ ∀ file, r = inr file →
                ∃ entry, cache_of w !! fs_resolve (fs w) pdf_path = Some entry
                         ∧ entry_file entry = file)
     ∨ ∃ file mtime,
         r = inr file ∧ ready file
         ∧ cache_of w'
           = <[fs_resolve (fs w) pdf_path := mkEntry file mtime]> (cache_of w)).
Proof.
  intros Hup.
  destruct (ensure_upload_cache_spec w)
    as (w0 & He & Hnow & Hcalls & Hfs & Hshown & Hc & Hsame).
  destruct (fs_mtime (fs w) pdf_path) as [exc|mtime] eqn:Hm.
  { unfold upload_pdf_with_cache, Monad.bind, Monad.gets, Monad.raise in Hup.
    rewrite He, Hfs, Hm in Hup. injection Hup as <- <-.
    split; [rewrite Hcalls; no_calls|].
    left. by split. }
  destruct (cache_hit (cache_of w !! fs_resolve (fs w) pdf_path) mtime)
    as [hit|] eqn:Hhit.
  { rewrite (upload_hit _ _ _ _ _ Hm Hhit) in Hup. injection Hup as <- <-.
    split; [no_calls|].
    left. split; [done|]. intros file [= <-]. unfold cache_hit in Hhit.
    destruct (cache_of w !! fs_resolve (fs w) pdf_path) as [entry|]; [|done].
    case_bool_decide; [|done]. injection Hhit as <-. eauto. }
  destruct (upload_miss provider _ _ _ Hm Hhit) as (w0' & He' & Heq).
  rewrite He in He'. injection He' as <-.
  rewrite Heq in Hup. clear Heq.
  destruct (genai_upload_file provider pdf_path w0)
    as [[e|upload] wu] eqn:Hu;
    apply genai_upload_file_spec in Hu as (_ & Hcu & _ & Hsu & _).
  { injection Hup as <- <-. split.
    - exists [CallUpload pdf_path]. rewrite Hcu, Hcalls.
      split; [done|]. split; [by repeat constructor|done].
    - left. split; [|done]. rewrite <- Hc. unfold cache_of. by rewrite Hsu. }
  destruct (wait_for_file_active provider upload default_timeout wu)
    as [[e|upload'] ww] eqn:Hw;
    apply wait_outcome in Hw as Hout;
    destruct Hout as (names & _ & _ & _ & Hr);
    apply wait_for_file_active_polled in Hw as (_ & [names' Hcw] & _ & Hsw & _).
  { injection Hup as <- <-. split.
    - exists (CallUpload pdf_path :: (CallGetFile <$> names')).
      rewrite Hcw, Hcu, Hcalls, <- app_assoc. split; [done|].
      split; [constructor; [done|apply polls_no_send]|].
      change (CallUpload pdf_path :: (CallGetFile <$> names'))
        with ([CallUpload pdf_path] ++ (CallGetFile <$> names')).
      by rewrite count_uploads_polls.
    - left. split; [|done]. rewrite <- Hc. unfold cache_of.
      by rewrite Hsw, Hsu. }
  destruct (cache_store_spec (fs_resolve (fs w) pdf_path)
              (mkEntry upload' mtime) ww)
    as (w3 & Hst & _ & Hc3 & _ & _ & Hcache).
  rewrite Hst in Hup. simpl in Hup. injection Hup as <- <-. split.
  - exists (CallUpload pdf_path :: (CallGetFile <$> names')).
    rewrite Hc3, Hcw, Hcu, Hcalls, <- app_assoc. split; [done|].
    split; [constructor; [done|apply polls_no_send]|].
    change (CallUpload pdf_path :: (CallGetFile <$> names'))
      with ([CallUpload pdf_path] ++ (CallGetFile <$> names')).
    by rewrite count_uploads_polls.
  - right. exists upload', mtime. split; [done|]. split; [apply Hr|].
    rewrite Hcache, <- Hc. f_equal. unfold cache_of. by rewrite Hsw, Hsu.
Qed.

(** X15. A call of [upload_pdf_with_cache], however it ends, leaves the
    entries of all other paths as they were, makes at most one upload and
    no model call, and keeps the cache ready: when every handle in the cache
    is ready before the call, so is every handle after it, and so is the
    handle returned. *)
Theorem upload_keeps_cache_ready (pdf_path : Path) (w : World)
    (r : Exn + FileObj) (w' : World) :
  upload_pdf_with_cache provider pdf_path w = (r, w') →
  (∀ key, key ≠ fs_resolve (fs w) pdf_path →
          cache_of w' !! key = cache_of w !! key)
  ∧ (∃ news, calls w' = calls w ++ news
             ∧ count_uploads news ≤ 1 ∧ count_sends news = 0)
  ∧ (cache_ready w →
     cache_ready w' ∧ ∀ file, r = inr file → ready file).
Proof.
  intros [(news & Hcalls & Hno & Hone) Hcache]%upload_outcome.
  split; [|split].
  - intros key Hkey. destruct Hcache as [[-> _]|(file & mtime & _ & _ & ->)];
      [done|]. by rewrite lookup_insert_ne.
  - exists news. split; [done|]. split; [done|]. by apply count_sends_none.
  - intros Hready.
    destruct Hcache as [[Hsame Hfile]|(file & mtime & -> & Hf & Hnew)].
    + split.
      * intros key entry. rewrite Hsame. apply Hready.
      * intros file (entry & Hentry & <-)%Hfile. by eapply Hready.
    + split; [|by intros ? [= <-]].
      intros key entry. rewrite Hnew.
      destruct (decide (key = fs_resolve (fs w) pdf_path)) as [->|Hkey].
      * rewrite lookup_insert_eq. by intros [= <-].
      * rewrite lookup_insert_ne by done. apply Hready.
Qed.

Lemma for_each_upload_outcome files w r w' :
  for_each (upload_pdf_with_cache provider) files w = (r, w') →
  (∃ news, calls w' = calls w ++ news
           ∧ Forall (λ c, is_send c = false) news
           ∧ count_uploads news ≤ length files)
  ∧ (∀ uploads, r = inr uploads → length uploads = length files)
  ∧ (cache_ready w →
     cache_ready w' ∧ ∀ uploads, r = inr uploads → Forall ready uploads).
Proof.
  revert w r w'. induction files as [|f files IH]; intros w r w'; simpl.
  - intros [= <- <-]. split; [no_calls|]. split; [by intros ? [= <-]|].
    intros Hready. split; [done|]. by intros ? [= <-].
  - unfold Monad.bind, Monad.ret.
    destruct (upload_pdf_with_cache provider f w) as [[e|y] w1] eqn:Hu;
      apply upload_outcome in Hu as [(news1 & Hc1 & Hn1 & Hu1) Hcache].
    { intros [= <- <-]. split; [exists news1; split_and!; [done..|lia]|].
      split; [done|]. intros Hready. split; [|done].
      destruct Hcache as [[Hsame _]|(? & ? & [=] & _)].
      intros key entry. rewrite Hsame. apply Hready. }
    assert (cache_ready w → cache_ready w1 ∧ ready y) as Hstep.
    { intros Hready.
      destruct Hcache as [[Hsame Hfile]|(file & mtime & [= <-] & Hf & Hnew)].
      - split; [intros key entry; rewrite Hsame; apply Hready|].
        destruct (Hfile y eq_refl) as (entry & Hentry & <-).
        by eapply Hready.
      - split; [|done]. intros key entry. rewrite Hnew.
        destruct (decide (key = fs_resolve (fs w) f)) as [->|Hkey].
        + rewrite lookup_insert_eq. by intros [= <-].
        + rewrite lookup_insert_ne by done. apply Hready. }
    destruct (for_each _ files w1) as [[e|ys] w2] eqn:Hf;
      apply IH in Hf as ((news2 & Hc2 & Hn2 & Hu2) & Hlen & Hrest);
      intros [= <- <-];
      (split; [exists (news1 ++ news2); rewrite Hc2, Hc1, <- app_assoc;
               split; [done|]; split; [by apply Forall_app|];
               rewrite count_uploads_app; lia|]).
    + split; [done|].
      intros [Hready1 _]%Hstep. split; [by apply Hrest|done].
    + split; [intros ? [= <-]; simpl; by rewrite (Hlen ys)|].
      intros [Hready1 Hy]%Hstep.
      destruct (Hrest Hready1) as [Hready2 Hys]. split; [done|].
      intros ? [= <-]. constructor; [done|by apply Hys].
Qed.

(** The three ways [answer_with_gemini] ends: an upload raises, the model
    call raises, or the model call returns. *)
Lemma answer_outcome question files model_name user_email w r w' :
  answer_with_gemini provider LEX_SYSTEM_PROMPT question files model_name
    user_email w = (r, w') →
  ∃ w1 ups,
    for_each (upload_pdf_with_cache provider) files (ensure_upload_cache w).2
    = (ups, w1)
    ∧ match ups with
      | inl e => r = inl e ∧ w' = w1
      | inr uploads =>
          calls w'
          = calls w1 ++ [CallSend (message_parts LEX_SYSTEM_PROMPT question
                                      uploads)]
          ∧ cache_of w' = cache_of w1
          ∧ fs w' = fs w1 ∧ shown w' = shown w1
          ∧ interaction_logs (session w') = interaction_logs (session w1)
          ∧ messages (session w') = messages (session w1)
          ∧ match r with
            | inr answer =>
                ∃ history time parts response,
                  reply (send_message provider history time parts)
                  = inr response
                  ∧ answer
                    = (if bool_decide (Text.strip (default [] response) = [])
                       then fallback_answer
                       else Text.strip (default [] response))
            | inl e =>
                ∃ history time parts,
                  reply (send_message provider history time parts) = inl e
            end
      end.
Proof.
  unfold answer_with_gemini, Monad.bind, Monad.gets, Monad.ret.
  assert (ensure_upload_cache w = (inr tt, (ensure_upload_cache w).2)) as ->
    by done.
  destruct (for_each _ files (ensure_upload_cache w).2)
    as [[e|uploads] w1] eqn:Hf.
  { intros [= <- <-]. by exists w1, (inl e). }
  unfold ensure_chat_session, Monad.set_session, Monad.modify.
  unfold chat_send_message, provider_call. simpl.
  destruct (reply (send_message provider _ _ _)) as [e|response] eqn:Hr;
    intros [= <- <-]; exists w1, (inr uploads); (split; [done|]); simpl;
    (split_and!; [done|by unfold cache_of; simpl; case_bool_decide
                 |done|done|by case_bool_decide|by case_bool_decide|]).
  - eauto.
  - eauto 10.
Qed.

Lemma fallback_answer_text :
  fallback_answer ≠ [] ∧ Text.strip fallback_answer = fallback_answer.
Proof. split; [done|by vm_compute]. Qed.

(** X16. An answer [answer_with_gemini] returns is never empty and has
    no whitespace at either end: it is the fallback sentence, or the text
    the model returned, trimmed. *)
Theorem answer_is_never_blank (question : text) (files : list Path)
    (model_name user_email : text) (w : World) (answer : text) (w' : World) :
  answer_with_gemini provider LEX_SYSTEM_PROMPT question files model_name
    user_email w = (inr answer, w') →
  answer ≠ [] ∧ Text.strip answer = answer
  ∧ (answer = fallback_answer
     ∨ ∃ history time parts response,
         reply (send_message provider history time parts)
         = inr (Some response)
         ∧ answer = Text.strip response).
Proof.
  intros (w1 & ups & _ & Hout)%answer_outcome.
  destruct ups as [e|uploads]; [by destruct Hout|].
  destruct Hout
    as (_ & _ & _ & _ & _ & _ & history & time & parts & response & Hr & ->).
  case_bool_decide as Hblank.
  - destruct fallback_answer_text. split_and!; [done..|by left].
  - split; [done|]. split; [apply strip_idemp|]. right.
    destruct response as [response|]; [|done]. eauto 10.
Qed.

(** X17. [answer_with_gemini] uploads at most one file per path and
    calls the model at most once.  When it returns, the model call is its
    last call and the parts sent are one handle per path, in the order of
    the paths, before the prompt text.  When every handle in the cache is
    ready before the call, the handles sent are ready and every handle in
    the cache is ready afterwards, however the call ends. *)
Theorem answer_calls_model_once (question : text) (files : list Path)
    (model_name user_email : text) (w : World) (r : Exn + text) (w' : World) :
  answer_with_gemini provider LEX_SYSTEM_PROMPT question files model_name
    user_email w = (r, w') →
  ∃ news,
    calls w' = calls w ++ news
    ∧ count_uploads news ≤ length files
    ∧ count_sends news ≤ 1
    ∧ (∀ answer, r = inr answer →
         ∃ before uploads,
           news = before ++ [CallSend (message_parts LEX_SYSTEM_PROMPT
                                         question uploads)]
           ∧ count_sends before = 0
           ∧ length uploads = length files
           ∧ (cache_ready w → Forall ready uploads))
    ∧ (cache_ready w → cache_ready w').
Proof.
  intros (w1 & ups & Hf & Hout)%answer_outcome.
  destruct (ensure_upload_cache_spec w) as (w0 & He & _ & Hc0 & _ & _ & Hk0 & _).
  rewrite He in Hf. simpl in Hf.
  assert (cache_ready w → cache_ready w0) as Hready0.
  { intros Hready key entry. rewrite Hk0. apply Hready. }
  apply for_each_upload_outcome
    in Hf as ((news & Hc1 & Hno & Hup) & Hlen & Hready1).
  rewrite Hc0 in Hc1.
  destruct ups as [e|uploads].
  - destruct Hout as [-> ->]. exists news.
    split; [done|]. split; [done|].
    split; [rewrite count_sends_none by done; lia|].
    split; [done|]. intros Hready. by apply (Hready1 (Hready0 Hready)).
  - destruct Hout as (Hc & Hk & _ & _ & _ & _ & _).
    exists (news ++ [CallSend (message_parts LEX_SYSTEM_PROMPT question
                                 uploads)]).
    split; [by rewrite Hc, Hc1, <- app_assoc|].
    split; [rewrite count_uploads_app; unfold count_uploads at 2; simpl; lia|].
    split; [rewrite count_sends_app, count_sends_none by done;
            unfold count_sends; simpl; lia|].
    split.
    + intros answer _. exists news, uploads. split; [done|].
      split; [by apply count_sends_none|].
      split; [by apply Hlen|].
      intros Hready. by apply (Hready1 (Hready0 Hready)).
    + intros Hready key entry. rewrite Hk.
      by apply (Hready1 (Hready0 Hready)).
Qed.

End QueryMore.

Lemma upload_keeps_cache_ready_witness :
  cache_ready Sample.uploaded ∧ ready Sample.active.
Proof.
  destruct (upload_keeps_cache_ready
              (Sample.constant_provider Sample.active None) Sample.pdf
              Sample.world (inr Sample.active) Sample.uploaded eq_refl)
    as (_ & _ & Hready).
  destruct Hready as [Hcache Hfile].
  - intros key entry Hkey. unfold cache_of in Hkey. simpl in Hkey.
    by rewrite lookup_empty in Hkey.
  - split; [exact Hcache|]. by apply Hfile.
Defined.

Lemma answer_is_never_blank_witness :
  str "Yes." ≠ [] ∧ Text.strip (str "Yes.") = str "Yes."
  ∧ (str "Yes." = fallback_answer
     ∨ ∃ history time parts response,
         reply (send_message Cases.yes_provider history time parts)
         = inr (Some response)
         ∧ str "Yes." = Text.strip response).
Proof.
  apply (answer_is_never_blank Cases.yes_provider Sample.system_prompt
           Cases.question [Sample.pdf] (str "models/gemini") Sample.broker
           Sample.world (str "Yes.") Cases.answered.2).
  reflexivity.
Defined.

Lemma answer_calls_model_once_witness :
  ∃ news,
    calls Cases.answered.2 = calls Sample.world ++ news
    ∧ count_uploads news ≤ 1
    ∧ count_sends news ≤ 1
    ∧ (∀ answer, @inr Exn text (str "Yes.") = inr answer →
         ∃ before uploads,
           news = before ++ [CallSend (message_parts Sample.system_prompt
                                         Cases.question uploads)]
           ∧ count_sends before = 0
           ∧ length uploads = 1
           ∧ (cache_ready Sample.world → Forall ready uploads))
    ∧ (cache_ready Sample.world → cache_ready Cases.answered.2).
Proof.
  apply (answer_calls_model_once Cases.yes_provider Sample.system_prompt
           Cases.question [Sample.pdf] (str "models/gemini") Sample.broker
           Sample.world (inr (str "Yes.")) Cases.answered.2).
  reflexivity.
Defined.

(** ** Every query ends in the log *)
Section Handler.

Arguments message_parts : simpl never.

Variable provider : Provider.
Variable LEX_SYSTEM_PROMPT : text.

Lemma answer_frame question files model_name user_email w r w' :
  answer_with_gemini provider LEX_SYSTEM_PROMPT question files model_name
    user_email w = (r, w') →
  fs w' = fs w ∧ shown w' = shown w
  ∧ interaction_logs (session w') = interaction_logs (session w)
  ∧ messages (session w') = messages (session w).
Proof.
  intros (w1 & ups & Hf & Hout)%answer_outcome.
  pose proof (ensure_upload_cache_framed w) as H0.
  apply for_each_upload_framed in Hf as H1.
  pose proof (transitivity H0 H1) as H01.
  destruct (framed_logs _ _ H01) as (Hp & Hl & Hm & _).
  destruct H01 as (Hfs & _ & _).
  destruct ups as [e|uploads].
  - by destruct Hout as [-> ->].
  - destruct Hout as (_ & _ & Hfs' & Hp' & Hl' & Hm' & _).
    by rewrite Hfs', Hp', Hl', Hm'.
Qed.

(** What the handler of a failed query leaves behind. *)
Lemma report_failure_spec user_email prompt exc w :
  ∃ w',
    report_failure user_email prompt exc w = (inr tt, w')
    ∧ now w' = now w ∧ calls w' = calls w ∧ fs w' = fs w
    ∧ upload_cache (session w') = upload_cache (session w)
    ∧ chat_session_key (session w') = chat_session_key (session w)
    ∧ messages (session w') = messages (session w)
    ∧ shown w' = shown w ++ [ShownError (failure_text exc)]
    ∧ interaction_logs (session w')
      = Some (default [] (interaction_logs (session w))
              ++ [mkLog (now w) user_email prompt
                    (if bool_decide (exn_msg exc = []) then Some [] else None)
                    (Some (exn_msg exc))]).
Proof.
  assert (∀ msg : text,
            (if bool_decide (Some msg ≠ None ∧ Some msg ≠ Some [])
             then None else Some [])
            = (if bool_decide (msg = []) then Some [] else None :> option text))
    as Hresp.
  { intros msg. destruct (decide (msg = [])) as [->|Hne].
    - rewrite bool_decide_eq_false_2 by (intros [_ H]; by apply H).
      by rewrite bool_decide_eq_true_2.
    - rewrite bool_decide_eq_true_2 by (split; congruence).
      by rewrite bool_decide_eq_false_2. }
  unfold report_failure, failure_text.
  destruct (exn_class exc);
    unfold Monad.bind, st_show, Monad.modify, log_interaction, time_time,
      Monad.gets, Monad.set_session; simpl;
    eexists; (split; [done|]); simpl; rewrite Hresp; by split_and!.
Qed.

(** The body of the [try]: it ends with the answer on the page, in the
    conversation and in the log, or it raises and has changed none of
    them. *)
Lemma process_query_outcome user_email prompt selected index w r w' :
  process_query provider LEX_SYSTEM_PROMPT user_email prompt selected index w
  = (r, w') →
  fs w' = fs w
  ∧ match r with
    | inr _ =>
        ∃ answer,
          answer ≠ []
          ∧ shown w' = shown w ++ [ShownMarkdown answer]
          ∧ messages (session w')
            = messages (session w) ++ [mkMessage Assistant answer]
          ∧ interaction_logs (session w')
            = Some (default [] (interaction_logs (session w))
                    ++ [mkLog (now w') user_email prompt (Some answer) None])
    | inl exc =>
        shown w' = shown w
        ∧ messages (session w') = messages (session w)
        ∧ interaction_logs (session w') = interaction_logs (session w)
    end.
Proof.
  unfold process_query.
  destruct (query_lenders prompt selected) as [lenders question].
  case_bool_decide; [by intros [= <- <-]|].
  case_bool_decide; [by intros [= <- <-]|].
  destruct (find_lender_files lenders index) as [matched missing].
  case_bool_decide; [by intros [= <- <-]|].
  unfold Monad.bind, Monad.gets.
  case_bool_decide; [by intros [= <- <-]|].
  destruct (answer_with_gemini _ _ _ _ _ _ w) as [[e|answer] w1] eqn:Ha.
  - apply answer_frame in Ha as (? & ? & ? & ?). by intros [= <- <-].
  - assert (answer ≠ []) as Hne.
    { apply answer_outcome in Ha as (w2 & ups & _ & Hout).
      destruct ups as [e|uploads]; [by destruct Hout|].
      destruct Hout as (_ & _ & _ & _ & _ & _ & _ & _ & _ & resp & _ & ->).
      case_bool_decide; [apply fallback_answer_text|done]. }
    apply answer_frame in Ha as (Hfs & Hp & Hl & Hm).
    unfold st_show, append_message, log_interaction, time_time, Monad.bind,
      Monad.gets, Monad.set_session, Monad.modify. simpl.
    intros [= <- <-]. simpl. split; [done|]. exists answer.
    by rewrite Hp, Hl, Hm.
Qed.

Lemma after_prompt_spec prompt w :
  now (after_prompt prompt w) = now w
  ∧ calls (after_prompt prompt w) = calls w
  ∧ fs (after_prompt prompt w) = fs w
  ∧ shown (after_prompt prompt w) = shown w ++ [ShownMarkdown prompt]
  ∧ messages (session (after_prompt prompt w))
    = messages (session w) ++ [mkMessage User prompt]
  ∧ interaction_logs (session (after_prompt prompt w))
    = interaction_logs (session w)
  ∧ upload_cache (session (after_prompt prompt w)) = upload_cache (session w)
  ∧ chat_session_key (session (after_prompt prompt w))
    = chat_session_key (session w)
  ∧ selected_model (session (after_prompt prompt w))
    = selected_model (session w).
Proof. done. Qed.



Lemma check_failure_msg index lenders question :
  exn_msg (check_failure index lenders question) ≠ [].
Proof. unfold check_failure. by repeat case_bool_decide. Qed.

(** X19. A query that names no lenders, has no question, names a lender
    without a file, or is made with no model selected, is turned down
    before anything is uploaded or sent: no provider call is made, no time
    passes, the upload cache and the chat session stay as they were, and
    the error of the first check that fails, in the order lenders, question,
    files, model, is shown and logged. *)
Theorem invalid_query_makes_no_call (user_email prompt : text)
    (selected_lenders : list text) (lender_index : gmap text Path)
    (w : World) (lenders : list text) (question : text) :
  prompt ≠ [] →
  query_lenders prompt selected_lenders = (lenders, question) →
  lenders = [] ∨ question = []
  ∨ Exists (λ t, ¬ resolves lender_index t) lenders
  ∨ selected_model (session w) = [] →
  let exc := check_failure lender_index lenders question in
  ∃ w',
    main_chat_interface provider LEX_SYSTEM_PROMPT user_email prompt
      selected_lenders lender_index w = (inr tt, w')
    ∧ calls w' = calls w ∧ now w' = now w
    ∧ upload_cache (session w') = upload_cache (session w)
    ∧ chat_session_key (session w') = chat_session_key (session w)
    ∧ shown w'
      = shown w ++ [ShownMarkdown prompt; ShownError (failure_text exc)]
    ∧ interaction_logs (session w')
      = Some (default [] (interaction_logs (session w))
              ++ [mkLog (now w) user_email prompt None (Some (exn_msg exc))]).
Proof.
  intros Hprompt Hq Hbad exc.
  assert (process_query provider LEX_SYSTEM_PROMPT user_email prompt
            selected_lenders lender_index (after_prompt prompt w)
          = (inl exc, after_prompt prompt w)) as Hpq.
  { unfold process_query, exc, check_failure. rewrite Hq.
    case_bool_decide; [done|]. case_bool_decide; [done|].
    rewrite find_lender_files_eq.
    case_bool_decide as Hmissing; [done|].
    unfold Monad.bind, Monad.gets.
    destruct Hbad as [?|[?|[Hex|Hmodel]]]; [done..| |].
    - exfalso. apply Exists_exists in Hex as (t & Hin & Ht).
      assert (t ∈ filter (λ l, ¬ resolves lender_index l) lenders) as Hf
        by (by apply list_elem_of_filter).
      rewrite Hmissing in Hf. by apply elem_of_nil in Hf.
    - assert (selected_model (session (after_prompt prompt w))
              = selected_model (session w)) as -> by done.
      by rewrite bool_decide_eq_true_2. }
  rewrite main_chat_interface_unfold by done.
  unfold Monad.catch. rewrite Hpq.
  destruct (report_failure_spec user_email prompt exc (after_prompt prompt w))
    as (w' & -> & Hn & Hc & _ & Hu & Hk & _ & Hp & Hl).
  exists w'. split; [done|].
  destruct (after_prompt_spec prompt w)
    as (Hn0 & Hc0 & _ & Hp0 & _ & Hl0 & Hu0 & Hk0 & _).
  split_and!; try congruence.
  - by rewrite Hp, Hp0, <- app_assoc.
  - rewrite Hl, Hl0, Hn0.
    by rewrite bool_decide_eq_false_2 by apply check_failure_msg.
Qed.

(** X20. A failure whose exception has an empty message is logged with
    an empty error and an empty response.  The admin page takes such an
    entry for a success: it never lists it among the errors. *)
Theorem unnamed_failure_counts_as_success (user_email prompt : text)
    (selected_lenders : list text) (lender_index : gmap text Path)
    (w : World) (exc : Exn) (w1 : World) :
  prompt ≠ [] →
  process_query provider LEX_SYSTEM_PROMPT user_email prompt selected_lenders
    lender_index (after_prompt prompt w) = (inl exc, w1) →
  exn_msg exc = [] →
  ∃ w' entry,
    main_chat_interface provider LEX_SYSTEM_PROMPT user_email prompt
      selected_lenders lender_index w = (inr tt, w')
    ∧ interaction_logs (session w')
      = Some (default [] (interaction_logs (session w)) ++ [entry])
    ∧ log_response entry = Some [] ∧ log_error entry = Some []
    ∧ (∀ logs filter_user,
         entry ∉ admin_rows logs filter_user (str "Errors"))
    ∧ (∀ logs filter_user,
         entry ∈ logs → length logs ≤ 50 →
         filter_user = str "All" ∨ filter_user = user_email →
         entry ∈ admin_rows logs filter_user (str "Success")).
Proof.
  intros Hprompt Hpq Hmsg.
  rewrite main_chat_interface_unfold by done.
  unfold Monad.catch. rewrite Hpq.
  apply process_query_outcome in Hpq as (_ & _ & _ & Hl1).
  destruct (report_failure_spec user_email prompt exc w1)
    as (w' & -> & _ & _ & _ & _ & _ & _ & _ & Hl).
  rewrite Hmsg in Hl. rewrite bool_decide_eq_true_2 in Hl by done.
  eexists w', _. split; [done|]. split; [by rewrite Hl, Hl1|].
  split; [done|]. split; [done|]. split.
  - intros logs u. rewrite admin_rows_eq. cbv zeta.
    rewrite elem_of_reverse. intros Hin. apply subseteq_drop in Hin.
    apply list_elem_of_filter in Hin as [(_ & Herr & _) _].
    by specialize (Herr eq_refl).
  - intros logs filter_user Hin Hlen Hu. rewrite admin_rows_eq. cbv zeta.
    rewrite elem_of_reverse.
    set (kept := filter _ logs).
    assert (length kept ≤ length logs) by apply length_filter.
    replace (length kept - 50) with 0 by lia. rewrite drop_0.
    apply list_elem_of_filter. split; [|done].
    split; [|split]; simpl; [|done..].
    destruct Hu as [Hu|Hu]; subst filter_user; [by intros []|done].
Qed.

End Handler.


Lemma invalid_query_makes_no_call_witness :
  ∃ w',
    main_chat_interface Cases.yes_provider Sample.system_prompt Sample.broker
      (str "(B-C, ghost)") [] Sample.index Sample.world = (inr tt, w')
    ∧ calls w' = calls Sample.world ∧ now w' = now Sample.world
    ∧ upload_cache (session w') = upload_cache (session Sample.world)
    ∧ chat_session_key (session w') = chat_session_key (session Sample.world)
    ∧ shown w'
      = shown Sample.world
        ++ [ShownMarkdown (str "(B-C, ghost)");
            ShownError (failure_text no_question_error)]
    ∧ interaction_logs (session w')
      = Some (default [] (interaction_logs (session Sample.world))
              ++ [mkLog (now Sample.world) Sample.broker (str "(B-C, ghost)")
                    None (Some (exn_msg no_question_error))]).
Proof.
  apply (invalid_query_makes_no_call Cases.yes_provider Sample.system_prompt
           Sample.broker (str "(B-C, ghost)") [] Sample.index Sample.world
           [str "B-C"; str "ghost"] []).
  - discriminate.
  - reflexivity.
  - right. left. reflexivity.
Defined.

Lemma unnamed_failure_counts_as_success_witness :
  ∃ w' entry,
    main_chat_interface Cases.silent_provider Sample.system_prompt
      Sample.broker Cases.prompt [] Sample.index Sample.world = (inr tt, w')
    ∧ interaction_logs (session w')
      = Some (default [] (interaction_logs (session Sample.world)) ++ [entry])
    ∧ log_response entry = Some [] ∧ log_error entry = Some []
    ∧ (∀ logs filter_user,
         entry ∉ admin_rows logs filter_user (str "Errors"))
    ∧ (∀ logs filter_user,
         entry ∈ logs → length logs ≤ 50 →
         filter_user = str "All" ∨ filter_user = Sample.broker →
         entry ∈ admin_rows logs filter_user (str "Success")).
Proof.
  apply (unnamed_failure_counts_as_success Cases.silent_provider
           Sample.system_prompt Sample.broker Cases.prompt [] Sample.index
           Sample.world (mkExn OtherError [])
           (process_query Cases.silent_provider Sample.system_prompt
              Sample.broker Cases.prompt [] Sample.index
              (after_prompt Cases.prompt Sample.world)).2).
  - discriminate.
  - vm_compute. reflexivity.
  - reflexivity.
Defined.
